(** * newsflows-bsky-feed-generator: ingestion, aggregation, retention,
      feed ranking and compliance export

    A shallow embedding of the TypeScript sources.  Tables are lists of
    rows in scan order, [Set<string>] values are [gset string], the
    JavaScript [Map] built by the aggregator is a [gmap string Z], and
    strings are byte strings.  Every definition names the source function
    it renders. *)

From Stdlib Require Import ZArith List Ascii String Bool Lia OrdersEx.
From Stdlib Require Import DecimalString DecimalPos DecimalZ.
From stdpp Require Import gmap strings list sorting.

#[local] Set Warnings "-clear-no-such-hyp".

Local Open Scope string_scope.
Local Open Scope list_scope.
Local Open Scope Z_scope.

(** ** Rows of the relational store (db/schema.ts, db/migrations.ts) *)

Module Post.
Record t := mk {
  uri : string;
  cid : string;
  indexedAt : string;
  createdAt : string;
  author : string;
  text : string;
  rootUri : string;
  rootCid : string;
  linkUrl : string;
  linkTitle : string;
  linkDescription : string;
  priority : option Z;
  likes_count : option Z;
  repost_count : option Z;
  comments_count : option Z;
  quote_count : option Z
}.
End Post.

Module Engagement.
Record t := mk {
  uri : string;
  cid : string;
  subjectUri : string;
  subjectCid : string;
  type : Z;
  indexedAt : string;
  createdAt : string;
  author : string
}.
End Engagement.

Module Follows.
Record t := mk { subject : string; follows : string }.
End Follows.

Module Subscriber.
Record t := mk { handle : string; did : string }.
End Subscriber.

Record Database := mkDatabase {
  post : list Post.t;
  engagement : list Engagement.t;
  follows : list Follows.t;
  subscriber : list Subscriber.t
}.

(** How a call ends: it returns, it throws because the store refuses a
    statement, or the iteration bound of the model is used up before a
    loop ends. *)
Inductive outcome (A : Type) : Type :=
  | Returned (a : A)
  | Rejected (message : string)
  | OutOfFuel.
Arguments Returned {A}.
Arguments Rejected {A}.
Arguments OutOfFuel {A}.

(** Text values (varchar columns, ISO timestamps, JavaScript strings of
    ASCII characters) compare byte by byte. *)
Definition str_lt (a b : string) : bool :=
  match String_as_OT.compare a b with Lt => true | _ => false end.

Definition str_le (a b : string) : bool := negb (str_lt b a).

(** ** AT-URI helpers (util/ingestion-scope.ts, subscription.ts) *)

Module AtUri.

(** [s] without the prefix [p], when [s] starts with [p]. *)
Fixpoint strip_prefix (p s : string) : option string :=
  match p, s with
  | EmptyString, _ => Some s
  | String a p', String b s' => if Ascii.eqb a b then strip_prefix p' s' else None
  | String _ _, EmptyString => None
  end.

(** The longest prefix matched by the character class [[^/]*], and the
    rest of the string. *)
Fixpoint span_non_slash (s : string) : string * string :=
  match s with
  | EmptyString => (EmptyString, EmptyString)
  | String c rest =>
      if Ascii.eqb c "/" then (EmptyString, s)
      else let '(a, b) := span_non_slash rest in (String c a, b)
  end.

(** [/^at:\/\/([^/]+)\//.exec(uri)]: the captured authority and what
    follows it (starting at the slash). *)
Definition match_authority (uri : string) : option (string * string) :=
  match strip_prefix "at://" uri with
  | None => None
  | Some r =>
      match span_non_slash r with
      | (EmptyString, _) => None
      | (auth, String _ _ as rest) => Some (auth, rest)
      | (_, EmptyString) => None
      end
  end.

(** [didFromAtUri]: null for a missing or empty uri, otherwise the first
    capture group of [/^at:\/\/([^/]+)\//]. *)
Definition didFromAtUri (uri : option string) : option string :=
  match uri with
  | None => None
  | Some EmptyString => None
  | Some u => fst <$> match_authority u
  end.

(** [isPostUri]: [/^at:\/\/[^/]+\/app\.bsky\.feed\.post\//.test(uri)]. *)
Definition isPostUri (uri : string) : bool :=
  match match_authority uri with
  | Some (_, rest) => bool_decide (is_Some (strip_prefix "/app.bsky.feed.post/" rest))
  | None => false
  end.

End AtUri.

(** ** Ingestion scope and the event projector (subscription.ts) *)

Module Ingestion.
Import AtUri.

Record IngestionScope := mkScope {
  allowlistedAuthorDids : gset string;
  publisherDids : gset string;
  subscriberDids : gset string
}.

(** The three environment switches read through [getBoolEnv]. *)
Record Flags := mkFlags {
  FEEDGEN_SCOPED_INGESTION : bool;
  FEEDGEN_TRACK_SUBSCRIBER_ACTIVITY : bool;
  FEEDGEN_PUBLISHER_ENGAGEMENT_SUBSCRIBER_ONLY : bool
}.

Record StrongRef := mkRef { ref_uri : string; ref_cid : string }.

Record ReplyRef := mkReply { root : option StrongRef; parent : option StrongRef }.

Record External := mkExternal {
  ext_uri : string;
  ext_title : option string;
  ext_description : option string
}.

(** [embed.record] is either a strong reference (a quote) or, for a
    record-with-media embed, an object that holds one under [record]. *)
Record InnerRecord := mkInner { in_uri : option string; in_cid : option string }.

Record EmbedRecord := mkEmbedRecord {
  er_uri : option string;
  er_cid : option string;
  er_record : option InnerRecord
}.

Record Embed := mkEmbed {
  external : option External;
  record : option EmbedRecord
}.

Record PostRecord := mkPostRecord {
  pr_createdAt : string;
  pr_text : option string;
  reply : option ReplyRef;
  embed : option Embed
}.

(** A like or repost record. *)
Record SubjectRecord := mkSubjectRecord {
  sr_createdAt : string;
  subject : option StrongRef
}.

Record CreateOp (R : Type) := mkCreate {
  c_uri : string;
  c_cid : string;
  c_author : string;
  c_record : R
}.
Arguments mkCreate {R}.
Arguments c_uri {R}.
Arguments c_cid {R}.
Arguments c_author {R}.
Arguments c_record {R}.

Record DeleteOp := mkDelete { d_uri : string }.

Record Operations (R : Type) := mkOperations {
  creates : list (CreateOp R);
  deletes : list DeleteOp
}.
Arguments mkOperations {R}.
Arguments creates {R}.
Arguments deletes {R}.

Record OperationsByType := mkOps {
  posts : Operations PostRecord;
  reposts : Operations SubjectRecord;
  likes : Operations SubjectRecord
}.

Section Handler.

Variable flags : Flags.
(** What [getIngestionScope] returns for this event. *)
Variable loaded : IngestionScope.
(** [new Date().toISOString()] at the time of the event. *)
Variable now : string.

Definition scopedIngestion : bool := FEEDGEN_SCOPED_INGESTION flags.

Definition trackSubscriberActivity : bool :=
  scopedIngestion && FEEDGEN_TRACK_SUBSCRIBER_ACTIVITY flags.

Definition restrictPublisherEngagementToSubscribers : bool :=
  scopedIngestion && FEEDGEN_PUBLISHER_ENGAGEMENT_SUBSCRIBER_ONLY flags.

Definition scope : option IngestionScope :=
  if scopedIngestion || trackSubscriberActivity || restrictPublisherEngagementToSubscribers
  then Some loaded else None.

(** [set.has(x)] *)
Definition has (s : gset string) (x : string) : bool := bool_decide (x ∈ s).

(** [did && set.has(did)] for a possibly-null did; the empty string is
    falsy. *)
Definition has_did (s : gset string) (d : option string) : bool :=
  match d with
  | Some EmptyString | None => false
  | Some x => has s x
  end.

Definition shouldStorePost (create : CreateOp PostRecord) : bool :=
  match negb scopedIngestion, scope with
  | true, _ | _, None => true
  | false, Some sc =>
      if has (allowlistedAuthorDids sc) (c_author create) then true
      else
        let rp := reply (c_record create) in
        let rootDid := didFromAtUri (ref_uri <$> (rp ≫= root)) in
        let parentDid := didFromAtUri (ref_uri <$> (rp ≫= parent)) in
        if has_did (allowlistedAuthorDids sc) rootDid then true
        else if has_did (allowlistedAuthorDids sc) parentDid then true
        else if trackSubscriberActivity && has (subscriberDids sc) (c_author create) then true
        else false
  end.

(** [!subjectUri || !isPostUri(subjectUri)] *)
Definition not_a_post (subjectUri : option string) : bool :=
  match subjectUri with
  | None | Some EmptyString => true
  | Some u => negb (isPostUri u)
  end.

Definition shouldStoreEngagementFor (author : string) (subjectUri : option string) : bool :=
  if not_a_post subjectUri then false
  else
    match negb scopedIngestion, scope with
    | true, _ | _, None => true
    | false, Some sc =>
        let subjectDid := didFromAtUri subjectUri in
        if has_did (allowlistedAuthorDids sc) subjectDid then
          if restrictPublisherEngagementToSubscribers
             && has_did (publisherDids sc) subjectDid
             && bool_decide (0 < Z.of_nat (size (subscriberDids sc)))
          then has (subscriberDids sc) author
          else true
        else if trackSubscriberActivity && has (subscriberDids sc) author then true
        else false
    end.

Definition shouldStoreEngagement (create : CreateOp SubjectRecord) : bool :=
  let subjectUri := ref_uri <$> subject (c_record create) in
  shouldStoreEngagementFor (c_author create) subjectUri.

Definition shouldStoreQuoteEngagement (author : string) (subjectUri : option string) : bool :=
  if not_a_post subjectUri then false
  else
    match negb scopedIngestion, scope with
    | true, _ | _, None => true
    | false, Some sc =>
        if trackSubscriberActivity && has (subscriberDids sc) author then true
        else
          let subjectDid := didFromAtUri subjectUri in
          if has_did (publisherDids sc) subjectDid then true else false
    end.

(** [sanitizeForPostgres]: the empty string for null or undefined,
    otherwise the text without its NUL bytes. *)
Fixpoint strip_nul (s : string) : string :=
  match s with
  | EmptyString => EmptyString
  | String c rest => if Ascii.eqb c "000" then strip_nul rest else String c (strip_nul rest)
  end.

Definition sanitizeForPostgres (text : option string) : string :=
  match text with
  | None => ""
  | Some t => strip_nul t
  end.

(** [getQuotedRecord]: the reference held directly by [embed.record], or
    else the one under [embed.record.record]; a missing cid reads as the
    empty string. *)
Definition getQuotedRecord (e : option Embed) : option StrongRef :=
  match e ≫= record with
  | None => None
  | Some direct =>
      match er_uri direct with
      | Some u => Some (mkRef u (default "" (er_cid direct)))
      | None =>
          match er_record direct with
          | Some withMedia =>
              match in_uri withMedia with
              | Some u => Some (mkRef u (default "" (in_cid withMedia)))
              | None => None
              end
          | None => None
          end
      end
  end.

Definition postsToDelete (ops : OperationsByType) : list string :=
  d_uri <$> deletes (posts ops).

Definition post_row (create : CreateOp PostRecord) : Post.t :=
  let r := c_record create in
  let ext := embed r ≫= external in
  {| Post.uri := c_uri create;
     Post.cid := c_cid create;
     Post.indexedAt := now;
     Post.createdAt := pr_createdAt r;
     Post.author := c_author create;
     Post.text := sanitizeForPostgres (pr_text r);
     Post.rootUri := default "" (ref_uri <$> (reply r ≫= root));
     Post.rootCid := default "" (ref_cid <$> (reply r ≫= root));
     Post.linkUrl := default "" (ext_uri <$> ext);
     Post.linkTitle := sanitizeForPostgres (ext ≫= ext_title);
     Post.linkDescription := sanitizeForPostgres (ext ≫= ext_description);
     Post.priority := None;
     Post.likes_count := Some 0;
     Post.repost_count := Some 0;
     Post.comments_count := Some 0;
     Post.quote_count := Some 0 |}.

Definition postsToCreate (ops : OperationsByType) : list Post.t :=
  post_row <$> filter (λ c, shouldStorePost c = true) (creates (posts ops)).

(** likes + reposts + quotes = engagement *)
Definition engagementsToDelete (ops : OperationsByType) : list string :=
  (d_uri <$> deletes (reposts ops))
    ++ (d_uri <$> deletes (likes ops))
    ++ (d_uri <$> deletes (posts ops)).

(** The row built from a like or repost that passed the filter; the
    filter only lets through records that carry a subject. *)
Definition engagement_row (ty : Z) (create : CreateOp SubjectRecord) : list Engagement.t :=
  match subject (c_record create) with
  | Some s =>
      [ {| Engagement.uri := c_uri create;
           Engagement.cid := c_cid create;
           Engagement.subjectUri := ref_uri s;
           Engagement.subjectCid := ref_cid s;
           Engagement.type := ty;
           Engagement.indexedAt := now;
           Engagement.createdAt := sr_createdAt (c_record create);
           Engagement.author := c_author create |} ]
  | None => []
  end.

Definition quote_row (create : CreateOp PostRecord) : list Engagement.t :=
  match getQuotedRecord (embed (c_record create)) with
  | None => []
  | Some quoted =>
      if negb (shouldStoreQuoteEngagement (c_author create) (Some (ref_uri quoted))) then []
      else
        [ {| Engagement.uri := c_uri create;
             Engagement.cid := c_cid create;
             Engagement.subjectUri := ref_uri quoted;
             Engagement.subjectCid := ref_cid quoted;
             Engagement.type := 3;
             Engagement.indexedAt := now;
             Engagement.createdAt := pr_createdAt (c_record create);
             Engagement.author := c_author create |} ]
  end.

Definition engagementsToCreate (ops : OperationsByType) : list Engagement.t :=
  (filter (λ c, shouldStoreEngagement c = true) (creates (reposts ops)) ≫= engagement_row 1)
    ++ (filter (λ c, shouldStoreEngagement c = true) (creates (likes ops)) ≫= engagement_row 2)
    ++ (creates (posts ops) ≫= quote_row).

End Handler.

(** *** Statements against the store *)

(** [DELETE FROM t WHERE uri IN (uris)] *)
Definition delete_uris {A} (key : A → string) (uris : list string) (tbl : list A) : list A :=
  filter (λ r, key r ∉ uris) tbl.

(** [INSERT ... ON CONFLICT DO NOTHING]: a row whose primary key is
    already present (in the table or earlier in the same statement) is
    skipped. *)
Definition insert_ignore {A} (key : A → string) (rows : list A) (tbl : list A) : list A :=
  foldl (λ t r, if bool_decide (key r ∈ key <$> t) then t else t ++ [r]) tbl rows.

(** [handleEvent] for a commit event whose operations are [ops]. *)
Definition handleEvent (flags : Flags) (loaded : IngestionScope) (now : string)
    (ops : OperationsByType) (db : Database) : Database :=
  let toDelete := postsToDelete ops in
  let toCreate := postsToCreate flags loaded now ops in
  let engToDelete := engagementsToDelete ops in
  let engToCreate := engagementsToCreate flags loaded now ops in
  let post1 :=
    if bool_decide (0 < Z.of_nat (length toDelete))
    then delete_uris Post.uri toDelete (post db) else post db in
  let post2 :=
    if bool_decide (0 < Z.of_nat (length toCreate))
    then insert_ignore Post.uri toCreate post1 else post1 in
  let eng1 :=
    if bool_decide (0 < Z.of_nat (length engToDelete))
    then delete_uris Engagement.uri engToDelete (engagement db) else engagement db in
  let eng2 :=
    if bool_decide (0 < Z.of_nat (length engToCreate))
    then insert_ignore Engagement.uri engToCreate eng1 else eng1 in
  {| post := post2; engagement := eng2; follows := follows db; subscriber := subscriber db |}.

End Ingestion.

(** ** The engagement aggregator (util/engagement-updater.ts) *)

Module Aggregator.

(** What the run reads from its environment: the [NEWSBOT_*_DID]
    variables and the start of the rolling window
    ([Date.now() - ENGAGEMENT_TIME_HOURS], as an ISO string). *)
Record Env := mkEnv {
  newsbotDids : list string;
  timeLimit : string
}.

(** A row of a [GROUP BY] count query. *)
Record CountRow := mkCount { uri : string; count : Z }.

(** [items.slice(i, j)] for [0 <= i <= j]. *)
Definition slice {A} (i j : nat) (items : list A) : list A :=
  take (j - i) (drop i items).

(** [for (let i = 0; i < items.length; i += size) body(items.slice(i, i + size))],
    the loop shape of both [execInChunks] and the update batches; [fuel]
    bounds the number of iterations. *)
Fixpoint for_chunks {S} (size : nat) (items : list string)
    (body : list string → S → S) (fuel i : nat) (st : S) : S :=
  match fuel with
  | O => st
  | S fuel' =>
      if bool_decide (i < length items)%nat
      then for_chunks size items body fuel' (i + size) (body (slice i (i + size) items) st)
      else st
  end.

(** [SELECT key AS uri, count(uri) AS count ... GROUP BY key] over the
    rows whose keys are [keys]: one row per distinct key. *)
Definition group_count (keys : list string) : list CountRow :=
  (λ k, mkCount k (Z.of_nat (length (filter (λ k', k' = k) keys)))) <$> remove_dups keys.

(** [new Map(rows.map(r => [r.uri, Number(r.count)]))]: a later entry
    replaces an earlier one with the same key. *)
Definition count_map (rows : list CountRow) : gmap string Z :=
  foldl (λ m r, <[ uri r := count r ]> m) ∅ rows.

(** [CASE WHEN uri = u1 THEN v1 WHEN ... ELSE old END] *)
Fixpoint sql_case (whens : list (string * Z)) (u : string) (old : option Z) : option Z :=
  match whens with
  | [] => old
  | (w, v) :: rest => if String.eqb u w then Some v else sql_case rest u old
  end.

(** [batchUris.map(uri => WHEN uri = ${uri} THEN ${m.get(uri) || 0})] *)
Definition cases (m : gmap string Z) (batchUris : list string) : list (string * Z) :=
  (λ u, (u, default 0 (m !! u))) <$> batchUris.

(** The [UPDATE post SET ... WHERE uri IN (batchUris)] of one batch. *)
Definition update_batch (likesMap repostsMap commentsMap : gmap string Z)
    (batchUris : list string) (tbl : list Post.t) : list Post.t :=
  (λ p,
     if bool_decide (Post.uri p ∈ batchUris) then
       {| Post.uri := Post.uri p; Post.cid := Post.cid p;
          Post.indexedAt := Post.indexedAt p; Post.createdAt := Post.createdAt p;
          Post.author := Post.author p; Post.text := Post.text p;
          Post.rootUri := Post.rootUri p; Post.rootCid := Post.rootCid p;
          Post.linkUrl := Post.linkUrl p; Post.linkTitle := Post.linkTitle p;
          Post.linkDescription := Post.linkDescription p;
          Post.priority := Post.priority p;
          Post.likes_count :=
            sql_case (cases likesMap batchUris) (Post.uri p) (Post.likes_count p);
          Post.repost_count :=
            sql_case (cases repostsMap batchUris) (Post.uri p) (Post.repost_count p);
          Post.comments_count :=
            sql_case (cases commentsMap batchUris) (Post.uri p) (Post.comments_count p);
          Post.quote_count := Post.quote_count p |}
     else p) <$> tbl.

Section Run.

(** [IN_CLAUSE_CHUNK_SIZE] and [batchSize]. *)
Variables (chunkSize batchSize : nat).
Variable env : Env.
Variable db : Database.

(** [execInChunks(items, fn)] *)
Definition execInChunks {T} (items : list string) (fn : list string → list T) : list T :=
  for_chunks chunkSize items (λ chunk results, results ++ fn chunk) (length items) 0%nat [].

Definition subscriberDids : list string := Subscriber.did <$> subscriber db.

Definition followsList : list string := Follows.follows <$> follows db.

(** [[...new Set([...followsList, ...newsbotDids])]] *)
Definition accountsToCheck : list string :=
  remove_dups (followsList ++ newsbotDids env).

Definition recentPosts : list Post.t :=
  filter (λ p, str_le (timeLimit env) (Post.indexedAt p) = true
               ∧ Post.author p ∈ accountsToCheck) (post db).

Definition postUris : list string := Post.uri <$> recentPosts.

Definition publisherPostUris : list string :=
  Post.uri <$> filter (λ p, Post.author p ∈ newsbotDids env) recentPosts.

Definition otherPostUris : list string :=
  Post.uri <$> filter (λ p, Post.author p ∉ newsbotDids env) recentPosts.

(** The count queries; [subscribersOnly] adds the
    [author IN (subscriberDids)] condition of the publisher variant. *)
Definition engagementCounts (ty : Z) (subscribersOnly : bool) (chunk : list string)
  : list CountRow :=
  group_count (Engagement.subjectUri <$>
    filter (λ e, Engagement.subjectUri e ∈ chunk
                 ∧ (subscribersOnly = true → Engagement.author e ∈ subscriberDids)
                 ∧ Engagement.type e = ty) (engagement db)).

Definition commentCounts (subscribersOnly : bool) (chunk : list string) : list CountRow :=
  group_count (Post.rootUri <$>
    filter (λ c, Post.rootUri c ∈ chunk
                 ∧ (subscribersOnly = true → Post.author c ∈ subscriberDids)
                 ∧ Post.rootUri c ≠ "") (post db)).

(** [xs.length > 0 ? await execInChunks(xs, q) : []] *)
Definition otherResult (q : bool → list string → list CountRow) : list CountRow :=
  if bool_decide (0 < length otherPostUris)%nat
  then execInChunks otherPostUris (q false) else [].

Definition publisherResult (q : bool → list string → list CountRow) : list CountRow :=
  if bool_decide (0 < length publisherPostUris)%nat && bool_decide (0 < length subscriberDids)%nat
  then execInChunks publisherPostUris (q true) else [].

Definition likeCountsResult : list CountRow :=
  otherResult (engagementCounts 2) ++ publisherResult (engagementCounts 2).

Definition repostCountsResult : list CountRow :=
  otherResult (engagementCounts 1) ++ publisherResult (engagementCounts 1).

Definition commentCountsResult : list CountRow :=
  otherResult commentCounts ++ publisherResult commentCounts.

Definition likesMap : gmap string Z := count_map likeCountsResult.
Definition repostsMap : gmap string Z := count_map repostCountsResult.
Definition commentsMap : gmap string Z := count_map commentCountsResult.

Definition updateEngagementWith : Database :=
  if bool_decide (length followsList = 0%nat) then db
  else if bool_decide (length postUris = 0%nat) then db
  else
    {| post := for_chunks batchSize postUris (update_batch likesMap repostsMap commentsMap)
                 (length postUris) 0%nat (post db);
       engagement := engagement db;
       follows := follows db;
       subscriber := subscriber db |}.

End Run.

Definition IN_CLAUSE_CHUNK_SIZE : nat := Z.to_nat 50000.
Definition batchSize : nat := Z.to_nat 5000.

(** [updateEngagement(db)] *)
Definition updateEngagement (env : Env) (db : Database) : Database :=
  updateEngagementWith IN_CLAUSE_CHUNK_SIZE batchSize env db.

(** *** The unchunked reference run

    The same run with every membership list sent in one query and the
    counts written by one [UPDATE] over all candidate uris. *)

Section Reference.

Variable env : Env.
Variable db : Database.

Definition otherResult_unchunked (q : bool → list string → list CountRow) : list CountRow :=
  if bool_decide (0 < length (otherPostUris env db))%nat
  then q false (otherPostUris env db) else [].

Definition publisherResult_unchunked (q : bool → list string → list CountRow) : list CountRow :=
  if bool_decide (0 < length (publisherPostUris env db))%nat
     && bool_decide (0 < length (subscriberDids db))%nat
  then q true (publisherPostUris env db) else [].

Definition likesMap_unchunked : gmap string Z :=
  count_map (otherResult_unchunked (engagementCounts db 2)
             ++ publisherResult_unchunked (engagementCounts db 2)).

Definition repostsMap_unchunked : gmap string Z :=
  count_map (otherResult_unchunked (engagementCounts db 1)
             ++ publisherResult_unchunked (engagementCounts db 1)).

Definition commentsMap_unchunked : gmap string Z :=
  count_map (otherResult_unchunked (commentCounts db)
             ++ publisherResult_unchunked (commentCounts db)).

Definition updateEngagement_unchunked : Database :=
  if bool_decide (length (followsList db) = 0%nat) then db
  else if bool_decide (length (postUris env db) = 0%nat) then db
  else
    {| post := update_batch likesMap_unchunked repostsMap_unchunked commentsMap_unchunked
                 (postUris env db) (post db);
       engagement := engagement db;
       follows := follows db;
       subscriber := subscriber db |}.

End Reference.

End Aggregator.

(** ** The retention trimmer (util/retention.ts) *)

Module Retention.

Record RetentionConfig := mkConfig {
  enabled : bool;
  postRetentionDays : Z;
  engagementRetentionDays : Z;
  deleteBatchSize : Z
}.

(** [DELETE FROM t WHERE ctid IN (SELECT ctid FROM t WHERE "indexedAt" <
    cutoff LIMIT n)]: the first [n] rows of the scan that are older than
    the cutoff go; the result is the table kept and the number of rows
    deleted. *)
Fixpoint delete_batch {A} (older : A → bool) (n : nat) (tbl : list A) : list A * Z :=
  match tbl with
  | [] => ([], 0)
  | r :: rest =>
      match n with
      | O => (tbl, 0)
      | S n' =>
          if older r
          then let '(kept, deleted) := delete_batch older n' rest in (kept, 1 + deleted)
          else let '(kept, deleted) := delete_batch older n rest in (r :: kept, deleted)
      end
  end.

(** [while (true) { res = DELETE ...; deleted = numDeleted(res); total +=
    deleted; if (deleted < batch) break }].  The store refuses a negative
    [LIMIT]. *)
Fixpoint delete_loop {A} (older : A → bool) (batch : Z) (fuel : nat)
    (tbl : list A) (total : Z) : outcome (list A * Z) :=
  match fuel with
  | O => OutOfFuel
  | S fuel' =>
      if batch <? 0 then Rejected "LIMIT must not be negative"
      else
        let '(kept, deleted) := delete_batch older (Z.to_nat batch) tbl in
        let total' := total + deleted in
        if deleted <? batch then Returned (kept, total')
        else delete_loop older batch fuel' kept total'
  end.

Section Run.

Variable cfg : RetentionConfig.
(** [isoDaysAgo]: the ISO timestamp that many days before the run. *)
Variable isoDaysAgo : Z → string.

(** ["indexedAt" < cutoff] on ISO timestamp strings. *)
Definition before (cutoff indexedAt : string) : bool := str_lt indexedAt cutoff.

Definition runRetentionOnce (fuel : nat) (db : Database) : outcome Database :=
  if negb (enabled cfg) then Returned db
  else
    let postCutoff := isoDaysAgo (postRetentionDays cfg) in
    let engagementCutoff := isoDaysAgo (engagementRetentionDays cfg) in
    match delete_loop (λ e, before engagementCutoff (Engagement.indexedAt e))
            (deleteBatchSize cfg) fuel (engagement db) 0 with
    | Rejected m => Rejected m
    | OutOfFuel => OutOfFuel
    | Returned (engagement', totalEngagementDeleted) =>
        match delete_loop (λ p, before postCutoff (Post.indexedAt p))
                (deleteBatchSize cfg) fuel (post db) 0 with
        | Rejected m => Rejected m
        | OutOfFuel => OutOfFuel
        | Returned (post', totalPostsDeleted) =>
            Returned {| post := post'; engagement := engagement';
                        follows := follows db; subscriber := subscriber db |}
        end
    end.

End Run.

End Retention.

(** ** The feed builder (algos/feed-builder.ts) *)

Module Feed.

(** A JavaScript number that holds an integer or is NaN. *)
Inductive number : Type :=
  | Int (z : Z)
  | NaN.

Definition add (a b : number) : number :=
  match a, b with
  | Int x, Int y => Int (x + y)
  | _, _ => NaN
  end.

(** [n.toString()] *)
Definition toString (n : number) : string :=
  match n with
  | Int z => NilZero.string_of_int (Z.to_int z)
  | NaN => "NaN"
  end.

(** The white space [parseInt] skips (the ASCII part of it). *)
Definition is_white_space (c : ascii) : bool :=
  bool_decide (nat_of_ascii c ∈ [9; 10; 11; 12; 13; 32]%nat).

Fixpoint skip_white_space (s : string) : string :=
  match s with
  | String c rest => if is_white_space c then skip_white_space rest else s
  | EmptyString => s
  end.

Definition digit (c : ascii) : option Z :=
  let n := nat_of_ascii c in
  if bool_decide (48 ≤ n ≤ 57)%nat then Some (Z.of_nat n - 48) else None.

(** The value of the longest prefix of decimal digits, [acc] so far. *)
Fixpoint digits (acc : option Z) (s : string) : option Z :=
  match s with
  | String c rest =>
      match digit c with
      | Some d => digits (Some (10 * default 0 acc + d)) rest
      | None => acc
      end
  | EmptyString => acc
  end.

(** [parseInt(s, 10)] *)
Definition parseInt (s : string) : number :=
  let trimmed := skip_white_space s in
  let '(sign, body) :=
    match trimmed with
    | String "-" rest => (-1, rest)
    | String "+" rest => (1, rest)
    | _ => (1, trimmed)
    end in
  match digits None body with
  | Some v => Int (sign * v)
  | None => NaN
  end.

Record QueryParams := mkParams {
  limit : Z;
  cursor : option string
}.

Record SkeletonFeedPost := mkSkeleton { post : string }.

Record AlgoOutput := mkOutput {
  out_cursor : option string;
  feed : list SkeletonFeedPost
}.

(** A query builder with the store, the time limit and the requester's
    follows fixed: from [cursorOffset] and [limit] to the rows that
    [execute()] resolves to, or nothing when the store rejects the query. *)
Definition QueryBuilder : Type := number → Z → option (list Post.t).

(** The shape of every builder of the repository: the ranked candidates
    followed by [.offset(cursorOffset).limit(limit)]; the store rejects an
    offset or limit that is NaN or negative. *)
Definition paged (ranked : list Post.t) : QueryBuilder :=
  λ cursorOffset limit,
    match cursorOffset with
    | Int off =>
        if bool_decide (0 ≤ off ∧ 0 ≤ limit)
        then Some (take (Z.to_nat limit) (drop (Z.to_nat off) ranked))
        else None
    | NaN => None
    end.

Section Merge.

Variables publisherPosts otherPosts : list Post.t.

Record MergeState := mkMerge {
  m_feed : list SkeletonFeedPost;
  publisherIndex : nat;
  otherIndex : nat
}.

(** [if (publisherIndex < publisherPosts.length) { feed.push(...); publisherIndex++ }] *)
Definition add_publisher (st : MergeState) : MergeState :=
  match publisherPosts !! publisherIndex st with
  | Some p =>
      {| m_feed := m_feed st ++ [mkSkeleton (Post.uri p)];
         publisherIndex := S (publisherIndex st);
         otherIndex := otherIndex st |}
  | None => st
  end.

(** [for (let i = 0; i < k && otherIndex < otherPosts.length; i++) { ... }] *)
Fixpoint add_others (k : nat) (st : MergeState) : MergeState :=
  match k with
  | O => st
  | S k' =>
      match otherPosts !! otherIndex st with
      | Some p =>
          add_others k'
            {| m_feed := m_feed st ++ [mkSkeleton (Post.uri p)];
               publisherIndex := publisherIndex st;
               otherIndex := S (otherIndex st) |}
      | None => st
      end
  end.

(** The [while] loop that merges in a 1:2 pattern. *)
Fixpoint merge_loop (fuel : nat) (st : MergeState) : outcome MergeState :=
  if bool_decide (publisherIndex st < length publisherPosts
                  ∨ otherIndex st < length otherPosts)%nat
  then
    match fuel with
    | O => OutOfFuel
    | S fuel' => merge_loop fuel' (add_others 2 (add_publisher st))
    end
  else Returned st.

End Merge.

(** [let cursorOffset = 0; if (params.cursor) cursorOffset = parseInt(params.cursor, 10)] *)
Definition cursorOffset (params : QueryParams) : number :=
  match cursor params with
  | Some (String _ _ as c) => parseInt c
  | _ => Int 0
  end.

(** [buildFeed].  Every iteration of the merge loop consumes a post, so
    the number of posts bounds its iterations. *)
Definition buildFeed (params : QueryParams)
    (buildPublisherQuery buildFollowsQuery : QueryBuilder) : outcome AlgoOutput :=
  let limit := limit params / 3 in
  let cursorOffset := cursorOffset params in
  match buildPublisherQuery cursorOffset limit, buildFollowsQuery cursorOffset (limit * 2) with
  | Some publisherPosts, Some otherPosts =>
      match merge_loop publisherPosts otherPosts
              (length publisherPosts + length otherPosts) (mkMerge [] 0 0) with
      | Returned st =>
          let totalPostsReturned := (length publisherPosts + length otherPosts)%nat in
          let cursor :=
            if bool_decide (0 < totalPostsReturned)%nat
            then Some (toString (add cursorOffset (Int (limit * 2))))
            else None in
          Returned {| out_cursor := cursor; feed := m_feed st |}
      | Rejected m => Rejected m
      | OutOfFuel => OutOfFuel
      end
  | _, _ => Rejected "query failed"
  end.

End Feed.

(** ** The compliance engagement export (methods/monitor.ts) *)

Module ComplianceExport.

Inductive EngagementExportType : Type := like | repost | comment | quote.

Inductive EngagementExportScope : Type :=
  | scope_union
  | scope_publisher
  | scope_subscriber
  | scope_subscriber_on_publisher.

#[global] Instance EngagementExportType_eq_dec : EqDecision EngagementExportType.
Proof. solve_decision. Defined.

#[global] Instance EngagementExportScope_eq_dec : EqDecision EngagementExportScope.
Proof. solve_decision. Defined.

Record EngagementFilters := mkFilters {
  since : string;
  until : string;
  scope : EngagementExportScope;
  limit : Z;
  types : list EngagementExportType;
  subscriberDid : option string;
  includeOtherSubscriberActivity : bool
}.

Record EngagementCursor := mkCursor {
  cur_created_at : string;
  cur_event_uri : string;
  filter_sig : string
}.

(** *** The query *)

(** A row of the [base] and [enriched] common table expressions; the
    type of a stored engagement row with an unexpected code is
    ['unknown'], rendered as [None]. *)
Record Row := mkRow {
  type : option EngagementExportType;
  event_uri : string;
  subject_uri : string;
  author_did : string;
  created_at : string;
  is_publisher_target : bool;
  is_subscriber_actor : bool
}.

(** [CASE e.type WHEN 1 THEN 'repost' WHEN 2 THEN 'like' WHEN 3 THEN
    'quote' ELSE 'unknown' END] *)
Definition type_of_code (code : Z) : option EngagementExportType :=
  if decide (code = 1) then Some repost
  else if decide (code = 2) then Some like
  else if decide (code = 3) then Some quote
  else None.

(** [CASE b.type WHEN 'like' THEN 1 WHEN 'repost' THEN 2 WHEN 'comment'
    THEN 3 WHEN 'quote' THEN 4 ELSE 0 END] *)
Definition type_rank (r : Row) : Z :=
  match type r with
  | Some like => 1
  | Some repost => 2
  | Some comment => 3
  | Some quote => 4
  | None => 0
  end.

(** The fields of [s] between occurrences of ["/"]. *)
Fixpoint fields (cur : string) (s : string) : list string :=
  match s with
  | EmptyString => [String.rev cur]
  | String c rest =>
      if Ascii.eqb c "/" then String.rev cur :: fields "" rest
      else fields (String c cur) rest
  end.

(** [split_part(s, '/', n)]: the [n]-th field, or the empty string. *)
Definition split_part (s : string) (n : nat) : string :=
  default "" (fields "" s !! pred n).

Section Query.

Variable db : Database.
(** [getPublisherDidsFromEnv()] *)
Variable publisherDids : list string.
Variable filters : EngagementFilters.

Definition in_window (createdAt : string) : bool :=
  str_le (since filters) createdAt && str_lt createdAt (until filters).

Definition publisherTarget (subject_uri : string) : bool :=
  if bool_decide (0 < length publisherDids)%nat
  then bool_decide (split_part subject_uri 3 ∈ publisherDids)
  else false.

Definition subscriberActor (author_did : string) : bool :=
  bool_decide (author_did ∈ Subscriber.did <$> subscriber db).

(** The [base] rows with the two flags of [enriched]. *)
Definition enriched : list Row :=
  ((λ e, {| type := type_of_code (Engagement.type e);
            event_uri := Engagement.uri e;
            subject_uri := Engagement.subjectUri e;
            author_did := Engagement.author e;
            created_at := Engagement.createdAt e;
            is_publisher_target := publisherTarget (Engagement.subjectUri e);
            is_subscriber_actor := subscriberActor (Engagement.author e) |})
     <$> filter (λ e, in_window (Engagement.createdAt e) = true) (engagement db))
  ++ ((λ p, {| type := Some comment;
               event_uri := Post.uri p;
               subject_uri := Post.rootUri p;
               author_did := Post.author p;
               created_at := Post.createdAt p;
               is_publisher_target := publisherTarget (Post.rootUri p);
               is_subscriber_actor := subscriberActor (Post.author p) |})
        <$> filter (λ p, Post.rootUri p ≠ "" ∧ in_window (Post.createdAt p) = true) (post db)).

Definition typeFilter (r : Row) : bool :=
  match type r with
  | Some t => bool_decide (t ∈ types filters)
  | None => false
  end.

Definition subscriberDidFilter (r : Row) : bool :=
  match subscriberDid filters with
  | Some d => bool_decide (author_did r = d)
  | None => true
  end.

Definition scopeFilter (r : Row) : bool :=
  match scope filters with
  | scope_publisher => is_publisher_target r
  | scope_subscriber => is_subscriber_actor r
  | scope_subscriber_on_publisher => is_publisher_target r && is_subscriber_actor r
  | scope_union => is_publisher_target r || is_subscriber_actor r
  end.

(** [is_subscriber_actor AND NOT is_publisher_target], the scope of the
    secondary report. *)
Definition otherScopeFilter (r : Row) : bool :=
  is_subscriber_actor r && negb (is_publisher_target r).

Definition scoped (scopeFilter : Row → bool) : list Row :=
  filter (λ r, typeFilter r && subscriberDidFilter r && scopeFilter r = true) enriched.

(** [ORDER BY event_uri, created_at DESC, type_rank DESC] *)
Definition dedupe_compare (a b : Row) : comparison :=
  match String_as_OT.compare (event_uri a) (event_uri b) with
  | Eq =>
      match String_as_OT.compare (created_at b) (created_at a) with
      | Eq => Z.compare (type_rank b) (type_rank a)
      | c => c
      end
  | c => c
  end.

Definition dedupe_order (a b : Row) : Prop := dedupe_compare a b ≠ Gt.

(** [SELECT DISTINCT ON (event_uri)]: of the ordered rows, each row
    whose [event_uri] differs from that of the row before it. *)
Fixpoint distinct_on (prev : option string) (rows : list Row) : list Row :=
  match rows with
  | [] => []
  | r :: rest =>
      if decide (prev = Some (event_uri r)) then distinct_on prev rest
      else r :: distinct_on (Some (event_uri r)) rest
  end.

Definition deduped (scopeFilter : Row → bool) : list Row :=
  distinct_on None (merge_sort dedupe_order (scoped scopeFilter)).

(** The columns of [aggregated] for one event uri. *)
Definition max_string (l : list string) : option string :=
  foldr (λ s acc, match acc with
                  | Some m => Some (if str_lt m s then s else m)
                  | None => Some s
                  end) None l.

Record EngagementExportEvent := mkEvent {
  ev_type : option EngagementExportType;
  ev_event_uri : string;
  ev_subject_uri : string;
  ev_author_did : string;
  ev_created_at : string;
  comment_root_uri : option string;
  quote_subject_uri : option string;
  publisher_target_any : bool;
  publisher_target_comment_root : bool;
  publisher_target_quote_subject : bool
}.

(** [deduped d LEFT JOIN aggregated a ON a.event_uri = d.event_uri] *)
Definition joined (scopeFilter : Row → bool) (d : Row) : EngagementExportEvent :=
  let group := filter (λ r, event_uri r = event_uri d) (scoped scopeFilter) in
  let of_type t := filter (λ r, type r = Some t) group in
  {| ev_type := type d;
     ev_event_uri := event_uri d;
     ev_subject_uri := subject_uri d;
     ev_author_did := author_did d;
     ev_created_at := created_at d;
     comment_root_uri := max_string (subject_uri <$> of_type comment);
     quote_subject_uri := max_string (subject_uri <$> of_type quote);
     publisher_target_any := existsb is_publisher_target group;
     publisher_target_comment_root := existsb is_publisher_target (of_type comment);
     publisher_target_quote_subject := existsb is_publisher_target (of_type quote) |}.

(** [(d.created_at < c.created_at OR (d.created_at = c.created_at AND
    d.event_uri < c.event_uri))], or [true] without a cursor. *)
Definition cursorFilter (c : option EngagementCursor) (d : Row) : bool :=
  match c with
  | Some c =>
      str_lt (created_at d) (cur_created_at c)
      || (bool_decide (created_at d = cur_created_at c)
          && str_lt (event_uri d) (cur_event_uri c))
  | None => true
  end.

(** [ORDER BY d.created_at DESC, d.event_uri DESC] *)
Definition page_order (a b : Row) : Prop :=
  str_lt (created_at b) (created_at a) = true
  ∨ (created_at a = created_at b ∧ str_le (event_uri b) (event_uri a) = true).

(** The statement as a whole: [... WHERE cursorFilter ORDER BY ... LIMIT
    effectiveLimit OFFSET offset]. *)
Definition select_page (scopeFilter : Row → bool) (c : option EngagementCursor)
    (effectiveLimit offset : Z) : list EngagementExportEvent :=
  joined scopeFilter
    <$> take (Z.to_nat effectiveLimit)
          (drop (Z.to_nat offset)
             (merge_sort page_order
                (filter (λ d, cursorFilter c d = true) (deduped scopeFilter)))).

End Query.

(** *** The request *)

(** A query parameter is a string, or something else (a repeated or
    nested parameter). *)
Inductive QueryValue : Type :=
  | QStr (s : string)
  | QOther.

Record Request := mkRequest {
  api_key : option string;
  q_cursor : option QueryValue;
  q_other_cursor : option QueryValue;
  q_since : option QueryValue;
  q_until : option QueryValue;
  q_scope : option QueryValue;
  q_page : option QueryValue;
  q_limit : option QueryValue;
  q_subscriber_did : option QueryValue;
  q_include_other_subscriber_activity : option QueryValue;
  q_types : option QueryValue
}.

(** A computation that may throw an [Error] with a message. *)
Inductive result (A : Type) : Type :=
  | Ok (a : A)
  | Throw (message : string).
Arguments Ok {A}.
Arguments Throw {A}.

#[global] Instance result_bind : MBind result :=
  λ A B k m, match m with
             | Ok a => k a
             | Throw e => Throw e
             end.

(** [typeof v === 'string' ? v : undefined] *)
Definition as_string (v : option QueryValue) : option string :=
  match v with
  | Some (QStr s) => Some s
  | _ => None
  end.

Definition truthy (v : option QueryValue) : bool :=
  match v with
  | None | Some (QStr EmptyString) => false
  | _ => true
  end.

Definition to_lower (c : ascii) : ascii :=
  let n := nat_of_ascii c in
  if bool_decide (65 ≤ n ≤ 90)%nat then ascii_of_nat (n + 32) else c.

(** [s.toLowerCase()] on the ASCII letters. *)
Fixpoint toLowerCase (s : string) : string :=
  match s with
  | EmptyString => EmptyString
  | String c rest => String (to_lower c) (toLowerCase rest)
  end.

(** [s.trim()] for ASCII white space. *)
Definition trim (s : string) : string :=
  String.rev (Feed.skip_white_space (String.rev (Feed.skip_white_space s))).

(** [s.split(',')] *)
Fixpoint split_comma (cur : string) (s : string) : list string :=
  match s with
  | EmptyString => [String.rev cur]
  | String c rest =>
      if Ascii.eqb c "," then String.rev cur :: split_comma "" rest
      else split_comma (String c cur) rest
  end.

Definition parseBoolParam (raw : option QueryValue) : option bool :=
  match raw with
  | Some (QStr s) =>
      if String.eqb (toLowerCase s) "true" then Some true
      else if String.eqb (toLowerCase s) "false" then Some false
      else if String.eqb s "1" then Some true
      else if String.eqb s "0" then Some false
      else None
  | _ => None
  end.

Definition parseNonNegInt (raw : option QueryValue) : option Z :=
  match raw with
  | Some (QStr (String _ _ as s)) =>
      match Feed.parseInt s with
      | Feed.Int n => if bool_decide (n < 0) then None else Some n
      | Feed.NaN => None
      end
  | _ => None
  end.

Definition parseDidParam (raw : option QueryValue) : option string :=
  match raw with
  | Some (QStr (String _ _ as s)) =>
      if negb (String.prefix "did:" s) || bool_decide (String.length s < 6)%nat
      then None else Some s
  | _ => None
  end.

Definition type_of_name (t : string) : option EngagementExportType :=
  if String.eqb t "like" then Some like
  else if String.eqb t "repost" then Some repost
  else if String.eqb t "comment" then Some comment
  else if String.eqb t "quote" then Some quote
  else None.

Definition type_name (t : EngagementExportType) : string :=
  match t with
  | like => "like"
  | repost => "repost"
  | comment => "comment"
  | quote => "quote"
  end.

(** [Array.from(new Set(xs))]: the first occurrence of each element. *)
Fixpoint uniq {A} `{EqDecision A} (seen : list A) (xs : list A) : list A :=
  match xs with
  | [] => []
  | x :: rest => if decide (x ∈ seen) then uniq seen rest else x :: uniq (x :: seen) rest
  end.

Fixpoint allowed_types (parsed : list string) : result (list EngagementExportType) :=
  match parsed with
  | [] => Ok []
  | t :: rest =>
      match type_of_name t with
      | Some ty => tys ← allowed_types rest; Ok (ty :: tys)
      | None => Throw ("types contains invalid value: " +:+ t)
      end
  end.

(** *** JSON text of the values the handler serialises *)

Definition hex_digit (n : nat) : ascii :=
  ascii_of_nat (if bool_decide (n < 10)%nat then 48 + n else 87 + n).

(** The double quote and the backslash. *)
Definition dquote : ascii := "034".
Definition backslash : ascii := "092".

(** The escape [JSON.stringify] writes for one character of a string. *)
Definition json_escape (c : ascii) : string :=
  let n := nat_of_ascii c in
  if Ascii.eqb c dquote then String backslash (String dquote "")
  else if Ascii.eqb c backslash then String backslash (String backslash "")
  else if bool_decide (n = 8)%nat then String backslash "b"
  else if bool_decide (n = 9)%nat then String backslash "t"
  else if bool_decide (n = 10)%nat then String backslash "n"
  else if bool_decide (n = 12)%nat then String backslash "f"
  else if bool_decide (n = 13)%nat then String backslash "r"
  else if bool_decide (n < 32)%nat
       then String backslash
              ("u00" +:+ String (hex_digit (n / 16)) (String (hex_digit (n mod 16)) ""))
  else String c "".

Fixpoint json_chars (s : string) : string :=
  match s with
  | EmptyString => EmptyString
  | String c rest => json_escape c +:+ json_chars rest
  end.

Definition json_string (s : string) : string :=
  String dquote (json_chars s +:+ String dquote "").

Definition json_array (items : list string) : string :=
  "[" +:+ String.concat "," items +:+ "]".

(** [{"k1":v1,"k2":v2,...}] *)
Definition json_object (members : list (string * string)) : string :=
  "{" +:+ String.concat "," ((λ m, json_string m.1 +:+ ":" +:+ m.2) <$> members) +:+ "}".

Definition scope_name (sc : EngagementExportScope) : string :=
  match sc with
  | scope_union => "union"
  | scope_publisher => "publisher"
  | scope_subscriber => "subscriber"
  | scope_subscriber_on_publisher => "subscriber_on_publisher"
  end.

(** [[...filters.types].sort()]: by name. *)
Definition name_order (a b : EngagementExportType) : Prop :=
  str_le (type_name a) (type_name b) = true.

#[global] Instance name_order_dec (a b : EngagementExportType) : Decision (name_order a b).
Proof. unfold name_order. apply _. Defined.

Definition sorted_types (tys : list EngagementExportType) : list EngagementExportType :=
  merge_sort name_order tys.

(** [JSON.stringify(normalized)] of [buildFilterSignature]. *)
Definition normalized_json (f : EngagementFilters) : string :=
  json_object
    [ ("since", json_string (since f));
      ("until", json_string (until f));
      ("scope", json_string (scope_name (scope f)));
      ("limit", NilZero.string_of_int (Z.to_int (limit f)));
      ("types", json_array (json_string ∘ type_name <$> sorted_types (types f)));
      ("subscriber_did",
       match subscriberDid f with Some d => json_string d | None => "null" end);
      ("include_other_subscriber_activity",
       if includeOtherSubscriberActivity f then "true" else "false") ].

(** [JSON.stringify(cursor)] of [encodeEngagementCursor]. *)
Definition cursor_json (c : EngagementCursor) : string :=
  json_object
    [ ("created_at", json_string (cur_created_at c));
      ("event_uri", json_string (cur_event_uri c));
      ("filter_sig", json_string (filter_sig c)) ].

(** What [JSON.parse] returns, as far as the handler looks into it: a
    member of an object is a string or some other value. *)
Inductive JsonMember : Type :=
  | MString (s : string)
  | MOther.

Inductive Json : Type :=
  | JPrimitive
  | JArray
  | JObject (members : list (string * JsonMember)).

(** [parsed.name]: the last member with that name. *)
Definition member (name : string) (j : Json) : option JsonMember :=
  match j with
  | JObject members => snd <$> head (filter (λ m, m.1 = name) (reverse members))
  | _ => None
  end.

(** [!parsed || typeof parsed !== 'object'] *)
Definition not_an_object (j : Json) : bool :=
  match j with
  | JArray | JObject _ => false
  | JPrimitive => true
  end.

(** [typeof v === 'string' ? v : ''] *)
Definition string_or_empty (v : option JsonMember) : string :=
  match v with
  | Some (MString s) => s
  | _ => ""
  end.

(** *** The handler *)

Inductive Response : Type :=
  | Unauthorized
  | BadRequest (message : string)
  | Json200 (since until : string) (scope : EngagementExportScope) (page limit : Z)
      (events : list EngagementExportEvent) (next_cursor : option string)
      (source : option string)
      (other : option (list EngagementExportEvent * option string)).

(** The handler's variables once the parameters are read, and once the
    cursors are decoded and checked. *)
Record Parameters := mkParameters {
  p_filters : EngagementFilters;
  p_page : Z;
  p_cursorRaw : option string;
  p_otherCursorRaw : option string
}.

Record Validated := mkValidated {
  v_filters : EngagementFilters;
  v_page : Z;
  v_filterSig : string;
  v_cursor : option EngagementCursor;
  v_otherCursor : option EngagementCursor;
  v_useCursor : bool;
  v_useOtherCursor : bool
}.

Section Handler.

(** [process.env.PRIORITIZE_API_KEY] and [getPublisherDidsFromEnv()]. *)
Variable PRIORITIZE_API_KEY : option string.
Variable publisherDids : list string.
(** [getDefaultSinceUntil()]: the last 24 hours. *)
Variables defaultSince defaultUntil : string.
(** [new Date(raw).toISOString()], or nothing for an invalid date. *)
Variable toISOString : string → option string.
(** [createHash('sha256').update(json).digest('hex')] *)
Variable sha256_hex : string → string.
(** [base64UrlEncode], and [JSON.parse(base64UrlDecode(raw))], which
    yields nothing when it throws. *)
Variable base64UrlEncode : string → string.
Variable parse_base64url_json : string → option Json.

Definition parseIsoOrThrow (raw : option JsonMember) (name : string) : result string :=
  match raw with
  | Some (MString (String _ _ as s)) =>
      match toISOString s with
      | Some iso => Ok iso
      | None => Throw (name +:+ " must be a valid ISO timestamp string")
      end
  | _ => Throw (name +:+ " must be a non-empty ISO timestamp string")
  end.

Definition as_member (v : option QueryValue) : option JsonMember :=
  match v with
  | Some (QStr s) => Some (MString s)
  | Some QOther => Some MOther
  | None => None
  end.

Definition buildFilterSignature (filters : EngagementFilters) : string :=
  sha256_hex (normalized_json filters).

Definition encodeEngagementCursor (c : EngagementCursor) : string :=
  base64UrlEncode (cursor_json c).

Definition decodeEngagementCursor (raw : string) : result EngagementCursor :=
  match parse_base64url_json raw with
  | None => Throw "cursor must be valid base64url JSON"
  | Some parsed =>
      if not_an_object parsed then Throw "cursor must be a JSON object"
      else
        created_at ← parseIsoOrThrow (member "created_at" parsed) "cursor.created_at";
        let event_uri := string_or_empty (member "event_uri" parsed) in
        let filter_sig := string_or_empty (member "filter_sig" parsed) in
        if String.eqb event_uri "" then Throw "cursor.event_uri must be a non-empty string"
        else if String.eqb filter_sig "" then Throw "cursor.filter_sig must be a non-empty string"
        else Ok (mkCursor created_at event_uri filter_sig)
  end.

Definition check (ok : bool) (message : string) : result unit :=
  if ok then Ok tt else Throw message.

Definition parse_scope (raw : option QueryValue) : result EngagementExportScope :=
  match raw with
  | None => Ok scope_union
  | Some (QStr s) =>
      if String.eqb s "publisher" then Ok scope_publisher
      else if String.eqb s "subscriber" then Ok scope_subscriber
      else if String.eqb s "subscriber_on_publisher" then Ok scope_subscriber_on_publisher
      else if String.eqb s "union" then Ok scope_union
      else Throw "scope must be one of: union|publisher|subscriber|subscriber_on_publisher"
  | Some QOther =>
      Throw "scope must be one of: union|publisher|subscriber|subscriber_on_publisher"
  end.

Definition parse_types (raw : option QueryValue) : result (list EngagementExportType) :=
  match as_string raw with
  | None | Some EmptyString => Ok [like; repost; comment; quote]
  | Some typesRaw =>
      let parsed :=
        filter (λ t, (0 < String.length t)%nat)
          ((λ t, toLowerCase (trim t)) <$> split_comma "" typesRaw) in
      allowed ← allowed_types parsed;
      let types := uniq [] allowed in
      _ ← check (negb (bool_decide (length types = 0%nat)))
            "types must include at least one type";
      Ok types
  end.

(** The first part of the [try] block: every parameter is read and
    checked, up to the filters. *)
Definition read_parameters (req : Request) : result Parameters :=
  let cursorRaw := as_string (q_cursor req) in
  _ ← check (negb (bool_decide (cursorRaw = Some ""))) "cursor must be a non-empty string";
  let otherCursorRaw := as_string (q_other_cursor req) in
  _ ← check (negb (bool_decide (otherCursorRaw = Some "")))
        "other_cursor must be a non-empty string";
  let useCursor := bool_decide (is_Some cursorRaw) in
  let otherCursorProvided := bool_decide (is_Some otherCursorRaw) in
  since ← (if truthy (q_since req) then parseIsoOrThrow (as_member (q_since req)) "since"
           else Ok defaultSince);
  until ← (if truthy (q_until req) then parseIsoOrThrow (as_member (q_until req)) "until"
           else Ok defaultUntil);
  _ ← check (str_lt since until) "since must be earlier than until";
  scope ← parse_scope (q_scope req);
  page ← (if negb useCursor then
            match q_page req with
            | None => Ok 0
            | pageRaw =>
                match parseNonNegInt pageRaw with
                | Some parsed => Ok parsed
                | None => Throw "page must be a non-negative integer"
                end
            end
          else Ok 0);
  limit ← match q_limit req with
          | None => Ok 1000
          | limitRaw =>
              match parseNonNegInt limitRaw with
              | Some parsed => Ok parsed
              | None => Throw "limit must be a non-negative integer"
              end
          end;
  _ ← check (negb (limit <=? 0)) "limit must be a positive integer";
  _ ← check (negb (5000 <? limit)) "limit must be <= 5000";
  let subscriberDid := parseDidParam (q_subscriber_did req) in
  _ ← check (negb (bool_decide (is_Some (q_subscriber_did req))
                   && negb (bool_decide (is_Some subscriberDid))))
        "subscriber_did must be a DID (did:...)";
  let includeRaw := parseBoolParam (q_include_other_subscriber_activity req) in
  _ ← check (negb (bool_decide (is_Some (q_include_other_subscriber_activity req))
                   && negb (bool_decide (is_Some includeRaw))))
        "include_other_subscriber_activity must be true|false|1|0";
  let includeOtherSubscriberActivity := default false includeRaw in
  _ ← check (negb (otherCursorProvided && negb includeOtherSubscriberActivity))
        "other_cursor requires include_other_subscriber_activity=true";
  types ← parse_types (q_types req);
  Ok {| p_filters :=
          {| since := since; until := until; scope := scope; limit := limit; types := types;
             subscriberDid := subscriberDid;
             includeOtherSubscriberActivity := includeOtherSubscriberActivity |};
        p_page := page;
        p_cursorRaw := cursorRaw;
        p_otherCursorRaw := otherCursorRaw |}.

(** [cursor = decodeEngagementCursor(raw); if (cursor.filter_sig !==
    filterSig) throw new Error(mismatch)] *)
Definition bound_cursor (raw : option string) (filterSig mismatch : string)
  : result (option EngagementCursor) :=
  match raw with
  | Some (String _ _ as raw) =>
      cursor ← decodeEngagementCursor raw;
      _ ← check (String.eqb (filter_sig cursor) filterSig) mismatch;
      Ok (Some cursor)
  | _ => Ok None
  end.

(** The whole [try] block: the filters are signed and both cursors are
    decoded and bound to the signature. *)
Definition validate (req : Request) : result Validated :=
  p ← read_parameters req;
  let filters := p_filters p in
  let filterSig := buildFilterSignature filters in
  let useCursor := bool_decide (is_Some (p_cursorRaw p)) in
  let otherCursorProvided := bool_decide (is_Some (p_otherCursorRaw p)) in
  cursor ← bound_cursor (p_cursorRaw p) filterSig "cursor does not match request filters";
  otherCursor ← bound_cursor (p_otherCursorRaw p) filterSig
                  "other_cursor does not match request filters";
  let useOtherCursor :=
    includeOtherSubscriberActivity filters && (otherCursorProvided || useCursor) in
  Ok {| v_filters := filters; v_page := p_page p; v_filterSig := filterSig;
        v_cursor := cursor; v_otherCursor := otherCursor;
        v_useCursor := useCursor; v_useOtherCursor := useOtherCursor |}.

(** [rows.length > limit]: the page is cut to [limit] rows and a cursor
    is issued for its last row. *)
Definition cut_page (limit : Z) (filterSig : string) (rows : list EngagementExportEvent)
  : list EngagementExportEvent * option string :=
  if bool_decide (limit < Z.of_nat (length rows)) then
    let events := take (Z.to_nat limit) rows in
    (events,
     (λ last, encodeEngagementCursor
                {| cur_created_at := ev_created_at last;
                   cur_event_uri := ev_event_uri last;
                   filter_sig := filterSig |}) <$> last events)
  else (rows, None).

Definition handleEngagementExport (req : Request) (db : Database)
    (responseSource : option string) : Response :=
  match api_key req with
  | Some (String _ _ as apiKey) =>
      if negb (bool_decide (Some apiKey = PRIORITIZE_API_KEY)) then Unauthorized
      else
        match validate req with
        | Throw message => BadRequest message
        | Ok v =>
            let filters := v_filters v in
            let limit := limit filters in
            let offset := if v_useCursor v then 0 else v_page v * limit in
            let effectiveLimit := limit + 1 in
            let cursor := if v_useCursor v then v_cursor v else None in
            let otherCursorForFilter :=
              if v_useOtherCursor v then
                match v_otherCursor v with Some c => Some c | None => v_cursor v end
              else None in
            let otherOffset := if v_useOtherCursor v then 0 else offset in
            let rows :=
              select_page db publisherDids filters (scopeFilter filters)
                cursor effectiveLimit offset in
            let '(events, nextCursor) := cut_page limit (v_filterSig v) rows in
            let other :=
              if includeOtherSubscriberActivity filters
                 && (bool_decide (scope filters = scope_publisher)
                     || bool_decide (scope filters = scope_subscriber_on_publisher))
              then
                Some (cut_page limit (v_filterSig v)
                        (select_page db publisherDids filters otherScopeFilter
                           otherCursorForFilter effectiveLimit otherOffset))
              else None in
            Json200 (since filters) (until filters) (scope filters) (v_page v) limit
              events nextCursor responseSource other
        end
  | _ => Unauthorized
  end.

End Handler.

End ComplianceExport.

(** ** The process environment (util/ingestion-scope.ts, util/retention.ts) *)

Module ProcessEnv.

(** [process.env]: the variables in the order [Object.keys] lists them. *)
Definition t : Type := list (string * string).

(** [process.env[key]] *)
Fixpoint get (env : t) (key : string) : option string :=
  match env with
  | [] => None
  | (k, v) :: rest => if String.eqb k key then Some v else get rest key
  end.

(** [Object.keys(process.env)] *)
Definition keys (env : t) : list string := fst <$> env.

Definition startsWith (p s : string) : bool := String.prefix p s.

Definition endsWith (suffix s : string) : bool :=
  String.prefix (String.rev suffix) (String.rev s).

(** [getBoolEnv]: the default for an unset or empty variable, otherwise
    whether the value reads [true] in any letter case. *)
Definition getBoolEnv (env : t) (key : string) (defaultValue : bool) : bool :=
  match get env key with
  | None | Some EmptyString => defaultValue
  | Some raw => String.eqb (ComplianceExport.toLowerCase raw) "true"
  end.

(** [getIntEnv]: the default for an unset or empty variable and for a
    value [parseInt] makes nothing of. *)
Definition getIntEnv (env : t) (key : string) (defaultValue : Z) : Z :=
  match get env key with
  | None | Some EmptyString => defaultValue
  | Some raw =>
      match Feed.parseInt raw with
      | Feed.Int n => n
      | Feed.NaN => defaultValue
      end
  end.

(** [getPublisherDidsFromEnv], and [getNewsbotDids] of the aggregator:
    the non-empty values of the variables named [NEWSBOT_..._DID]. *)
Definition getPublisherDidsFromEnv (env : t) : list string :=
  keys env ≫= λ key,
    if startsWith "NEWSBOT_" key && endsWith "_DID" key then
      match get env key with
      | Some (String _ _ as did) => [did]
      | _ => []
      end
    else [].

End ProcessEnv.

(** ** The cached ingestion scope (util/ingestion-scope.ts) *)

Module ScopeCache.
Import ProcessEnv Ingestion.

Definition scopedIngestionEnabled (env : ProcessEnv.t) : bool :=
  getBoolEnv env "FEEDGEN_SCOPED_INGESTION" false.

Definition trackSubscriberActivityEnabled (env : ProcessEnv.t) : bool :=
  getBoolEnv env "FEEDGEN_TRACK_SUBSCRIBER_ACTIVITY" false.

Definition restrictPublisherEngagementToSubscribersEnabled (env : ProcessEnv.t) : bool :=
  getBoolEnv env "FEEDGEN_PUBLISHER_ENGAGEMENT_SUBSCRIBER_ONLY" false.

Definition allowlistRefreshMs (env : ProcessEnv.t) : Z :=
  getIntEnv env "FEEDGEN_ALLOWLIST_REFRESH_MS" 60000.

(** The switches [handleEvent] reads. *)
Definition flags (env : ProcessEnv.t) : Flags :=
  {| FEEDGEN_SCOPED_INGESTION := scopedIngestionEnabled env;
     FEEDGEN_TRACK_SUBSCRIBER_ACTIVITY := trackSubscriberActivityEnabled env;
     FEEDGEN_PUBLISHER_ENGAGEMENT_SUBSCRIBER_ONLY :=
       restrictPublisherEngagementToSubscribersEnabled env |}.

Record CachedScope := mkCached {
  loadedAtMs : Z;
  cached_scope : IngestionScope
}.

(** The refresh: the scope read from the environment and the store. *)
Definition refresh (env : ProcessEnv.t) (db : Database) : IngestionScope :=
  let publisherDids : gset string := list_to_set (getPublisherDidsFromEnv env) in
  let allowlistedAuthorDids : gset string :=
    list_to_set (Follows.follows <$> follows db) ∪ publisherDids in
  let subscriberDids : gset string :=
    if trackSubscriberActivityEnabled env
       || restrictPublisherEngagementToSubscribersEnabled env
    then list_to_set (Subscriber.did <$> subscriber db)
    else ∅ in
  {| allowlistedAuthorDids := allowlistedAuthorDids;
     publisherDids := publisherDids;
     subscriberDids := subscriberDids |}.

(** [getIngestionScope(db)] for calls that do not overlap (no refresh is
    in flight when a call starts): [now] is the clock at the start of the
    call and [loadedAt] the clock when a refresh ends; the result is the
    scope and the new value of [cached]. *)
Definition getIngestionScope (env : ProcessEnv.t) (now loadedAt : Z) (db : Database)
    (cached : option CachedScope) : IngestionScope * option CachedScope :=
  let refreshMs := allowlistRefreshMs env in
  let reload :=
    let scope := refresh env db in
    (scope, Some {| loadedAtMs := loadedAt; cached_scope := scope |}) in
  match cached with
  | Some c =>
      if bool_decide (now - loadedAtMs c < refreshMs) then (cached_scope c, cached)
      else reload
  | None => reload
  end.

(** A call of [getIngestionScope]: the two clock readings and the store
    at that time. *)
Record Call := mkCall { call_now : Z; call_loadedAt : Z; call_db : Database }.

(** The scopes a sequence of calls is served, from the cache [cached]. *)
Fixpoint served (env : ProcessEnv.t) (calls : list Call) (cached : option CachedScope)
  : list IngestionScope :=
  match calls with
  | [] => []
  | c :: rest =>
      let '(scope, cached') :=
        getIngestionScope env (call_now c) (call_loadedAt c) (call_db c) cached in
      scope :: served env rest cached'
  end.

End ScopeCache.

Module RetentionConfig.
Import ProcessEnv Retention.

(** [getRetentionConfig] *)
Definition getRetentionConfig (env : ProcessEnv.t) : RetentionConfig :=
  {| enabled := getBoolEnv env "FEEDGEN_RETENTION_ENABLED" false;
     postRetentionDays := getIntEnv env "FEEDGEN_RETENTION_POST_DAYS" 14;
     engagementRetentionDays := getIntEnv env "FEEDGEN_RETENTION_ENGAGEMENT_DAYS" 14;
     deleteBatchSize := getIntEnv env "FEEDGEN_RETENTION_DELETE_BATCH_SIZE" 50000 |}.

End RetentionConfig.

(** ** The feed algorithms (algos/feed-ir-1.ts, algos/feed-uk-2.ts) *)

Module Algos.

(** [ORDER BY "indexedAt" DESC, cid DESC] *)
Definition recency_compare (a b : Post.t) : comparison :=
  match String_as_OT.compare (Post.indexedAt b) (Post.indexedAt a) with
  | Eq => String_as_OT.compare (Post.cid b) (Post.cid a)
  | c => c
  end.

(** [ORDER BY coalesce(priority, 0) DESC, "indexedAt" DESC, cid DESC] *)
Definition priority_compare (a b : Post.t) : comparison :=
  match Z.compare (default 0 (Post.priority b)) (default 0 (Post.priority a)) with
  | Eq => recency_compare a b
  | c => c
  end.

(** [a] may come before [b] in the result. *)
Definition ordered_by (cmp : Post.t → Post.t → comparison) (a b : Post.t) : Prop :=
  cmp a b ≠ Gt.

(** [process.env[key] || ''] *)
Definition env_or_empty (env : ProcessEnv.t) (key : string) : string :=
  default "" (ProcessEnv.get env key).

Section Builders.

(** The [ORDER BY] clause of the feed. *)
Variable cmp : Post.t → Post.t → comparison.
Variable db : Database.
(** [process.env.NEWSBOT_xx_DID || ''] *)
Variable publisherDid : string.
Variable timeLimit : string.
Variable requesterFollows : list string.

(** [.where('author', '=', publisherDid).where('post.indexedAt', '>=', timeLimit)] *)
Definition publisherCandidates : list Post.t :=
  filter (λ p, Post.author p = publisherDid
               ∧ str_le timeLimit (Post.indexedAt p) = true) (post db).

(** [.where('author', '!=', publisherDid).where('post.indexedAt', '>=', timeLimit)
    .where((eb) => eb('author', 'in', requesterFollows))] *)
Definition followsCandidates : list Post.t :=
  filter (λ p, Post.author p ≠ publisherDid
               ∧ str_le timeLimit (Post.indexedAt p) = true
               ∧ Post.author p ∈ requesterFollows) (post db).

Definition buildPublisherPostsQuery : Feed.QueryBuilder :=
  Feed.paged (merge_sort (ordered_by cmp) publisherCandidates).

(** The store rejects the query of a requester who follows nobody: the
    list of [author in (...)] is empty. *)
Definition buildFollowsPostsQuery : Feed.QueryBuilder :=
  λ cursorOffset limit,
    match requesterFollows with
    | [] => None
    | _ :: _ => Feed.paged (merge_sort (ordered_by cmp) followsCandidates) cursorOffset limit
    end.

End Builders.

(** The handler of [newsflow-ir-1]: chronological. *)
Definition feedIR1 (env : ProcessEnv.t) (db : Database) (timeLimit : string)
    (requesterFollows : list string) (params : Feed.QueryParams) : outcome Feed.AlgoOutput :=
  let publisherDid := env_or_empty env "NEWSBOT_IR_DID" in
  Feed.buildFeed params
    (buildPublisherPostsQuery recency_compare db publisherDid timeLimit)
    (buildFollowsPostsQuery recency_compare db publisherDid timeLimit requesterFollows).

(** The handler of [newsflow-uk-2]: priority first. *)
Definition feedUK2 (env : ProcessEnv.t) (db : Database) (timeLimit : string)
    (requesterFollows : list string) (params : Feed.QueryParams) : outcome Feed.AlgoOutput :=
  let publisherDid := env_or_empty env "NEWSBOT_UK_DID" in
  Feed.buildFeed params
    (buildPublisherPostsQuery priority_compare db publisherDid timeLimit)
    (buildFollowsPostsQuery priority_compare db publisherDid timeLimit requesterFollows).

End Algos.

(** ** The study endpoints: rate limiting (methods/study.ts) *)

Module Study.
Import ProcessEnv.

Record RateLimitState := mkState {
  count : Z;
  resetAt : Z
}.

Record RateLimitConfig := mkRateConfig {
  max : Z;
  windowMs : Z
}.

(** The two variables of the module: [complianceSummaryRateLimit] and
    [lastComplianceSummaryRateLimitPruneMs]. *)
Record Limiter := mkLimiter {
  complianceSummaryRateLimit : gmap string RateLimitState;
  lastComplianceSummaryRateLimitPruneMs : Z
}.

Definition initial : Limiter :=
  {| complianceSummaryRateLimit := ∅; lastComplianceSummaryRateLimitPruneMs := 0 |}.

Definition parseIntOrUndefined (raw : option string) : option Z :=
  match raw with
  | None | Some EmptyString => None
  | Some raw =>
      match Feed.parseInt raw with
      | Feed.Int n => Some n
      | Feed.NaN => None
      end
  end.

(** [typeof raw === 'number' && raw > 0 ? raw : fallback] *)
Definition positive_or (raw : option Z) (fallback : Z) : Z :=
  match raw with
  | Some n => if 0 <? n then n else fallback
  | None => fallback
  end.

Definition getComplianceSummaryRateLimitConfig (env : ProcessEnv.t) : option RateLimitConfig :=
  let maxRaw := parseIntOrUndefined (get env "STUDY_COMPLIANCE_RATE_LIMIT_MAX") in
  if bool_decide (maxRaw = Some 0) then None
  else
    let max := positive_or maxRaw 60 in
    let windowSecondsRaw :=
      parseIntOrUndefined (get env "STUDY_COMPLIANCE_RATE_LIMIT_WINDOW_SECONDS") in
    let windowSeconds := positive_or windowSecondsRaw 60 in
    Some {| max := max; windowMs := windowSeconds * 1000 |}.

(** [parseTtlSeconds]: four days unless a positive number is set. *)
Definition parseTtlSeconds (env : ProcessEnv.t) : Z :=
  positive_or (parseIntOrUndefined (get env "STUDY_JWT_TTL_SECONDS")) (60 * 60 * 24 * 4).

Definition pruneComplianceSummaryRateLimit (nowMs windowMs : Z) (st : Limiter) : Limiter :=
  if bool_decide (nowMs - lastComplianceSummaryRateLimitPruneMs st < 10 * 60 * 1000) then st
  else
    {| complianceSummaryRateLimit :=
         filter (λ kv, ¬ (resetAt kv.2 + windowMs < nowMs)) (complianceSummaryRateLimit st);
       lastComplianceSummaryRateLimitPruneMs := nowMs |}.

Inductive RateLimitResult : Type :=
  | RateOk
  | RateLimited (retryAfterSeconds : Z).

(** [Math.ceil(ms / 1000)] *)
Definition ceil_seconds (ms : Z) : Z := - (- ms / 1000).

(** [checkComplianceSummaryRateLimit(key, config)] when [Date.now()] is
    [nowMs]: the answer and the new value of the two variables. *)
Definition checkComplianceSummaryRateLimit (key : string) (config : RateLimitConfig)
    (nowMs : Z) (st : Limiter) : RateLimitResult * Limiter :=
  let st := pruneComplianceSummaryRateLimit nowMs (windowMs config) st in
  let table := complianceSummaryRateLimit st in
  let store (s : RateLimitState) :=
    {| complianceSummaryRateLimit := <[ key := s ]> table;
       lastComplianceSummaryRateLimitPruneMs := lastComplianceSummaryRateLimitPruneMs st |} in
  let fresh := store {| count := 1; resetAt := nowMs + windowMs config |} in
  match table !! key with
  | None => (RateOk, fresh)
  | Some state =>
      if bool_decide (resetAt state ≤ nowMs) then (RateOk, fresh)
      else if bool_decide (max config ≤ count state) then
        (RateLimited (Z.max 1 (ceil_seconds (resetAt state - nowMs))), st)
      else (RateOk, store {| count := count state + 1; resetAt := resetAt state |})
  end.

(** The answers to calls for [key] at the clock values [times], in
    turn. *)
Fixpoint answers (key : string) (config : RateLimitConfig) (times : list Z) (st : Limiter)
  : list RateLimitResult :=
  match times with
  | [] => []
  | nowMs :: rest =>
      let '(r, st') := checkComplianceSummaryRateLimit key config nowMs st in
      r :: answers key config rest st'
  end.

End Study.

(** ** The cursor encoding (methods/monitor.ts) *)

Module Base64Url.

(** [s.replace(/x/g, y)] for single characters [x] and [y]. *)
Fixpoint replace_all (x y : ascii) (s : string) : string :=
  match s with
  | EmptyString => EmptyString
  | String c rest => String (if Ascii.eqb c x then y else c) (replace_all x y rest)
  end.

(** [s.replace(/=+$/g, '')]: the text without its trailing [=] signs. *)
Fixpoint strip_padding (s : string) : string :=
  match s with
  | EmptyString => EmptyString
  | String c rest =>
      let rest' := strip_padding rest in
      if Ascii.eqb c "=" && String.eqb rest' "" then EmptyString else String c rest'
  end.

(** [while (base64.length % 4 !== 0) base64 += '=']; the loop body runs
    at most three times. *)
Fixpoint pad (fuel : nat) (base64 : string) : string :=
  if (Z.of_nat (String.length base64) mod 4 =? 0) then base64
  else
    match fuel with
    | O => base64
    | S fuel' => pad fuel' (base64 +:+ "=")
    end.

Section Buffer.

(** [Buffer.from(input, 'utf8').toString('base64')] and
    [Buffer.from(base64, 'base64').toString('utf8')]. *)
Variable toBase64 : string → string.
Variable fromBase64 : string → string.

Definition base64UrlEncode (input : string) : string :=
  strip_padding (replace_all "/" "_" (replace_all "+" "-" (toBase64 input))).

Definition base64UrlDecode (input : string) : string :=
  let base64 := replace_all "_" "/" (replace_all "-" "+" input) in
  fromBase64 (pad 3 base64).

End Buffer.

End Base64Url.

(** ** Priority updates by uri (methods/prioritize-posts.ts) *)

Module Prioritize.

(** [update.priority] as the handler and the store tell it apart: an
    integer, a number that is no integer, or no number at all. *)
Inductive Priority : Type :=
  | PInt (z : Z)
  | PFraction
  | PNotNumber.

(** An element of the JSON array in the request body: [null], or a value
    whose [uri] member is a string or something else, with its
    [priority] member. *)
Inductive Entry : Type :=
  | ENull
  | EValue (uri : option string) (priority : Priority).

Record PriorityUpdate := mkUpdate {
  pu_uri : string;
  pu_priority : Priority
}.

(** The answers: 401, 400 (no valid update), 500, and the two reports;
    the report of an update that found no post has no [updatedUris]. *)
Inductive Response : Type :=
  | Unauthorized
  | NoValidUpdates
  | InternalServerError
  | TestMode (totalRequested postsFound postsNotFound invalidUpdates : Z)
      (foundUpdates : list PriorityUpdate) (notFoundUris : list string)
      (invalidEntries : list Entry)
  | UpdateMode (postsUpdated postsNotFound invalidUpdates : Z)
      (updatedUris : option (list string)) (notFoundUris : list string)
      (invalidEntries : list Entry).

(** The validation loop; nothing when reading a member of [null]
    throws. *)
Fixpoint validate (updates : list Entry) (valid : list PriorityUpdate) (invalid : list Entry)
  : option (list PriorityUpdate * list Entry) :=
  match updates with
  | [] => Some (valid, invalid)
  | ENull :: _ => None
  | EValue (Some (String _ _ as uri)) (PInt _ as priority) :: rest
  | EValue (Some (String _ _ as uri)) (PFraction as priority) :: rest =>
      validate rest (valid ++ [mkUpdate uri priority]) invalid
  | update :: rest => validate rest valid (invalid ++ [update])
  end.

(** [test === true || String(test).toLowerCase() === 'true'], where
    [test] defaults to [true]. *)
Definition test_mode (test : option string) : bool :=
  match test with
  | None => true
  | Some t => String.eqb (ComplianceExport.toLowerCase t) "true"
  end.

(** The store refuses a text parameter with a NUL character. *)
Fixpoint has_nul (s : string) : bool :=
  match s with
  | EmptyString => false
  | String c rest => Ascii.eqb c "000" || has_nul rest
  end.

(** The [integer] column takes the 32-bit integers. *)
Definition storable (priority : Priority) : option Z :=
  match priority with
  | PInt z => if bool_decide (-2147483648 ≤ z ≤ 2147483647) then Some z else None
  | _ => None
  end.

(** [UPDATE post SET priority = z WHERE uri = u] *)
Definition set_priority (u : string) (z : Z) (tbl : list Post.t) : list Post.t :=
  (λ p,
     if bool_decide (Post.uri p = u) then
       {| Post.uri := Post.uri p; Post.cid := Post.cid p;
          Post.indexedAt := Post.indexedAt p; Post.createdAt := Post.createdAt p;
          Post.author := Post.author p; Post.text := Post.text p;
          Post.rootUri := Post.rootUri p; Post.rootCid := Post.rootCid p;
          Post.linkUrl := Post.linkUrl p; Post.linkTitle := Post.linkTitle p;
          Post.linkDescription := Post.linkDescription p;
          Post.priority := Some z;
          Post.likes_count := Post.likes_count p;
          Post.repost_count := Post.repost_count p;
          Post.comments_count := Post.comments_count p;
          Post.quote_count := Post.quote_count p |}
     else p) <$> tbl.

(** The transaction: one [UPDATE] per found update, in order; nothing
    when the store refuses a value, and the transaction is rolled
    back. *)
Fixpoint transaction (updates : list PriorityUpdate) (tbl : list Post.t)
  : option (list Post.t) :=
  match updates with
  | [] => Some tbl
  | update :: rest =>
      match storable (pu_priority update) with
      | Some z => transaction rest (set_priority (pu_uri update) z tbl)
      | None => None
      end
  end.

Section Endpoint.

Variable PRIORITIZE_API_KEY : option string.

(** [POST /api/prioritize] with a JSON array as body
    ([handleJsonPriorityUpdates]); [apiKey] is the [api-key] header and
    [test] the query parameter, given once or not at all; the body
    stays within what one [in] list of the store holds. *)
Definition handleJsonPriorityUpdates (apiKey test : option string) (body : list Entry)
    (db : Database) : Response * Database :=
  match apiKey with
  | Some (String _ _ as key) =>
      if negb (bool_decide (Some key = PRIORITIZE_API_KEY)) then (Unauthorized, db)
      else
        match validate body [] [] with
        | None => (InternalServerError, db)
        | Some (validUpdates, invalidUpdates) =>
            if bool_decide (length validUpdates = 0%nat) then (NoValidUpdates, db)
            else
              let uris := pu_uri <$> validUpdates in
              if existsb has_nul uris then (InternalServerError, db) else
              let existingUris : gset string :=
                list_to_set (Post.uri <$> filter (λ p, Post.uri p ∈ uris) (post db)) in
              let foundUpdates :=
                filter (λ update, pu_uri update ∈ existingUris) validUpdates in
              let notFoundUris :=
                pu_uri <$> filter (λ update, pu_uri update ∉ existingUris) validUpdates in
              if test_mode test then
                (TestMode (Z.of_nat (length validUpdates)) (Z.of_nat (length foundUpdates))
                   (Z.of_nat (length notFoundUris)) (Z.of_nat (length invalidUpdates))
                   foundUpdates notFoundUris invalidUpdates,
                 db)
              else if bool_decide (length foundUpdates = 0%nat) then
                (UpdateMode 0 (Z.of_nat (length notFoundUris))
                   (Z.of_nat (length invalidUpdates)) None notFoundUris invalidUpdates,
                 db)
              else
                match transaction foundUpdates (post db) with
                | None => (InternalServerError, db)
                | Some post' =>
                    (UpdateMode (Z.of_nat (length foundUpdates))
                       (Z.of_nat (length notFoundUris)) (Z.of_nat (length invalidUpdates))
                       (Some (pu_uri <$> foundUpdates)) notFoundUris invalidUpdates,
                     {| post := post'; engagement := engagement db;
                        follows := follows db; subscriber := subscriber db |})
                end
        end
  | _ => (Unauthorized, db)
  end.

End Endpoint.

End Prioritize.

(** * Properties *)

(** ** AT-URI helpers *)

Module AtUriFacts.
Import AtUri.

Lemma span_non_slash_rest (s a r : string) :
  span_non_slash s = (a, r) → r = "" ∨ ∃ r', r = String "/" r'.
Proof.
  revert a r. induction s as [|c s IH]; intros a r; simpl.
  - intros [= <- <-]. by left.
  - destruct (Ascii.eqb_spec c "/") as [->|_].
    + intros [= <- <-]. right. by eexists.
    + destruct (span_non_slash s) as [a' r']. intros [= <- <-]. by eapply IH.
Qed.

Lemma span_non_slash_app (d rest : string) :
  (∀ i, String.get i d ≠ Some "/"%char) →
  span_non_slash (d +:+ String "/" rest) = (d, String "/" rest).
Proof.
  induction d as [|c d IH]; intros Hd; simpl.
  - done.
  - destruct (Ascii.eqb_spec c "/") as [->|_].
    + by specialize (Hd 0%nat).
    + rewrite IH; [done|]. intros i. apply (Hd (S i)).
Qed.

Lemma match_authority_nonempty (u d r : string) :
  match_authority u = Some (d, r) → d ≠ "".
Proof.
  unfold match_authority. destruct (strip_prefix "at://" u) as [s|]; [|done].
  destruct (span_non_slash s) as [[|c a] [|c' b]]; naive_solver.
Qed.

Lemma didFromAtUri_match (u : string) :
  didFromAtUri (Some u) = fst <$> match_authority u.
Proof. by destruct u. Qed.

(** The capture group [[^/]+] never matches the empty string. *)
Lemma didFromAtUri_nonempty (uri : option string) (d : string) :
  didFromAtUri uri = Some d → d ≠ "".
Proof.
  destruct uri as [u|]; [|done]. rewrite didFromAtUri_match.
  destruct (match_authority u) as [[a r]|] eqn:E; [|done].
  intros [= <-]. by eapply match_authority_nonempty.
Qed.


Lemma isPostUri_nonempty (u : string) : isPostUri u = true → u ≠ "".
Proof. by intros H ->. Qed.

(** The uri of a record of repository [d]. *)
Lemma didFromAtUri_at (d rest : string) :
  d ≠ "" → (∀ i, String.get i d ≠ Some "/"%char) →
  didFromAtUri (Some ("at://" +:+ (d +:+ String "/" rest))) = Some d.
Proof.
  intros Hne Hd. rewrite didFromAtUri_match. unfold match_authority.
  change (strip_prefix "at://" ("at://" +:+ (d +:+ String "/" rest)))
    with (Some (d +:+ String "/" rest)).
  cbv beta iota. rewrite span_non_slash_app by done. by destruct d.
Qed.

End AtUriFacts.

(** ** Scope gating and the event projector *)

Module IngestionFacts.
Import AtUri AtUriFacts Ingestion.

Lemma has_true (s : gset string) (x : string) : has s x = true ↔ x ∈ s.
Proof. unfold has. by rewrite bool_decide_eq_true. Qed.

Lemma has_did_true (s : gset string) (d : option string) :
  has_did s d = true ↔ ∃ x, d = Some x ∧ x ≠ "" ∧ x ∈ s.
Proof.
  destruct d as [[|c x]|]; simpl; rewrite ?has_true; naive_solver.
Qed.

Lemma has_did_from_uri (s : gset string) (uri : option string) :
  has_did s (didFromAtUri uri) = true ↔ ∃ x, didFromAtUri uri = Some x ∧ x ∈ s.
Proof.
  rewrite has_did_true. split.
  - intros (x & ? & _ & ?). eauto.
  - intros (x & Hx & ?). exists x. eauto using didFromAtUri_nonempty.
Qed.

Lemma scope_scoped (flags : Flags) (sc : IngestionScope) :
  FEEDGEN_SCOPED_INGESTION flags = true → scope flags sc = Some sc.
Proof. unfold scope, scopedIngestion. by intros ->. Qed.


Lemma not_a_post_false (subjectUri : option string) :
  not_a_post subjectUri = false ↔ ∃ u, subjectUri = Some u ∧ isPostUri u = true.
Proof.
  destruct subjectUri as [[|c u]|]; simpl.
  - naive_solver.
  - rewrite negb_false_iff. naive_solver.
  - naive_solver.
Qed.


(** The gate of [shouldStorePost], disjunct by disjunct. *)
Lemma shouldStorePost_iff (flags : Flags) (sc : IngestionScope) (create : CreateOp PostRecord) :
  shouldStorePost flags sc create = true ↔
    FEEDGEN_SCOPED_INGESTION flags = false
    ∨ c_author create ∈ allowlistedAuthorDids sc
    ∨ (∃ d, (didFromAtUri (ref_uri <$> (reply (c_record create) ≫= root)) = Some d
             ∨ didFromAtUri (ref_uri <$> (reply (c_record create) ≫= parent)) = Some d)
            ∧ d ∈ allowlistedAuthorDids sc)
    ∨ (FEEDGEN_TRACK_SUBSCRIBER_ACTIVITY flags = true ∧ c_author create ∈ subscriberDids sc).
Proof.
  unfold shouldStorePost, scope, trackSubscriberActivity, scopedIngestion.
  destruct (FEEDGEN_SCOPED_INGESTION flags) eqn:Hsc; cbn [negb andb orb]; [|by intuition].
  destruct (has _ (c_author create)) eqn:Ha.
  { apply has_true in Ha. by intuition. }
  destruct (has_did _ (didFromAtUri (ref_uri <$> (_ ≫= root)))) eqn:Hroot.
  { apply has_did_from_uri in Hroot as (d & ? & ?). split; [|done]. eauto 10. }
  destruct (has_did _ (didFromAtUri (ref_uri <$> (_ ≫= parent)))) eqn:Hparent.
  { apply has_did_from_uri in Hparent as (d & ? & ?). split; [|done]. eauto 10. }
  assert (Hnot : ∀ s x, has s x = false → x ∉ s).
  { intros s x H Hin. apply has_true in Hin. congruence. }
  assert (Hnot' : ∀ s uri d, has_did s (didFromAtUri uri) = false →
                  didFromAtUri uri = Some d → d ∉ s).
  { intros s uri d H Hd Hin.
    assert (has_did s (didFromAtUri uri) = true) by (apply has_did_from_uri; eauto).
    congruence. }
  destruct (FEEDGEN_TRACK_SUBSCRIBER_ACTIVITY flags) eqn:Ht; cbn [andb].
  - destruct (has (subscriberDids sc) (c_author create)) eqn:Hs.
    + apply has_true in Hs. by intuition.
    + split; [done|]. intros H. exfalso.
      destruct H as [|[H|[(d & [Hd|Hd] & H)|[_ H]]]]; [done|..].
      * by apply (Hnot _ _ Ha).
      * by apply (Hnot' _ _ _ Hroot Hd).
      * by apply (Hnot' _ _ _ Hparent Hd).
      * by apply (Hnot _ _ Hs).
  - split; [done|]. intros H. exfalso.
    destruct H as [|[H|[(d & [Hd|Hd] & H)|[? _]]]]; [done|..|done].
    + by apply (Hnot _ _ Ha).
    + by apply (Hnot' _ _ _ Hroot Hd).
    + by apply (Hnot' _ _ _ Hparent Hd).
Qed.


Definition alice : string := "did:plc:alice".
Definition bob : string := "did:plc:bob".

Definition scoped_flags : Flags :=
  {| FEEDGEN_SCOPED_INGESTION := true;
     FEEDGEN_TRACK_SUBSCRIBER_ACTIVITY := false;
     FEEDGEN_PUBLISHER_ENGAGEMENT_SUBSCRIBER_ONLY := false |}.

Definition alice_only : IngestionScope :=
  {| allowlistedAuthorDids := {[ alice ]}; publisherDids := ∅; subscriberDids := ∅ |}.

Definition alice_post : StrongRef :=
  mkRef "at://did:plc:alice/app.bsky.feed.post/3kabc" "bafy-a".

Definition bob_reply : CreateOp PostRecord :=
  mkCreate "at://did:plc:bob/app.bsky.feed.post/3kdef" "bafy-b" bob
    (mkPostRecord "2026-02-01T00:00:00.000Z" (Some "hello")
       (Some (mkReply (Some alice_post) (Some alice_post))) None).



(** *** Deletes and inserts against a table *)

Section Tables.
Context {A : Type} (key : A → string).




End Tables.


Lemma filter_all {A} (P : A → Prop) `{∀ x, Decision (P x)} (l : list A) :
  (∀ x, x ∈ l → P x) → filter P l = l.
Proof.
  induction l as [|x l IH]; intros Hl; [done|].
  rewrite filter_cons_True by (apply Hl; left). f_equal. apply IH.
  intros y Hy. apply Hl. by right.
Qed.






Definition quote_uri : string := "at://did:plc:bob/app.bsky.feed.post/3kquote".

Definition stored_quote : Engagement.t :=
  Engagement.mk quote_uri "bafy-q" "at://did:plc:alice/app.bsky.feed.post/3kabc" "bafy-a" 3
    "2026-02-01T00:00:05.000Z" "2026-02-01T00:00:04.000Z" bob.

Definition stored_like : Engagement.t :=
  Engagement.mk "at://did:plc:carol/app.bsky.feed.like/3klike" "bafy-l"
    "at://did:plc:alice/app.bsky.feed.post/3kabc" "bafy-a" 2
    "2026-02-01T00:00:07.000Z" "2026-02-01T00:00:06.000Z" "did:plc:carol".

Definition store_with_quote : Database :=
  {| post := []; engagement := [stored_quote; stored_like]; follows := []; subscriber := [] |}.

Definition delete_quote_post : OperationsByType :=
  {| posts := mkOperations [] [mkDelete quote_uri];
     reposts := mkOperations [] [];
     likes := mkOperations [] [] |}.

(** Deleting the quote post removes its quote row and nothing else. *)
Example delete_quote_post_effect :
  engagement (handleEvent scoped_flags alice_only "2026-02-02T00:00:00.000Z"
                delete_quote_post store_with_quote)
  = [stored_like].
Proof. vm_compute. reflexivity. Qed.


End IngestionFacts.

(** ** The engagement aggregator *)

Module AggregatorFacts.
Import Aggregator.

(** *** The chunk loop *)

Lemma slice_take_drop {A} (i size : nat) (items : list A) :
  slice i (i + size) items = take size (drop i items).
Proof. unfold slice. by replace (i + size - i)%nat with size by lia. Qed.

Lemma elem_of_drop_split {A} (size i : nat) (items : list A) (x : A) :
  x ∈ drop i items ↔ x ∈ take size (drop i items) ∨ x ∈ drop (i + size) items.
Proof.
  rewrite <- (take_drop size (drop i items)) at 1.
  by rewrite elem_of_app, drop_drop.
Qed.

(** A query is local when each of its rows is due to one element of the
    membership list, whatever else the list holds. *)
Definition local_query {T} (q : list string → list T) (due : string → T → Prop) : Prop :=
  ∀ chunk x, x ∈ q chunk ↔ ∃ k, k ∈ chunk ∧ due k x.

Section Chunks.
Context {T : Type} (size : nat) (items : list string).
Context (q : list string → list T) (due : string → T → Prop).
Hypothesis size_pos : (0 < size)%nat.
Hypothesis q_local : local_query q due.

Lemma for_chunks_results (fuel i : nat) (acc : list T) (x : T) :
  (length items - i ≤ fuel)%nat →
  x ∈ for_chunks size items (λ chunk results, results ++ q chunk) fuel i acc
  ↔ x ∈ acc ∨ ∃ k, k ∈ drop i items ∧ due k x.
Proof.
  revert i acc. induction fuel as [|fuel IH]; intros i acc Hfuel; simpl.
  - rewrite drop_ge by lia. set_solver.
  - case_bool_decide as Hi.
    + rewrite IH by lia. rewrite elem_of_app, slice_take_drop, (q_local _ x).
      setoid_rewrite (elem_of_drop_split size i items). naive_solver.
    + rewrite drop_ge by lia. set_solver.
Qed.

(** With a positive chunk size the chunked execution returns the rows
    of the single query over all items, up to order and repetition. *)
Lemma execInChunks_elem_of (x : T) :
  x ∈ execInChunks size items q ↔ x ∈ q items.
Proof.
  unfold execInChunks. rewrite for_chunks_results by lia.
  rewrite (q_local items x). simpl. set_solver.
Qed.

End Chunks.

(** *** The count map *)

Lemma count_map_snoc (l : list CountRow) (r : CountRow) :
  count_map (l ++ [r]) = <[ uri r := count r ]> (count_map l).
Proof. unfold count_map. by rewrite foldl_app. Qed.

Lemma count_map_app_lookup (l1 l2 : list CountRow) (k : string) :
  count_map (l1 ++ l2) !! k = union_with (λ v _, Some v) (count_map l2 !! k) (count_map l1 !! k).
Proof.
  induction l2 as [|r l2 IH] using rev_ind.
  - rewrite app_nil_r. unfold count_map at 2. simpl. rewrite lookup_empty.
    by destruct (count_map l1 !! k).
  - rewrite app_assoc, !count_map_snoc.
    destruct (decide (uri r = k)) as [->|Hne].
    + rewrite !lookup_insert_eq. by destruct (count_map l1 !! k).
    + by rewrite !lookup_insert_ne.
Qed.

(** Rows are functional when the uri determines the count. *)
Definition functional (l : list CountRow) : Prop :=
  ∀ r r', r ∈ l → r' ∈ l → uri r = uri r' → count r = count r'.

Lemma count_map_lookup (l : list CountRow) (k : string) (v : Z) :
  functional l → count_map l !! k = Some v ↔ mkCount k v ∈ l.
Proof.
  induction l as [|r l IH] using rev_ind; intros Hf.
  - unfold count_map. simpl. rewrite lookup_empty. set_solver.
  - rewrite count_map_snoc.
    assert (functional l) as Hl by (intros a b ? ?; apply Hf; set_solver).
    destruct (decide (uri r = k)) as [<-|Hne].
    + rewrite lookup_insert_eq. split.
      * intros [= <-]. destruct r. set_solver.
      * intros Hin. f_equal. symmetry.
        apply (Hf (mkCount (uri r) v) r); [done|set_solver|done].
    + rewrite lookup_insert_ne by done. rewrite IH by done.
      rewrite elem_of_app, list_elem_of_singleton. split; [by left|].
      intros [?|<-]; [done|]. by destruct Hne.
Qed.

Lemma count_map_ext (l1 l2 : list CountRow) :
  functional l1 → (∀ r, r ∈ l1 ↔ r ∈ l2) → count_map l1 = count_map l2.
Proof.
  intros Hf Heq.
  assert (functional l2) as Hf2.
  { intros a b Ha Hb. apply Hf; by apply Heq. }
  apply map_eq. intros k. apply option_eq. intros v.
  by rewrite !count_map_lookup, Heq.
Qed.

(** *** The count queries *)

Lemma group_count_elem (keys : list string) (r : CountRow) :
  r ∈ group_count keys
  ↔ uri r ∈ keys ∧ count r = Z.of_nat (length (filter (λ k', k' = uri r) keys)).
Proof.
  unfold group_count. rewrite list_elem_of_fmap. setoid_rewrite elem_of_remove_dups.
  split.
  - by intros (k & -> & Hk).
  - intros [Hk Hc]. exists (uri r). split; [|done]. destruct r. simpl in *. by subst.
Qed.

Section GroupBy.
Context {A : Type} (g : A → string) (Q : A → Prop) `{∀ a, Decision (Q a)}.

(** The number of rows with key [k] that satisfy [Q]. *)
Definition tally (rows : list A) (k : string) : Z :=
  Z.of_nat (length (filter (λ a, g a = k ∧ Q a) rows)).

Lemma tally_pos (rows : list A) (k : string) :
  0 < tally rows k ↔ ∃ a, a ∈ rows ∧ g a = k ∧ Q a.
Proof.
  unfold tally. induction rows as [|a rows IH].
  - simpl. set_solver by lia.
  - rewrite filter_cons. case_decide as Ha.
    + split; [|simpl; lia]. intros _. exists a. set_solver.
    + rewrite IH. set_solver.
Qed.

Lemma length_filter_key (chunk : list string) (rows : list A) (k : string) :
  k ∈ chunk →
  length (filter (λ k', k' = k) (g <$> filter (λ a, g a ∈ chunk ∧ Q a) rows))
  = length (filter (λ a, g a = k ∧ Q a) rows).
Proof.
  intros Hk. induction rows as [|a rows IH]; [done|].
  rewrite (filter_cons (λ a, g a ∈ chunk ∧ Q a)), (filter_cons (λ a, g a = k ∧ Q a)).
  destruct (decide (g a ∈ chunk ∧ Q a)) as [[Hin HQ]|Hn].
  - rewrite fmap_cons, filter_cons.
    destruct (decide (g a = k)) as [Hg|Hg].
    + rewrite decide_True by done. simpl. by rewrite IH.
    + rewrite decide_False by tauto. done.
  - rewrite decide_False; [done|]. intros [<- HQ]. tauto.
Qed.

Lemma group_by_local (rows : list A) :
  local_query (λ chunk, group_count (g <$> filter (λ a, g a ∈ chunk ∧ Q a) rows))
    (λ k r, uri r = k ∧ count r = tally rows k ∧ 0 < tally rows k).
Proof.
  intros chunk r. rewrite group_count_elem, list_elem_of_fmap.
  setoid_rewrite list_elem_of_filter. split.
  - intros [(a & Hu & (Hin & HQ) & Ha) Hc]. exists (uri r). rewrite Hu at 1.
    rewrite length_filter_key in Hc by (by rewrite Hu).
    repeat split; [done|done|]. apply tally_pos. eauto.
  - intros (k & Hk & <- & Hc & Hpos). apply tally_pos in Hpos as (a & Ha & Hg & HQ).
    split.
    + exists a. rewrite Hg. eauto.
    + by rewrite length_filter_key.
Qed.

Lemma local_functional (q : list string → list CountRow) (f : string → Z) (items : list string) :
  local_query q (λ k r, uri r = k ∧ count r = f k ∧ 0 < f k) → functional (q items).
Proof.
  intros Hq r r' Hr Hr' Hu.
  apply Hq in Hr as (k & _ & <- & -> & _). apply Hq in Hr' as (k' & _ & <- & -> & _).
  by rewrite Hu.
Qed.

End GroupBy.

(** The counts the aggregator attributes to a uri: all matching rows,
    or only those authored by a subscriber. *)
Definition engagementTally (db : Database) (ty : Z) (subscribersOnly : bool) : string → Z :=
  tally Engagement.subjectUri
    (λ e, (subscribersOnly = true → Engagement.author e ∈ subscriberDids db)
          ∧ Engagement.type e = ty) (engagement db).

Definition commentTally (db : Database) (subscribersOnly : bool) : string → Z :=
  tally Post.rootUri
    (λ c, (subscribersOnly = true → Post.author c ∈ subscriberDids db)
          ∧ Post.rootUri c ≠ "") (post db).

Lemma engagementCounts_local db ty so :
  local_query (engagementCounts db ty so)
    (λ k r, uri r = k ∧ count r = engagementTally db ty so k ∧ 0 < engagementTally db ty so k).
Proof. apply (group_by_local Engagement.subjectUri). Qed.

Lemma commentCounts_local db so :
  local_query (commentCounts db so)
    (λ k r, uri r = k ∧ count r = commentTally db so k ∧ 0 < commentTally db so k).
Proof. apply (group_by_local Post.rootUri). Qed.

(** *** Chunked and unchunked count maps agree *)

Section Maps.
Variables (chunkSize : nat) (env : Env) (db : Database).
Hypothesis chunkSize_pos : (0 < chunkSize)%nat.
Variable q : bool → list string → list CountRow.
Variable f : bool → string → Z.
Hypothesis q_local :
  ∀ so, local_query (q so) (λ k r, uri r = k ∧ count r = f so k ∧ 0 < f so k).

Lemma otherResult_map :
  count_map (otherResult chunkSize env db q) = count_map (otherResult_unchunked env db q).
Proof.
  unfold otherResult, otherResult_unchunked. case_bool_decide; [|done].
  symmetry. apply count_map_ext.
  - by eapply local_functional.
  - intros r. symmetry. by eapply execInChunks_elem_of.
Qed.

Lemma publisherResult_map :
  count_map (publisherResult chunkSize env db q)
  = count_map (publisherResult_unchunked env db q).
Proof.
  unfold publisherResult, publisherResult_unchunked.
  destruct (_ && _); [|done].
  symmetry. apply count_map_ext.
  - by eapply local_functional.
  - intros r. symmetry. by eapply execInChunks_elem_of.
Qed.

Lemma result_map :
  count_map (otherResult chunkSize env db q ++ publisherResult chunkSize env db q)
  = count_map (otherResult_unchunked env db q ++ publisherResult_unchunked env db q).
Proof.
  apply map_eq. intros k.
  by rewrite !count_map_app_lookup, otherResult_map, publisherResult_map.
Qed.

End Maps.

Lemma likesMap_unchunked_eq chunkSize env db :
  (0 < chunkSize)%nat → likesMap chunkSize env db = likesMap_unchunked env db.
Proof. intros. eapply result_map; [done|]. apply engagementCounts_local. Qed.

Lemma repostsMap_unchunked_eq chunkSize env db :
  (0 < chunkSize)%nat → repostsMap chunkSize env db = repostsMap_unchunked env db.
Proof. intros. eapply result_map; [done|]. apply engagementCounts_local. Qed.

Lemma commentsMap_unchunked_eq chunkSize env db :
  (0 < chunkSize)%nat → commentsMap chunkSize env db = commentsMap_unchunked env db.
Proof. intros. eapply result_map; [done|]. apply commentCounts_local. Qed.

(** *** The update batches *)

Lemma sql_case_cases (m : gmap string Z) (batchUris : list string) (u : string) old :
  u ∈ batchUris → sql_case (cases m batchUris) u old = Some (default 0 (m !! u)).
Proof.
  induction batchUris as [|w ws IH]; intros Hu; [by apply not_elem_of_nil in Hu|].
  simpl. destruct (String.eqb_spec u w) as [->|Hne]; [done|].
  apply IH. set_solver.
Qed.

Section Update.
Variables likesMap repostsMap commentsMap : gmap string Z.

(** The row an update leaves for a post whose uri is in the batch. *)
Definition recount (p : Post.t) : Post.t :=
  {| Post.uri := Post.uri p; Post.cid := Post.cid p;
     Post.indexedAt := Post.indexedAt p; Post.createdAt := Post.createdAt p;
     Post.author := Post.author p; Post.text := Post.text p;
     Post.rootUri := Post.rootUri p; Post.rootCid := Post.rootCid p;
     Post.linkUrl := Post.linkUrl p; Post.linkTitle := Post.linkTitle p;
     Post.linkDescription := Post.linkDescription p;
     Post.priority := Post.priority p;
     Post.likes_count := Some (default 0 (likesMap !! Post.uri p));
     Post.repost_count := Some (default 0 (repostsMap !! Post.uri p));
     Post.comments_count := Some (default 0 (commentsMap !! Post.uri p));
     Post.quote_count := Post.quote_count p |}.

Definition recount_in (uris : list string) (p : Post.t) : Post.t :=
  if bool_decide (Post.uri p ∈ uris) then recount p else p.

Lemma update_batch_spec (batchUris : list string) (tbl : list Post.t) :
  update_batch likesMap repostsMap commentsMap batchUris tbl = recount_in batchUris <$> tbl.
Proof.
  unfold update_batch, recount_in. apply list_fmap_ext. intros _ p _.
  case_bool_decide; [|done]. unfold recount. by rewrite !sql_case_cases.
Qed.

Lemma recount_in_app (b1 b2 : list string) (p : Post.t) :
  recount_in b2 (recount_in b1 p) = recount_in (b1 ++ b2) p.
Proof.
  unfold recount_in.
  destruct (bool_decide_reflect (Post.uri p ∈ b1)) as [H1|H1].
  - rewrite (bool_decide_eq_true_2 (Post.uri p ∈ b1 ++ b2)) by set_solver.
    simpl. by case_bool_decide.
  - destruct (bool_decide_reflect (Post.uri p ∈ b2)) as [H2|H2].
    + by rewrite bool_decide_eq_true_2 by set_solver.
    + by rewrite bool_decide_eq_false_2 by set_solver.
Qed.

Lemma update_batch_nil (tbl : list Post.t) :
  update_batch likesMap repostsMap commentsMap [] tbl = tbl.
Proof.
  rewrite update_batch_spec. rewrite <- (list_fmap_id tbl) at 2.
  apply list_fmap_ext. intros _ p _. unfold recount_in.
  by rewrite bool_decide_eq_false_2 by set_solver.
Qed.

Lemma update_batch_app (b1 b2 : list string) (tbl : list Post.t) :
  update_batch likesMap repostsMap commentsMap b2
    (update_batch likesMap repostsMap commentsMap b1 tbl)
  = update_batch likesMap repostsMap commentsMap (b1 ++ b2) tbl.
Proof.
  rewrite !update_batch_spec, <- list_fmap_compose.
  apply list_fmap_ext. intros _ p _. apply recount_in_app.
Qed.

(** With a positive batch size the batches together do what one update
    over the remaining uris does. *)
Lemma for_chunks_update (size : nat) (uris : list string) (fuel i : nat) (tbl : list Post.t) :
  (0 < size)%nat → (length uris - i ≤ fuel)%nat →
  for_chunks size uris (update_batch likesMap repostsMap commentsMap) fuel i tbl
  = update_batch likesMap repostsMap commentsMap (drop i uris) tbl.
Proof.
  intros Hsize. revert i tbl. induction fuel as [|fuel IH]; intros i tbl Hfuel; simpl.
  - by rewrite drop_ge, update_batch_nil by lia.
  - case_bool_decide.
    + rewrite IH, slice_take_drop, update_batch_app by lia.
      by rewrite <- drop_drop, take_drop.
    + by rewrite drop_ge, update_batch_nil by lia.
Qed.

End Update.

(** The run with any positive chunk and batch sizes is the unchunked
    reference run. *)
Lemma updateEngagementWith_unchunked (chunkSize batch : nat) (env : Env) (db : Database) :
  (0 < chunkSize)%nat → (0 < batch)%nat →
  updateEngagementWith chunkSize batch env db = updateEngagement_unchunked env db.
Proof.
  intros Hc Hb. unfold updateEngagementWith, updateEngagement_unchunked.
  repeat case_bool_decide; try done.
  rewrite for_chunks_update by (done || lia). simpl.
  by rewrite likesMap_unchunked_eq, repostsMap_unchunked_eq, commentsMap_unchunked_eq.
Qed.

Lemma chunk_sizes_pos : (0 < IN_CLAUSE_CHUNK_SIZE)%nat ∧ (0 < batchSize)%nat.
Proof. unfold IN_CLAUSE_CHUNK_SIZE, batchSize. lia. Qed.

(** C7.  With the chunk sizes of the source (50,000 uris per count
    query, 5,000 per [UPDATE]) the three count maps and the stored rows
    are those of the unchunked reference run, however long the candidate
    list is. *)
Theorem updateEngagement_chunking_equivalence (env : Env) (db : Database) :
  likesMap IN_CLAUSE_CHUNK_SIZE env db = likesMap_unchunked env db
  ∧ repostsMap IN_CLAUSE_CHUNK_SIZE env db = repostsMap_unchunked env db
  ∧ commentsMap IN_CLAUSE_CHUNK_SIZE env db = commentsMap_unchunked env db
  ∧ updateEngagement env db = updateEngagement_unchunked env db.
Proof.
  destruct chunk_sizes_pos as [Hc Hb]. repeat split.
  - by apply likesMap_unchunked_eq.
  - by apply repostsMap_unchunked_eq.
  - by apply commentsMap_unchunked_eq.
  - by apply updateEngagementWith_unchunked.
Qed.

(** *** What a run stores *)

Lemma NoDup_fmap_eq {A B} (g : A → B) (l : list A) (x y : A) :
  NoDup (g <$> l) → x ∈ l → y ∈ l → g x = g y → x = y.
Proof.
  induction l as [|a l IH]; intros Hnd Hx Hy Hg; [by apply not_elem_of_nil in Hx|].
  rewrite fmap_cons in Hnd. apply NoDup_cons in Hnd as [Ha Hnd].
  apply elem_of_cons in Hx as [->|Hx]; apply elem_of_cons in Hy as [->|Hy]; try done.
  - destruct Ha. rewrite Hg. by apply list_elem_of_fmap_2.
  - destruct Ha. rewrite <- Hg. by apply list_elem_of_fmap_2.
  - by apply IH.
Qed.



Section Stored.
Variables (env : Env) (db : Database).
Hypothesis uri_key : NoDup (Post.uri <$> post db).






Variable q : bool → list string → list CountRow.
Variable f : bool → string → Z.
Hypothesis q_local :
  ∀ so, local_query (q so) (λ k r, uri r = k ∧ count r = f so k ∧ 0 < f so k).
Hypothesis f_nonneg : ∀ so k, 0 ≤ f so k.
Hypothesis f_no_subscribers : ∀ k, subscriberDids db = [] → f true k = 0.


End Stored.




(** No run writes [quote_count], and none adds, drops or reorders
    post rows. *)
Lemma updateEngagement_quote_count (env : Env) (db : Database) :
  Post.quote_count <$> post (updateEngagement env db) = Post.quote_count <$> post db.
Proof.
  destruct chunk_sizes_pos as [Hcs Hbs].
  unfold updateEngagement. rewrite updateEngagementWith_unchunked by done.
  unfold updateEngagement_unchunked. repeat case_bool_decide; try done.
  cbn [post]. rewrite update_batch_spec, <- list_fmap_compose.
  apply list_fmap_ext. intros _ p _. simpl. unfold recount_in. by case_bool_decide.
Qed.

(** *** More candidates than a chunk holds *)

Definition numbered_post (n : string) : Post.t :=
  Post.mk ("at://did:plc:friend/app.bsky.feed.post/" +:+ n) "bafy" "2026-02-02T10:00:00.000Z"
    "2026-02-02T10:00:00.000Z" "did:plc:friend" "" "" "" "" "" "" None None (Some 9) None None.

Definition like_on (n k : string) : Engagement.t :=
  Engagement.mk ("at://did:plc:fan/app.bsky.feed.like/" +:+ n +:+ "-" +:+ k) "bafy"
    ("at://did:plc:friend/app.bsky.feed.post/" +:+ n) "bafy" 2
    "2026-02-02T11:00:00.000Z" "2026-02-02T11:00:00.000Z" "did:plc:fan".

Definition five_posts : Database :=
  {| post := numbered_post <$> ["1"; "2"; "3"; "4"; "5"];
     engagement := [like_on "1" "a"; like_on "3" "a"; like_on "3" "b"; like_on "5" "a";
                    like_on "5" "b"; like_on "5" "c"];
     follows := [Follows.mk "did:plc:reader" "did:plc:friend"];
     subscriber := [] |}.

Definition window_env : Env :=
  {| newsbotDids := []; timeLimit := "2026-02-01T00:00:00.000Z" |}.

(** Five candidates in chunks of two and batches of two: every post
    gets its count, as in the unchunked run. *)
Example chunks_of_two :
  updateEngagementWith 2 2 window_env five_posts = updateEngagement_unchunked window_env five_posts
  ∧ Post.likes_count <$> post (updateEngagementWith 2 2 window_env five_posts)
    = [Some 1; Some 0; Some 2; Some 0; Some 3].
Proof. split; vm_compute; reflexivity. Qed.

(** *** A store on which the four-count reading fails *)









End AggregatorFacts.

(** ** The retention trimmer *)

Module RetentionFacts.
Import Retention.

Section Batches.
Context {A : Type} (older : A → bool).

(** The rows older than the cutoff, and their number. *)
Definition stale (tbl : list A) : nat := length (filter (λ r, older r = true) tbl).

(** The rows at or after the cutoff. *)
Definition fresh (tbl : list A) : list A := filter (λ r, older r = false) tbl.

Lemma stale_cons (r : A) (tbl : list A) :
  stale (r :: tbl) = if older r then S (stale tbl) else stale tbl.
Proof. unfold stale. rewrite filter_cons. by destruct (older r). Qed.

Lemma fresh_cons (r : A) (tbl : list A) :
  fresh (r :: tbl) = if older r then fresh tbl else r :: fresh tbl.
Proof. unfold fresh. rewrite filter_cons. by destruct (older r). Qed.

Lemma fresh_all (tbl : list A) : stale tbl = 0%nat → fresh tbl = tbl.
Proof.
  induction tbl as [|r tbl IH]; [done|]. rewrite stale_cons, fresh_cons.
  destruct (older r); [done|]. intros H. by rewrite IH.
Qed.

(** A batch deletes as many stale rows as the limit allows. *)
Lemma delete_batch_deleted (n : nat) (tbl : list A) :
  (delete_batch older n tbl).2 = Z.of_nat (min n (stale tbl)).
Proof.
  revert n. induction tbl as [|r tbl IH]; intros n; simpl.
  - by rewrite Nat.min_0_r.
  - rewrite stale_cons. destruct n as [|n]; [done|]. destruct (older r).
    + specialize (IH n). destruct (delete_batch older n tbl). simpl in *. lia.
    + specialize (IH (S n)). by destruct (delete_batch older (S n) tbl).
Qed.

(** A batch deletes no fresh row, and keeps the scan order. *)
Lemma delete_batch_fresh (n : nat) (tbl : list A) :
  fresh (delete_batch older n tbl).1 = fresh tbl.
Proof.
  revert n. induction tbl as [|r tbl IH]; intros n; simpl; [done|].
  destruct n as [|n]; [done|]. rewrite (fresh_cons r tbl). destruct (older r) eqn:Hr.
  - specialize (IH n). by destruct (delete_batch older n tbl).
  - specialize (IH (S n)). destruct (delete_batch older (S n) tbl). simpl in *.
    by rewrite fresh_cons, Hr, IH.
Qed.

Lemma delete_batch_stale (n : nat) (tbl : list A) :
  stale (delete_batch older n tbl).1 = (stale tbl - n)%nat.
Proof.
  revert n. induction tbl as [|r tbl IH]; intros n; [done|].
  destruct n as [|n]; [by rewrite Nat.sub_0_r|]. simpl.
  rewrite (stale_cons r tbl). destruct (older r) eqn:Hr.
  - specialize (IH n). destruct (delete_batch older n tbl). simpl in *. lia.
  - specialize (IH (S n)). destruct (delete_batch older (S n) tbl). simpl in *.
    by rewrite stale_cons, Hr, IH.
Qed.

Lemma delete_batch_length (n : nat) (tbl : list A) :
  Z.of_nat (length (delete_batch older n tbl).1) + (delete_batch older n tbl).2
  = Z.of_nat (length tbl).
Proof.
  revert n. induction tbl as [|r tbl IH]; intros n; simpl; [done|].
  destruct n as [|n]; [simpl; lia|]. destruct (older r).
  - specialize (IH n). destruct (delete_batch older n tbl). simpl in *. lia.
  - specialize (IH (S n)). destruct (delete_batch older (S n) tbl). simpl in *. lia.
Qed.

(** A batch that is not full leaves exactly the fresh rows. *)
Lemma delete_batch_last (n : nat) (tbl : list A) :
  (stale tbl ≤ n)%nat → (delete_batch older n tbl).1 = fresh tbl.
Proof.
  intros Hn. rewrite <- (delete_batch_fresh n tbl). symmetry. apply fresh_all.
  rewrite delete_batch_stale. lia.
Qed.

Lemma div_step (c n : nat) : (0 < n)%nat → (n ≤ c)%nat → (c / n = S ((c - n) / n))%nat.
Proof.
  intros Hn Hc. replace c with ((c - n) + 1 * n)%nat at 1 by lia.
  rewrite Nat.div_add by lia. lia.
Qed.

(** The loop ends after [stale / batch + 1] batches, and not before; it
    then leaves exactly the fresh rows and has counted every stale row. *)
Lemma delete_loop_spec (batch : Z) (fuel : nat) (tbl : list A) (total : Z) :
  0 < batch →
  delete_loop older batch fuel tbl total
  = if bool_decide (fuel ≤ stale tbl / Z.to_nat batch)%nat then OutOfFuel
    else Returned (fresh tbl, total + Z.of_nat (stale tbl)).
Proof.
  intros Hb. revert tbl total.
  induction fuel as [|fuel IH]; intros tbl total; cbn [delete_loop].
  - by rewrite bool_decide_eq_true_2 by lia.
  - destruct (Z.ltb_spec batch 0) as [?|_]; [lia|].
    pose proof (delete_batch_deleted (Z.to_nat batch) tbl) as Hd.
    pose proof (delete_batch_stale (Z.to_nat batch) tbl) as Hs.
    pose proof (delete_batch_fresh (Z.to_nat batch) tbl) as Hf.
    pose proof (delete_batch_last (Z.to_nat batch) tbl) as Hl.
    destruct (delete_batch older (Z.to_nat batch) tbl) as [kept deleted]. simpl in *.
    subst deleted.
    destruct (Z.ltb_spec (Z.of_nat (min (Z.to_nat batch) (stale tbl))) batch) as [Hlt|Hge].
    + rewrite Nat.div_small by lia.
      rewrite bool_decide_eq_false_2 by lia. rewrite Hl by lia.
      do 2 f_equal. lia.
    + rewrite IH, Hs, Hf. rewrite (div_step (stale tbl) (Z.to_nat batch)) by lia.
      case_bool_decide; case_bool_decide; try lia; [done|].
      do 2 f_equal. lia.
Qed.

(** With a batch size of zero no batch deletes anything and the loop
    never ends; a negative batch size is refused by the store. *)
Lemma delete_loop_zero (fuel : nat) (tbl : list A) (total : Z) :
  delete_loop older 0 fuel tbl total = OutOfFuel.
Proof.
  revert tbl total. induction fuel as [|fuel IH]; intros tbl total; [done|].
  cbn [delete_loop]. change (Z.to_nat 0) with O. change (0 <? 0) with false. cbv iota.
  pose proof (delete_batch_deleted 0 tbl) as Hd.
  destruct (delete_batch older 0 tbl) as [kept deleted]. cbn [snd] in Hd. subst deleted.
  change (Z.of_nat (0 `min` stale tbl) <? 0) with false. cbv iota.
  apply IH.
Qed.

End Batches.

Section Run.
Variables (cfg : RetentionConfig) (isoDaysAgo : Z → string).

Definition engagementOlder (e : Engagement.t) : bool :=
  before (isoDaysAgo (engagementRetentionDays cfg)) (Engagement.indexedAt e).

Definition postOlder (p : Post.t) : bool :=
  before (isoDaysAgo (postRetentionDays cfg)) (Post.indexedAt p).

(** The store once every row older than its cutoff is gone. *)
Definition trimmed (db : Database) : Database :=
  {| post := fresh postOlder (post db);
     engagement := fresh engagementOlder (engagement db);
     follows := follows db;
     subscriber := subscriber db |}.


End Run.

Definition two_per_batch : RetentionConfig :=
  {| enabled := true; postRetentionDays := 14; engagementRetentionDays := 14;
     deleteBatchSize := 2 |}.

Definition fortnight_ago (days : Z) : string := "2026-02-01T00:00:00.000Z".

Definition like_at (n indexedAt : string) : Engagement.t :=
  Engagement.mk ("at://did:plc:x/app.bsky.feed.like/" +:+ n) "bafy" "at://did:plc:y/app.bsky.feed.post/1"
    "bafy" 2 indexedAt indexedAt "did:plc:x".

Definition aged_store : Database :=
  {| post := [];
     engagement :=
       [ like_at "1" "2026-01-10T00:00:00.000Z";
         like_at "2" "2026-02-03T00:00:00.000Z";
         like_at "3" "2026-01-11T00:00:00.000Z";
         like_at "4" "2026-01-12T00:00:00.000Z";
         like_at "5" "2026-02-01T00:00:00.000Z" ];
     follows := []; subscriber := [] |}.


Example runRetentionOnce_one_batch_short :
  runRetentionOnce two_per_batch fortnight_ago 1 aged_store = OutOfFuel.
Proof. vm_compute. reflexivity. Qed.

End RetentionFacts.

(** ** The feed builder *)

Module FeedFacts.
Import Feed.

(** One publisher post, then two network posts, for as long as both
    lists last; then the rest of the list that is left. *)
Fixpoint interleave {A} (ps os : list A) : list A :=
  match ps with
  | [] => os
  | p :: ps' =>
      match os with
      | o1 :: o2 :: os' => p :: o1 :: o2 :: interleave ps' os'
      | [o1] => p :: o1 :: ps'
      | [] => p :: ps'
      end
  end.

Definition skeleton (p : Post.t) : SkeletonFeedPost := mkSkeleton (Post.uri p).

Section Merge.
Variables publisherPosts otherPosts : list Post.t.

Lemma interleave_nil_r {A} (ps : list A) : interleave ps [] = ps.
Proof. by destruct ps. Qed.

Lemma merge_loop_spec (fuel : nat) (st : MergeState) :
  (length publisherPosts - publisherIndex st + (length otherPosts - otherIndex st) ≤ fuel)%nat →
  ∃ st',
    merge_loop publisherPosts otherPosts fuel st = Returned st'
    ∧ m_feed st'
      = m_feed st ++ (skeleton <$> interleave (drop (publisherIndex st) publisherPosts)
                                     (drop (otherIndex st) otherPosts)).
Proof.
  revert st. induction fuel as [|fuel IH]; intros [f i j] Hfuel; cbn [merge_loop];
    cbn [publisherIndex otherIndex m_feed] in *.
  - rewrite bool_decide_eq_false_2 by lia. eexists. split; [done|].
    rewrite !drop_ge by lia. simpl. by rewrite app_nil_r.
  - case_bool_decide as Hcond.
    2:{ eexists. split; [done|]. rewrite !drop_ge by lia. simpl. by rewrite app_nil_r. }
    unfold add_publisher. cbn [publisherIndex otherIndex m_feed].
    destruct (publisherPosts !! i) as [p|] eqn:Hp.
    + rewrite (drop_S _ _ _ Hp). apply lookup_lt_Some in Hp as Hpl.
      cbn [add_others publisherIndex otherIndex m_feed].
      destruct (otherPosts !! j) as [o1|] eqn:Ho1.
      * rewrite (drop_S _ _ _ Ho1). apply lookup_lt_Some in Ho1 as Hol.
        cbn [publisherIndex otherIndex m_feed].
        destruct (otherPosts !! S j) as [o2|] eqn:Ho2.
        -- rewrite (drop_S _ _ _ Ho2). apply lookup_lt_Some in Ho2 as Hol2.
           edestruct (IH (mkMerge (((f ++ [mkSkeleton (Post.uri p)]) ++ [mkSkeleton (Post.uri o1)])
                                   ++ [mkSkeleton (Post.uri o2)]) (S i) (S (S j))))
             as (st' & -> & Hst'); [simpl; lia|].
           eexists. split; [done|]. rewrite Hst'. simpl. by rewrite <- !app_assoc.
        -- apply lookup_ge_None in Ho2.
           edestruct (IH (mkMerge ((f ++ [mkSkeleton (Post.uri p)]) ++ [mkSkeleton (Post.uri o1)])
                                  (S i) (S j))) as (st' & -> & Hst'); [simpl; lia|].
           eexists. split; [done|]. rewrite Hst'. cbn [publisherIndex otherIndex m_feed].
           rewrite (drop_ge otherPosts (S j)) by lia. rewrite interleave_nil_r.
           simpl. by rewrite <- !app_assoc.
      * apply lookup_ge_None in Ho1.
        edestruct (IH (mkMerge (f ++ [mkSkeleton (Post.uri p)]) (S i) j))
          as (st' & -> & Hst'); [simpl; lia|].
        eexists. split; [done|]. rewrite Hst'. cbn [publisherIndex otherIndex m_feed].
        rewrite (drop_ge otherPosts j) by lia. rewrite interleave_nil_r.
        simpl. by rewrite <- !app_assoc.
    + apply lookup_ge_None in Hp. rewrite (drop_ge publisherPosts i) by lia.
      cbn [add_others publisherIndex otherIndex m_feed interleave].
      destruct (otherPosts !! j) as [o1|] eqn:Ho1; [|apply lookup_ge_None in Ho1; lia].
      rewrite (drop_S _ _ _ Ho1). apply lookup_lt_Some in Ho1 as Hol.
      cbn [publisherIndex otherIndex m_feed].
      destruct (otherPosts !! S j) as [o2|] eqn:Ho2.
      * rewrite (drop_S _ _ _ Ho2). apply lookup_lt_Some in Ho2 as Hol2.
        edestruct (IH (mkMerge ((f ++ [mkSkeleton (Post.uri o1)]) ++ [mkSkeleton (Post.uri o2)])
                               i (S (S j)))) as (st' & -> & Hst'); [simpl; lia|].
        eexists. split; [done|]. rewrite Hst'. cbn [publisherIndex otherIndex m_feed].
        rewrite (drop_ge publisherPosts i) by lia.
        simpl. by rewrite <- !app_assoc.
      * apply lookup_ge_None in Ho2.
        edestruct (IH (mkMerge (f ++ [mkSkeleton (Post.uri o1)]) i (S j)))
          as (st' & -> & Hst'); [simpl; lia|].
        eexists. split; [done|]. rewrite Hst'. cbn [publisherIndex otherIndex m_feed].
        rewrite (drop_ge publisherPosts i), (drop_ge otherPosts (S j)) by lia.
        simpl. by rewrite <- !app_assoc.
Qed.

End Merge.

(** The feed [buildFeed] returns for the rows of its two sub-queries. *)
Definition merged (publisherPosts otherPosts : list Post.t) : list SkeletonFeedPost :=
  match merge_loop publisherPosts otherPosts
          (length publisherPosts + length otherPosts) (mkMerge [] 0 0) with
  | Returned st => m_feed st
  | _ => []
  end.

(** The merge loop always ends within its bound. *)
Lemma merge_loop_returns (publisherPosts otherPosts : list Post.t) :
  ∃ st,
    merge_loop publisherPosts otherPosts
      (length publisherPosts + length otherPosts) (mkMerge [] 0 0) = Returned st
    ∧ m_feed st = skeleton <$> interleave publisherPosts otherPosts.
Proof.
  destruct (merge_loop_spec publisherPosts otherPosts
              (length publisherPosts + length otherPosts) (mkMerge [] 0 0))
    as (st & Hst & Hfeed); [simpl; lia|].
  by exists st.
Qed.

Lemma merged_interleave (publisherPosts otherPosts : list Post.t) :
  merged publisherPosts otherPosts = skeleton <$> interleave publisherPosts otherPosts.
Proof.
  unfold merged. by destruct (merge_loop_returns publisherPosts otherPosts) as (st & -> & ->).
Qed.

Lemma buildFeed_returns (params : QueryParams) (pq oq : QueryBuilder)
    (publisherPosts otherPosts : list Post.t) :
  pq (cursorOffset params) (limit params / 3) = Some publisherPosts →
  oq (cursorOffset params) (limit params / 3 * 2) = Some otherPosts →
  buildFeed params pq oq
  = Returned
      {| out_cursor :=
           if bool_decide (0 < length publisherPosts + length otherPosts)%nat
           then Some (toString (add (cursorOffset params) (Int (limit params / 3 * 2))))
           else None;
         feed := merged publisherPosts otherPosts |}.
Proof.
  intros Hp Ho. unfold buildFeed, merged. rewrite Hp, Ho.
  by destruct (merge_loop_returns publisherPosts otherPosts) as (st & -> & _).
Qed.

(** When the publisher list runs out first, what remains of the network
    list follows in its order. *)
Lemma interleave_app_r {A} (ps os extra : list A) :
  (2 * length ps ≤ length os)%nat →
  interleave ps (os ++ extra) = interleave ps os ++ extra.
Proof.
  revert os. induction ps as [|p ps IH]; intros os Hlen; [done|].
  destruct os as [|o1 [|o2 os]]; simpl in *; try lia.
  rewrite IH by lia. done.
Qed.

(** When the network list runs out first, what remains of the publisher
    list follows in its order. *)
Lemma interleave_app_l {A} (ps os extra : list A) :
  (length os ≤ 2 * length ps)%nat →
  interleave (ps ++ extra) os = interleave ps os ++ extra.
Proof.
  revert os. induction ps as [|p ps IH]; intros os Hlen.
  - destruct os; [|simpl in *; lia]. simpl. by rewrite interleave_nil_r.
  - destruct os as [|o1 [|o2 os]]; simpl in *; try done.
    rewrite IH by lia. done.
Qed.

Lemma paged_length (ranked : list Post.t) (off : number) (lim : Z) (rows : list Post.t) :
  paged ranked off lim = Some rows → (Z.of_nat (length rows) ≤ lim).
Proof.
  unfold paged. destruct off as [off|]; [|done]. case_bool_decide; [|done].
  intros [= <-]. rewrite length_take. lia.
Qed.

(** C2.  With a requested limit of 9 and, past the offset, at least 3
    ranked publisher candidates and at least 6 ranked network candidates,
    the feed is exactly 3 publisher posts and 6 network posts in the order
    P N N P N N P N N.  In general the feed is the merge of the two result
    lists, and when one list runs out before the other the rest of the
    other follows in its order. *)
Theorem buildFeed_interleave :
  (∀ (params : QueryParams) (rankedPublisher rankedFollows : list Post.t) (off : Z),
     limit params = 9 →
     cursorOffset params = Int off →
     0 ≤ off →
     (3 ≤ length (drop (Z.to_nat off) rankedPublisher))%nat →
     (6 ≤ length (drop (Z.to_nat off) rankedFollows))%nat →
     ∃ p0 p1 p2 o0 o1 o2 o3 o4 o5 c,
       take 3 (drop (Z.to_nat off) rankedPublisher) = [p0; p1; p2]
       ∧ take 6 (drop (Z.to_nat off) rankedFollows) = [o0; o1; o2; o3; o4; o5]
       ∧ buildFeed params (paged rankedPublisher) (paged rankedFollows)
         = Returned
             {| out_cursor := c;
                feed := skeleton <$> [p0; o0; o1; p1; o2; o3; p2; o4; o5] |})
  ∧ (∀ (params : QueryParams) (pq oq : QueryBuilder) (publisherPosts otherPosts : list Post.t),
       pq (cursorOffset params) (limit params / 3) = Some publisherPosts →
       oq (cursorOffset params) (limit params / 3 * 2) = Some otherPosts →
       ∃ c, buildFeed params pq oq
            = Returned {| out_cursor := c; feed := merged publisherPosts otherPosts |})
  ∧ (∀ (publisherPosts otherPosts extra : list Post.t),
       (2 * length publisherPosts ≤ length otherPosts)%nat →
       merged publisherPosts (otherPosts ++ extra)
       = merged publisherPosts otherPosts ++ (skeleton <$> extra))
  ∧ (∀ (publisherPosts otherPosts extra : list Post.t),
       (length otherPosts ≤ 2 * length publisherPosts)%nat →
       merged (publisherPosts ++ extra) otherPosts
       = merged publisherPosts otherPosts ++ (skeleton <$> extra)).
Proof.
  split; [|split; [|split]].
  - intros params rp rf off Hlim Hoff Hpos Hp Hf.
    destruct (drop (Z.to_nat off) rp) as [|p0 [|p1 [|p2 ps]]] eqn:Ep; simpl in Hp; try lia.
    destruct (drop (Z.to_nat off) rf) as [|o0 [|o1 [|o2 [|o3 [|o4 [|o5 os]]]]]] eqn:Ef;
      simpl in Hf; try lia.
    exists p0, p1, p2, o0, o1, o2, o3, o4, o5. eexists. split; [done|]. split; [done|].
    assert (paged rp (cursorOffset params) (limit params / 3) = Some [p0; p1; p2]) as Hq1.
    { rewrite Hoff, Hlim. unfold paged. rewrite bool_decide_eq_true_2 by (by split).
      change (Z.to_nat (9 / 3)) with 3%nat. by rewrite Ep. }
    assert (paged rf (cursorOffset params) (limit params / 3 * 2)
            = Some [o0; o1; o2; o3; o4; o5]) as Hq2.
    { rewrite Hoff, Hlim. unfold paged. rewrite bool_decide_eq_true_2 by (by split).
      change (Z.to_nat (9 / 3 * 2)) with 6%nat. by rewrite Ef. }
    rewrite (buildFeed_returns _ _ _ _ _ Hq1 Hq2). by rewrite merged_interleave.
  - intros params pq oq pubs others Hp Ho. eexists. by apply buildFeed_returns.
  - intros pubs others extra Hlen.
    by rewrite !merged_interleave, interleave_app_r, fmap_app.
  - intros pubs others extra Hlen.
    by rewrite !merged_interleave, interleave_app_l, fmap_app.
Qed.

(** C8 (as the code has it).  When the two sub-queries return at least
    one post in total, the next-page cursor is the decimal string of the
    previous offset plus twice [floor(limit / 3)], the per-page publisher
    share of the requested limit; when both return no post there is no
    cursor. *)
Theorem buildFeed_cursor (params : QueryParams) (pq oq : QueryBuilder)
    (publisherPosts otherPosts : list Post.t) :
  pq (cursorOffset params) (limit params / 3) = Some publisherPosts →
  oq (cursorOffset params) (limit params / 3 * 2) = Some otherPosts →
  ∃ out,
    buildFeed params pq oq = Returned out
    ∧ ((0 < length publisherPosts + length otherPosts)%nat →
       out_cursor out
       = Some (toString (add (cursorOffset params) (Int (2 * (limit params / 3)))))
       ∧ ∀ previousOffset, cursorOffset params = Int previousOffset →
           out_cursor out
           = Some (NilZero.string_of_int (Z.to_int (previousOffset + 2 * (limit params / 3)))))
    ∧ (publisherPosts = [] → otherPosts = [] → out_cursor out = None).
Proof.
  intros Hp Ho. eexists. split; [by apply buildFeed_returns|]. cbn [out_cursor]. split.
  - intros Htotal. rewrite bool_decide_eq_true_2 by done.
    replace (limit params / 3 * 2) with (2 * (limit params / 3)) by lia.
    split; [done|]. by intros prev ->.
  - by intros -> ->.
Qed.

(** *** Examples *)

Definition plain_post (author n : string) : Post.t :=
  Post.mk ("at://" +:+ author +:+ "/app.bsky.feed.post/" +:+ n) ("bafy-" +:+ n)
    "2026-02-02T00:00:00.000Z" "2026-02-02T00:00:00.000Z" author "" "" "" "" "" ""
    None (Some 0) (Some 0) (Some 0) (Some 0).

Definition ranked_publisher : list Post.t :=
  plain_post "did:plc:news" <$> ["p0"; "p1"; "p2"; "p3"].

Definition ranked_follows : list Post.t :=
  plain_post "did:plc:friend" <$> ["n0"; "n1"; "n2"; "n3"; "n4"; "n5"; "n6"].

Definition first_page_of_nine : QueryParams := {| limit := 9; cursor := None |}.

Example parseInt_examples :
  parseInt "6" = Int 6 ∧ parseInt "  42abc" = Int 42 ∧ parseInt "-3" = Int (-3)
  ∧ parseInt "abc" = NaN ∧ parseInt "" = NaN.
Proof. repeat split. Qed.

Example buildFeed_first_page :
  buildFeed first_page_of_nine (paged ranked_publisher) (paged ranked_follows)
  = Returned
      {| out_cursor := Some "6";
         feed := skeleton <$>
           [ plain_post "did:plc:news" "p0"; plain_post "did:plc:friend" "n0";
             plain_post "did:plc:friend" "n1"; plain_post "did:plc:news" "p1";
             plain_post "did:plc:friend" "n2"; plain_post "did:plc:friend" "n3";
             plain_post "did:plc:news" "p2"; plain_post "did:plc:friend" "n4";
             plain_post "did:plc:friend" "n5" ] |}.
Proof. vm_compute. reflexivity. Qed.

Lemma buildFeed_interleave_witness :
  ∃ p0 p1 p2 o0 o1 o2 o3 o4 o5 c,
    take 3 (drop (Z.to_nat 0) ranked_publisher) = [p0; p1; p2]
    ∧ take 6 (drop (Z.to_nat 0) ranked_follows) = [o0; o1; o2; o3; o4; o5]
    ∧ buildFeed first_page_of_nine (paged ranked_publisher) (paged ranked_follows)
      = Returned
          {| out_cursor := c;
             feed := skeleton <$> [p0; o0; o1; p1; o2; o3; p2; o4; o5] |}.
Proof.
  apply (proj1 buildFeed_interleave first_page_of_nine ranked_publisher ranked_follows 0).
  - reflexivity.
  - reflexivity.
  - lia.
  - simpl. lia.
  - simpl. lia.
Defined.

Lemma buildFeed_cursor_witness :
  ∃ out,
    buildFeed first_page_of_nine (paged ranked_publisher) (paged ranked_follows) = Returned out
    ∧ ((0 < 3 + 6)%nat →
       out_cursor out = Some "6"
       ∧ ∀ previousOffset, Int 0 = Int previousOffset →
           out_cursor out
           = Some (NilZero.string_of_int (Z.to_int (previousOffset + 2 * (9 / 3)))))
    ∧ (take 3 ranked_publisher = [] → take 6 ranked_follows = [] → out_cursor out = None).
Proof.
  apply (buildFeed_cursor first_page_of_nine (paged ranked_publisher) (paged ranked_follows)
           (take 3 ranked_publisher) (take 6 ranked_follows)); reflexivity.
Defined.

(** With a requested limit of 9 and no incoming cursor the next cursor
    is "6", not the "18" of the previous offset plus twice the limit. *)
Lemma buildFeed_cursor_counterexample :
  (∃ f, buildFeed first_page_of_nine (paged ranked_publisher) (paged ranked_follows)
        = Returned {| out_cursor := Some "6"; feed := f |})
  ∧ cursorOffset first_page_of_nine = Int 0
  ∧ toString (add (Int 0) (Int (2 * limit first_page_of_nine))) = "18"
  ∧ "6" ≠ "18".
Proof.
  split; [|repeat split; discriminate].
  eexists. vm_compute. reflexivity.
Qed.

End FeedFacts.

(** ** The compliance engagement export *)

Module ComplianceExportFacts.
Import ComplianceExport.

(** *** The order of the dedupe step *)

Definition slt (a b : string) : Prop := String_as_OT.lt a b.

Lemma str_lt_true (a b : string) : str_lt a b = true ↔ slt a b.
Proof.
  unfold str_lt, slt, String_as_OT.lt.
  destruct (String_as_OT.compare a b); naive_solver.
Qed.

Lemma slt_trans (a b c : string) : slt a b → slt b c → slt a c.
Proof. apply String_as_OT.lt_strorder. Qed.

Lemma slt_irrefl (a : string) : ¬ slt a a.
Proof. apply String_as_OT.lt_strorder. Qed.

Lemma slt_trichotomy (a b : string) : slt a b ∨ a = b ∨ slt b a.
Proof. destruct (String_as_OT.compare_spec a b); auto. Qed.

(** [a] sorts no later than [b]: a smaller uri, or the same uri and a
    later creation time, or the same of both and a type rank at least as
    high. *)
Definition sorts_before (a b : Row) : Prop :=
  slt (event_uri a) (event_uri b)
  ∨ (event_uri a = event_uri b
     ∧ (slt (created_at b) (created_at a)
        ∨ (created_at a = created_at b ∧ type_rank b ≤ type_rank a))).

Lemma dedupe_order_sorts_before (a b : Row) : dedupe_order a b ↔ sorts_before a b.
Proof.
  unfold dedupe_order, dedupe_compare, sorts_before, slt.
  destruct (String_as_OT.compare_spec (event_uri a) (event_uri b)) as [Hu|Hu|Hu].
  - destruct (String_as_OT.compare_spec (created_at b) (created_at a)) as [Hc|Hc|Hc].
    + rewrite Z.compare_gt_iff. split.
      * intros H. right. split; [done|]. right. split; [done|]. lia.
      * intros [H|(_ & [H|[_ H]])]; [| |lia].
        -- rewrite Hu in H. by apply slt_irrefl in H.
        -- rewrite Hc in H. by apply slt_irrefl in H.
    + split; [|done]. intros _. right. split; [done|]. by left.
    + split; [done|]. intros [H|(_ & [H|[H _]])]; exfalso.
      * rewrite Hu in H. by apply slt_irrefl in H.
      * by apply (slt_irrefl (created_at a)), (slt_trans _ (created_at b)).
      * rewrite H in Hc. by apply slt_irrefl in Hc.
  - split; [|done]. intros _. by left.
  - split; [done|]. intros [H|(H & _)]; exfalso.
    + by apply (slt_irrefl (event_uri a)), (slt_trans _ (event_uri b)).
    + rewrite H in Hu. by apply slt_irrefl in Hu.
Qed.

#[local] Instance dedupe_order_total : Total dedupe_order.
Proof.
  intros a b. rewrite !dedupe_order_sorts_before. unfold sorts_before.
  destruct (slt_trichotomy (event_uri a) (event_uri b)) as [?|[Hu|?]]; [left; by left| |right; by left].
  destruct (slt_trichotomy (created_at a) (created_at b)) as [?|[Hc|?]].
  - right. right. split; [done|]. by left.
  - destruct (Z.le_ge_cases (type_rank a) (type_rank b)).
    + right. right. split; [done|]. right. split; [done|]. lia.
    + left. right. split; [done|]. right. split; [done|]. lia.
  - left. right. split; [done|]. by left.
Qed.

#[local] Instance dedupe_order_trans : Transitive dedupe_order.
Proof.
  intros a b c. rewrite !dedupe_order_sorts_before. unfold sorts_before.
  intros [Hab|[Hab Hab']] [Hbc|[Hbc Hbc']].
  - left. by eapply slt_trans.
  - left. by rewrite <- Hbc.
  - left. by rewrite Hab.
  - right. split; [congruence|].
    destruct Hab' as [H1|[H1 H1']], Hbc' as [H2|[H2 H2']].
    + left. by eapply slt_trans.
    + left. by rewrite <- H2.
    + left. by rewrite H1.
    + right. split; [congruence|lia].
Qed.

(** *** One row per event *)

(** The rows of [rows] that carry the event uri [u]. *)
Definition of_event (u : string) (rows : list Row) : list Row :=
  filter (λ x, event_uri x = u) rows.

Lemma of_event_cons (u : string) (r : Row) (rows : list Row) :
  of_event u (r :: rows)
  = if decide (event_uri r = u) then r :: of_event u rows else of_event u rows.
Proof. unfold of_event. by rewrite filter_cons. Qed.

Lemma of_event_nil (u : string) (rows : list Row) :
  (∀ x, x ∈ rows → event_uri x ≠ u) → of_event u rows = [].
Proof.
  induction rows as [|r rows IH]; intros H; [done|].
  rewrite of_event_cons, decide_False by (apply H; left).
  apply IH. intros x Hx. apply H. by right.
Qed.

Lemma elem_of_of_event (u : string) (rows : list Row) (x : Row) :
  x ∈ of_event u rows ↔ x ∈ rows ∧ event_uri x = u.
Proof. unfold of_event. rewrite list_elem_of_filter. tauto. Qed.

(** Among ordered rows, [DISTINCT ON] keeps for every event uri the
    first row that carries it; [prev] is a uri no later than any in the
    list. *)
Lemma distinct_on_first (prev : option string) (rows : list Row) (u : string) :
  StronglySorted dedupe_order rows →
  (∀ k x, prev = Some k → x ∈ rows → k = event_uri x ∨ slt k (event_uri x)) →
  of_event u (distinct_on prev rows)
  = if decide (prev = Some u) then [] else option_list (head (of_event u rows)).
Proof.
  intros Hsorted. revert prev. induction Hsorted as [|r rest Hrest IH Hr]; intros prev Hprev.
  { simpl. by case_decide. }
  rewrite Forall_forall in Hr.
  assert (Hafter : ∀ x, x ∈ rest → event_uri r = event_uri x ∨ slt (event_uri r) (event_uri x)).
  { intros x Hx. specialize (Hr x Hx).
    apply dedupe_order_sorts_before in Hr as [?|[? _]]; auto. }
  assert (Hnext : ∀ k x, Some (event_uri r) = Some k → x ∈ rest →
                         k = event_uri x ∨ slt k (event_uri x)).
  { intros k x [= <-] Hx. by apply Hafter. }
  assert (Hprev' : ∀ k x, prev = Some k → x ∈ rest → k = event_uri x ∨ slt k (event_uri x)).
  { intros k x Hk Hx. apply (Hprev k x Hk). by right. }
  cbn [distinct_on]. destruct (decide (prev = Some (event_uri r))) as [Hp|Hp].
  - rewrite (IH prev Hprev'), of_event_cons.
    destruct (decide (event_uri r = u)) as [<-|Hu].
    + by rewrite !decide_True by done.
    + by rewrite decide_False by congruence.
  - rewrite !of_event_cons. destruct (decide (event_uri r = u)) as [<-|Hu].
    + rewrite (IH _ Hnext), decide_True by done. by rewrite decide_False by done.
    + rewrite (IH _ Hnext), decide_False by congruence.
      destruct (decide (prev = Some u)) as [->|_]; [|done].
      (* [u] is earlier than the uri of [r], so no later row carries it *)
      assert (slt u (event_uri r)) as Hlt.
      { destruct (Hprev u r eq_refl) as [?|?]; [by left|congruence|done]. }
      rewrite of_event_nil; [done|]. intros x Hx Hxu.
      destruct (Hafter x Hx) as [He|He].
      * rewrite He, Hxu in Hlt. by apply slt_irrefl in Hlt.
      * rewrite Hxu in He. by apply (slt_irrefl u), (slt_trans _ (event_uri r)).
Qed.

(** The first of the ordered rows of an event sorts before the others. *)
Lemma head_of_event_sorted (rows : list Row) (u : string) (d : Row) :
  StronglySorted dedupe_order rows →
  head (of_event u rows) = Some d →
  d ∈ rows ∧ event_uri d = u
  ∧ ∀ x, x ∈ rows → event_uri x = u → x = d ∨ dedupe_order d x.
Proof.
  induction 1 as [|r rest Hrest IH Hr]; [done|].
  rewrite of_event_cons. destruct (decide (event_uri r = u)) as [Hu|Hu].
  - intros [= <-]. split; [by left|]. split; [done|].
    intros x Hx _. apply elem_of_cons in Hx as [->|Hx]; [by left|].
    right. rewrite Forall_forall in Hr. by apply Hr.
  - intros Hd. destruct (IH Hd) as (Hin & Hdu & Hmax). split; [by right|]. split; [done|].
    intros x Hx Hxu. apply elem_of_cons in Hx as [->|Hx]; [done|]. by apply Hmax.
Qed.

Section Dedupe.
Variables (db : Database) (publisherDids : list string) (filters : EngagementFilters).
Variable scopeFilter : Row → bool.

Abbreviation rows := (scoped db publisherDids filters scopeFilter).
Abbreviation kept := (deduped db publisherDids filters scopeFilter).

(** C5 (as the code has it).  Of the rows that pass the request's
    filters (window, types, actor, scope), the deduplicated set holds for
    each event uri exactly one row: one of the filtered rows with that
    uri, and no filtered row with that uri has a later creation time, or
    the same creation time and a higher type rank. *)
Theorem deduped_one_row_per_event (r : Row) :
  r ∈ rows →
  ∃ d,
    of_event (event_uri r) kept = [d]
    ∧ d ∈ rows
    ∧ event_uri d = event_uri r
    ∧ ∀ r', r' ∈ rows → event_uri r' = event_uri r →
        slt (created_at r') (created_at d)
        ∨ (created_at r' = created_at d ∧ type_rank r' ≤ type_rank d).
Proof.
  intros Hr. unfold deduped.
  pose proof (StronglySorted_merge_sort dedupe_order rows) as Hsorted.
  pose proof (merge_sort_Permutation dedupe_order rows) as Hperm.
  set (sorted := merge_sort dedupe_order rows) in *.
  rewrite distinct_on_first by done. rewrite decide_False by done.
  destruct (head (of_event (event_uri r) sorted)) as [d|] eqn:Hd.
  - destruct (head_of_event_sorted _ _ _ Hsorted Hd) as (Hin & Hu & Hmax).
    exists d. split; [done|]. split; [by rewrite <- Hperm|]. split; [done|].
    intros r' Hr' Hu'. rewrite <- Hperm in Hr'.
    destruct (Hmax r' Hr' Hu') as [->|Hord].
    + right. split; [done|]. lia.
    + apply dedupe_order_sorts_before in Hord as [Hlt|[_ [?|[? ?]]]]; [|by left|by right].
      rewrite Hu, Hu' in Hlt. by apply slt_irrefl in Hlt.
  - apply head_None in Hd. rewrite <- Hperm in Hr.
    assert (r ∈ of_event (event_uri r) sorted) as Hin by (by apply elem_of_of_event).
    rewrite Hd in Hin. by apply not_elem_of_nil in Hin.
Qed.

End Dedupe.

(** *** A reply that quotes *)

Definition reply_uri : string := "at://did:plc:bob/app.bsky.feed.post/3kreply".
Definition news_root : string := "at://did:plc:news/app.bsky.feed.post/3knews".
Definition carol_post : string := "at://did:plc:carol/app.bsky.feed.post/3kcarol".
Definition noon : string := "2026-02-02T12:00:00.000Z".

(** Bob replies to a publisher post and quotes a post of Carol in the
    same record: one comment-shaped post and one quote row, both under
    the uri of the reply and created at the same time. *)
Definition reply_store (subscribers : list Subscriber.t) : Database :=
  {| post :=
       [ Post.mk reply_uri "bafy-r" noon noon "did:plc:bob" "look" news_root "bafy-n"
           "" "" "" None (Some 0) (Some 0) (Some 0) (Some 0) ];
     engagement :=
       [ Engagement.mk reply_uri "bafy-r" carol_post "bafy-c" 3 noon noon "did:plc:bob" ];
     follows := [];
     subscriber := subscribers |}.

Definition day_filters : EngagementFilters :=
  {| since := "2026-02-02T00:00:00.000Z"; until := "2026-02-03T00:00:00.000Z";
     scope := scope_union; limit := 1000; types := [like; repost; comment; quote];
     subscriberDid := None; includeOtherSubscriberActivity := false |}.

Definition quote_row_of (subscriber_actor : bool) : Row :=
  {| type := Some quote; event_uri := reply_uri; subject_uri := carol_post;
     author_did := "did:plc:bob"; created_at := noon;
     is_publisher_target := false; is_subscriber_actor := subscriber_actor |}.

Definition comment_row_of (subscriber_actor : bool) : Row :=
  {| type := Some comment; event_uri := reply_uri; subject_uri := news_root;
     author_did := "did:plc:bob"; created_at := noon;
     is_publisher_target := true; is_subscriber_actor := subscriber_actor |}.

(** When Bob is no subscriber only the comment row passes the union
    scope, and it is the row kept, although the quote row of the same
    event is in the window with the same creation time and a higher
    type rank. *)
Lemma dedupe_in_window_counterexample :
  of_event reply_uri (enriched (reply_store []) ["did:plc:news"] day_filters)
  = [quote_row_of false; comment_row_of false]
  ∧ created_at (quote_row_of false) = created_at (comment_row_of false)
  ∧ type_rank (comment_row_of false) < type_rank (quote_row_of false)
  ∧ of_event reply_uri
      (deduped (reply_store []) ["did:plc:news"] day_filters (scopeFilter day_filters))
    = [comment_row_of false].
Proof. repeat split; vm_compute; reflexivity. Qed.

(** When Bob is a subscriber both rows pass and the quote row is kept. *)
Example dedupe_keeps_quote :
  deduped (reply_store [Subscriber.mk "bob.example" "did:plc:bob"]) ["did:plc:news"]
    day_filters (scopeFilter day_filters)
  = [quote_row_of true].
Proof. vm_compute. reflexivity. Qed.

Lemma deduped_one_row_per_event_witness :
  ∃ d,
    of_event reply_uri
      (deduped (reply_store [Subscriber.mk "bob.example" "did:plc:bob"]) ["did:plc:news"]
         day_filters (scopeFilter day_filters)) = [d]
    ∧ d ∈ scoped (reply_store [Subscriber.mk "bob.example" "did:plc:bob"]) ["did:plc:news"]
            day_filters (scopeFilter day_filters)
    ∧ event_uri d = reply_uri
    ∧ ∀ r', r' ∈ scoped (reply_store [Subscriber.mk "bob.example" "did:plc:bob"])
                   ["did:plc:news"] day_filters (scopeFilter day_filters) →
            event_uri r' = reply_uri →
            slt (created_at r') (created_at d)
            ∨ (created_at r' = created_at d ∧ type_rank r' ≤ type_rank d).
Proof.
  apply (deduped_one_row_per_event
           (reply_store [Subscriber.mk "bob.example" "did:plc:bob"]) ["did:plc:news"]
           day_filters (scopeFilter day_filters) (comment_row_of true)).
  vm_compute. right. left.
Defined.

(** *** The signed text determines the filters *)

Lemma append_cons (x : ascii) (a b : string) : String x a +:+ b = String x (a +:+ b).
Proof. done. Qed.

Lemma append_assoc (a b c : string) : (a +:+ b) +:+ c = a +:+ (b +:+ c).
Proof. induction a as [|x a IH]; [done|]. by rewrite !append_cons, IH. Qed.

Lemma append_nil_l (b : string) : "" +:+ b = b.
Proof. done. Qed.

(** Reads one escaped character off the front of a JSON string body;
    nothing at the closing quote. *)
Definition hex_value (c : ascii) : nat :=
  let n := nat_of_ascii c in
  if bool_decide (n < 58)%nat then (n - 48)%nat else (n - 87)%nat.

Definition read_escape (s : string) : option (ascii * string) :=
  match s with
  | EmptyString => None
  | String c rest =>
      if Ascii.eqb c dquote then None
      else if negb (Ascii.eqb c backslash) then Some (c, rest)
      else
        match rest with
        | String e rest' =>
            if Ascii.eqb e dquote then Some (dquote, rest')
            else if Ascii.eqb e backslash then Some (backslash, rest')
            else if Ascii.eqb e "b" then Some (ascii_of_nat 8, rest')
            else if Ascii.eqb e "t" then Some (ascii_of_nat 9, rest')
            else if Ascii.eqb e "n" then Some (ascii_of_nat 10, rest')
            else if Ascii.eqb e "f" then Some (ascii_of_nat 12, rest')
            else if Ascii.eqb e "r" then Some (ascii_of_nat 13, rest')
            else
              match rest' with
              | String _ (String _ (String h (String l rest''))) =>
                  Some (ascii_of_nat (16 * hex_value h + hex_value l), rest'')
              | _ => None
              end
        | EmptyString => None
        end
  end.

Lemma read_escape_json_escape (c : ascii) (r : string) :
  read_escape (json_escape c +:+ r) = Some (c, r).
Proof. destruct c as [[] [] [] [] [] [] [] []]; reflexivity. Qed.

Lemma read_escape_dquote (r : string) : read_escape (String dquote r) = None.
Proof. done. Qed.

(** The body of a JSON string, up to its closing quote, determines the
    string and what follows the quote. *)
Lemma json_chars_delimited (a b r r' : string) :
  json_chars a +:+ String dquote r = json_chars b +:+ String dquote r' → a = b ∧ r = r'.
Proof.
  revert b. induction a as [|c a IH]; intros [|c' b] H; cbn [json_chars] in H.
  - rewrite !append_nil_l in H. by injection H.
  - rewrite append_nil_l, append_assoc in H. apply (f_equal read_escape) in H.
    by rewrite read_escape_dquote, read_escape_json_escape in H.
  - rewrite append_nil_l, append_assoc in H. apply (f_equal read_escape) in H.
    by rewrite read_escape_dquote, read_escape_json_escape in H.
  - rewrite !append_assoc in H. apply (f_equal read_escape) in H.
    rewrite !read_escape_json_escape in H. injection H as -> H.
    by destruct (IH _ H) as [-> ->].
Qed.

Lemma json_string_delimited (a b r r' : string) :
  json_string a +:+ r = json_string b +:+ r' → a = b ∧ r = r'.
Proof.
  unfold json_string. rewrite !append_cons, !append_assoc, !append_cons, !append_nil_l.
  intros [= H]. by apply json_chars_delimited.
Qed.

(** A text without commas, followed by a comma, determines itself and
    what follows. *)
Fixpoint comma_free (s : string) : bool :=
  match s with
  | EmptyString => true
  | String c rest => negb (Ascii.eqb c ",") && comma_free rest
  end.

Lemma comma_free_delimited (a b r r' : string) :
  comma_free a = true → comma_free b = true →
  a +:+ String "," r = b +:+ String "," r' → a = b ∧ r = r'.
Proof.
  revert b. induction a as [|c a IH]; intros [|c' b] Ha Hb H;
    rewrite ?append_nil_l, ?append_cons in H.
  - by injection H.
  - injection H as <- _. by cbn in Hb.
  - injection H as -> _. by cbn in Ha.
  - injection H as -> H. cbn in Ha, Hb.
    apply andb_true_iff in Ha as [_ Ha]. apply andb_true_iff in Hb as [_ Hb].
    by destruct (IH b Ha Hb H) as [-> ->].
Qed.

Lemma comma_free_uint (d : Decimal.uint) : comma_free (NilEmpty.string_of_uint d) = true.
Proof. induction d; done. Qed.

Lemma comma_free_int (z : Z) : comma_free (NilZero.string_of_int (Z.to_int z)) = true.
Proof.
  unfold NilZero.string_of_int, NilZero.string_of_uint.
  destruct (Z.to_int z) as [[]|[]]; try done; cbn; apply comma_free_uint.
Qed.

Lemma string_of_int_inj (z z' : Z) :
  NilZero.string_of_int (Z.to_int z) = NilZero.string_of_int (Z.to_int z') → z = z'.
Proof.
  intros H.
  assert (Hnil : ∀ x, Z.to_int x ≠ Decimal.Pos Decimal.Nil ∧ Z.to_int x ≠ Decimal.Neg Decimal.Nil).
  { intros [|p|p]; split; simpl; try done; intros [= Hp];
      by apply Unsigned.to_uint_nonnil in Hp. }
  apply (f_equal NilZero.int_of_string) in H.
  rewrite !NilZero.isi in H by apply Hnil. injection H as H.
  apply (f_equal Z.of_int) in H. by rewrite !DecimalZ.of_to in H.
Qed.

Lemma decimal_delimited (z z' : Z) (r r' : string) :
  NilZero.string_of_int (Z.to_int z) +:+ String "," r
  = NilZero.string_of_int (Z.to_int z') +:+ String "," r' →
  z = z' ∧ r = r'.
Proof.
  intros H. apply comma_free_delimited in H as [H ->]; try apply comma_free_int.
  split; [|done]. by apply string_of_int_inj.
Qed.

(** The text of an array of type names, read from the left. *)
Fixpoint items_text (l : list EngagementExportType) (r : string) : string :=
  match l with
  | [] => String "]" r
  | t :: l' => String "," (json_string (type_name t) +:+ items_text l' r)
  end.

Definition array_text (l : list EngagementExportType) (r : string) : string :=
  String "["
    match l with
    | [] => String "]" r
    | t :: l' => json_string (type_name t) +:+ items_text l' r
    end.

Lemma concat_items (t : EngagementExportType) (l : list EngagementExportType) (r : string) :
  String.concat "," (json_string (type_name t) :: (json_string ∘ type_name <$> l))
    +:+ String "]" r
  = json_string (type_name t) +:+ items_text l r.
Proof.
  revert t. induction l as [|t' l IH]; intros t.
  - done.
  - change (String.concat "," (json_string (type_name t)
                                 :: (json_string ∘ type_name <$> t' :: l)))
      with (json_string (type_name t)
            +:+ String "," (String.concat "," (json_string (type_name t')
                                                 :: (json_string ∘ type_name <$> l)))).
    rewrite append_assoc, append_cons. by rewrite IH.
Qed.

Lemma json_array_text (l : list EngagementExportType) (r : string) :
  json_array (json_string ∘ type_name <$> l) +:+ r = array_text l r.
Proof.
  unfold json_array, array_text.
  repeat (rewrite append_assoc || rewrite append_cons || rewrite append_nil_l).
  f_equal. destruct l as [|t l]; [done|]. apply concat_items.
Qed.

Lemma type_name_inj (t t' : EngagementExportType) : type_name t = type_name t' → t = t'.
Proof. by destruct t, t'. Qed.

Lemma String_tail (c : ascii) (s t : string) : String c s = String c t → s = t.
Proof. by intros [=]. Qed.

Lemma items_text_delimited (l l' : list EngagementExportType) (r r' : string) :
  items_text l r = items_text l' r' → l = l' ∧ r = r'.
Proof.
  revert l'. induction l as [|t l IH]; intros [|t' l'] H; cbn [items_text] in H;
    try discriminate.
  - by injection H.
  - apply String_tail in H. apply json_string_delimited in H as [Ht H].
    apply type_name_inj in Ht as ->. by destruct (IH _ H) as [-> ->].
Qed.

Lemma array_text_delimited (l l' : list EngagementExportType) (r r' : string) :
  array_text l r = array_text l' r' → l = l' ∧ r = r'.
Proof.
  unfold array_text. intros H. apply String_tail in H.
  destruct l as [|t l], l' as [|t' l'].
  - by injection H.
  - unfold json_string in H. rewrite append_cons in H. discriminate.
  - unfold json_string in H. rewrite append_cons in H. discriminate.
  - apply json_string_delimited in H as [Ht H]. apply type_name_inj in Ht as ->.
    by destruct (items_text_delimited _ _ _ _ H) as [-> ->].
Qed.

Lemma scope_name_inj (a b : EngagementExportScope) : scope_name a = scope_name b → a = b.
Proof. by destruct a, b. Qed.

(** Two filter sets are the same when they agree on every field, the
    types as a set. *)
Definition same_filters (f g : EngagementFilters) : Prop :=
  since f = since g ∧ until f = until g ∧ scope f = scope g ∧ limit f = limit g
  ∧ types f ≡ₚ types g
  ∧ subscriberDid f = subscriberDid g
  ∧ includeOtherSubscriberActivity f = includeOtherSubscriberActivity g.

Ltac tails H :=
  repeat match type of H with String ?c _ = String ?c _ => apply String_tail in H end.

Ltac right_nest H :=
  repeat (rewrite append_assoc in H || rewrite append_cons in H || rewrite append_nil_l in H).

(** The text that is hashed determines every field of the filters. *)
Lemma normalized_json_inj (f g : EngagementFilters) :
  normalized_json f = normalized_json g → same_filters f g.
Proof.
  unfold normalized_json, json_object. intros H.
  cbn [fmap list_fmap String.concat fst snd] in H.
  change (json_string "since") with (String dquote ("since" +:+ String dquote "")) in H.
  change (json_string "until") with (String dquote ("until" +:+ String dquote "")) in H.
  change (json_string "scope") with (String dquote ("scope" +:+ String dquote "")) in H.
  change (json_string "limit") with (String dquote ("limit" +:+ String dquote "")) in H.
  change (json_string "types") with (String dquote ("types" +:+ String dquote "")) in H.
  change (json_string "subscriber_did")
    with (String dquote ("subscriber_did" +:+ String dquote "")) in H.
  change (json_string "include_other_subscriber_activity")
    with (String dquote ("include_other_subscriber_activity" +:+ String dquote "")) in H.
  right_nest H.
  tails H. apply json_string_delimited in H as [Hsince H].
  tails H. apply json_string_delimited in H as [Huntil H].
  tails H. apply json_string_delimited in H as [Hscope%scope_name_inj H].
  tails H. apply decimal_delimited in H as [Hlimit H].
  tails H. rewrite !json_array_text in H.
  apply array_text_delimited in H as [Htypes H].
  tails H.
  assert (subscriberDid f = subscriberDid g
          ∧ includeOtherSubscriberActivity f = includeOtherSubscriberActivity g)
    as [Hdid Hinclude].
  { destruct (subscriberDid f) as [d|], (subscriberDid g) as [d'|].
    - apply json_string_delimited in H as [-> H]. split; [done|]. tails H.
      by destruct (includeOtherSubscriberActivity f), (includeOtherSubscriberActivity g).
    - unfold json_string in H. right_nest H. discriminate.
    - unfold json_string in H. right_nest H. discriminate.
    - right_nest H. tails H. split; [done|].
      by destruct (includeOtherSubscriberActivity f), (includeOtherSubscriberActivity g). }
  repeat split; try done.
  rewrite <- (merge_sort_Permutation name_order (types f)).
  rewrite <- (merge_sort_Permutation name_order (types g)).
  unfold sorted_types in Htypes. by rewrite Htypes.
Qed.

(** The text of a cursor determines the cursor. *)
Lemma cursor_json_inj (c c' : EngagementCursor) : cursor_json c = cursor_json c' → c = c'.
Proof.
  unfold cursor_json, json_object. intros H.
  cbn [fmap list_fmap String.concat fst snd] in H.
  change (json_string "created_at")
    with (String dquote ("created_at" +:+ String dquote "")) in H.
  change (json_string "event_uri") with (String dquote ("event_uri" +:+ String dquote "")) in H.
  change (json_string "filter_sig")
    with (String dquote ("filter_sig" +:+ String dquote "")) in H.
  right_nest H.
  tails H. apply json_string_delimited in H as [Hcreated H].
  tails H. apply json_string_delimited in H as [Huri H].
  tails H. apply json_string_delimited in H as [Hsig _].
  destruct c, c'; simpl in *. by subst.
Qed.

(** *** Cursors are bound to the filters *)

Lemma bind_Ok {A B} (m : result A) (k : A → result B) (b : B) :
  mbind k m = Ok b ↔ ∃ a, m = Ok a ∧ k a = Ok b.
Proof. destruct m; simpl; naive_solver. Qed.

Lemma check_Ok (ok : bool) (message : string) (u : unit) :
  check ok message = Ok u ↔ ok = true.
Proof. destruct ok, u; simpl; naive_solver. Qed.

Section Binding.
Variable PRIORITIZE_API_KEY : option string.
Variable publisherDids : list string.
Variables defaultSince defaultUntil : string.
Variable toISOString : string → option string.
Variable sha256_hex : string → string.
Variable base64UrlEncode : string → string.
Variable parse_base64url_json : string → option Json.

Abbreviation read := (read_parameters defaultSince defaultUntil toISOString).
Abbreviation decode := (decodeEngagementCursor toISOString parse_base64url_json).
Abbreviation encode := (encodeEngagementCursor base64UrlEncode).
Abbreviation sign := (buildFilterSignature sha256_hex).
Abbreviation handle :=
  (handleEngagementExport PRIORITIZE_API_KEY publisherDids defaultSince defaultUntil
     toISOString sha256_hex base64UrlEncode parse_base64url_json).

(** The request carries the configured API key. *)
Definition authorized (req : Request) : Prop :=
  ∃ k, api_key req = Some k ∧ k ≠ "" ∧ PRIORITIZE_API_KEY = Some k.

Lemma read_parameters_cursorRaw (req : Request) (p : Parameters) :
  read req = Ok p →
  p_cursorRaw p = as_string (q_cursor req) ∧ p_cursorRaw p ≠ Some "".
Proof.
  unfold read_parameters. intros H.
  apply bind_Ok in H as (? & Hc & H). apply check_Ok in Hc.
  repeat (apply bind_Ok in H as (? & _ & H)).
  injection H as <-. cbn [p_cursorRaw]. split; [done|].
  apply negb_true_iff, bool_decide_eq_false in Hc. done.
Qed.

Lemma handle_authorized (req : Request) (db : Database) (src : option string) :
  authorized req →
  handle req db src
  = match validate defaultSince defaultUntil toISOString sha256_hex parse_base64url_json req with
    | Throw message => BadRequest message
    | Ok v => handle req db src
    end.
Proof.
  intros (k & Hk & Hne & Henv). unfold handleEngagementExport. rewrite Hk.
  destruct k as [|c k]; [done|]. rewrite Henv, bool_decide_eq_true_2 by done. cbn [negb].
  by destruct (validate _ _ _ _ _ req).
Qed.

(** A request whose cursor carries another signature than its filters
    is answered 400 and no page is selected. *)
Lemma mismatch_rejected (req : Request) (db : Database) (src : option string)
    (p : Parameters) (raw : string) (cur : EngagementCursor) :
  authorized req →
  read req = Ok p →
  q_cursor req = Some (QStr raw) →
  decode raw = Ok cur →
  filter_sig cur ≠ sign (p_filters p) →
  handle req db src = BadRequest "cursor does not match request filters".
Proof.
  intros Hauth Hp Hraw Hdec Hsig. rewrite handle_authorized by done.
  destruct (read_parameters_cursorRaw req p Hp) as [Hcr Hne]. rewrite Hraw in Hcr. simpl in Hcr.
  unfold validate. rewrite Hp. cbn [mbind result_bind]. rewrite Hcr.
  destruct raw as [|c raw]; [by rewrite Hcr in Hne|].
  cbn [bound_cursor]. rewrite Hdec. cbn [mbind result_bind].
  by rewrite (proj2 (String.eqb_neq _ _) Hsig).
Qed.

(** Every cursor a response hands out carries the signature of the
    filters of its request. *)
Lemma cut_page_cursor (limit : Z) (filterSig : string) (rows events : list EngagementExportEvent)
    (token : string) :
  cut_page base64UrlEncode limit filterSig rows = (events, Some token) →
  ∃ c, token = encode c ∧ filter_sig c = filterSig.
Proof.
  unfold cut_page. case_bool_decide; [|done].
  destruct (last (take (Z.to_nat limit) rows)) as [l|]; [|done].
  intros [= _ <-]. by eexists.
Qed.

Lemma validate_filterSig (req : Request) (p : Parameters) (v : Validated) :
  read req = Ok p →
  validate defaultSince defaultUntil toISOString sha256_hex parse_base64url_json req = Ok v →
  v_filterSig v = sign (p_filters p) ∧ v_filters v = p_filters p.
Proof.
  intros Hp. unfold validate. rewrite Hp. cbn [mbind result_bind]. intros H.
  apply bind_Ok in H as (c & _ & H). apply bind_Ok in H as (c' & _ & H).
  by injection H as <-.
Qed.

Lemma issued_cursor (req : Request) (db : Database) (src : option string) (p : Parameters)
    since until scope page limit events token source other :
  read req = Ok p →
  handle req db src = Json200 since until scope page limit events (Some token) source other →
  ∃ c, token = encode c ∧ filter_sig c = sign (p_filters p).
Proof.
  intros Hp. unfold handleEngagementExport.
  destruct (api_key req) as [[|a k]|]; [done| |done].
  destruct (negb _); [done|].
  destruct (validate _ _ _ _ _ req) as [v|] eqn:Hv; [|done].
  destruct (validate_filterSig req p v Hp Hv) as [Hsig Hf].
  destruct (cut_page _ _ _ _) as [ev next] eqn:Hcut. intros [= _ _ _ _ _ _ -> _ _].
  rewrite Hsig in Hcut. by eapply cut_page_cursor.
Qed.

(** What the external codec is relied on for: parsing an encoded
    cursor gives back its [filter_sig] member. *)
Definition codec_keeps_signature : Prop :=
  ∀ c j, parse_base64url_json (encode c) = Some j →
         string_or_empty (member "filter_sig" j) = filter_sig c.

Lemma decode_encode_signature (c c' : EngagementCursor) :
  codec_keeps_signature → decode (encode c) = Ok c' → filter_sig c' = filter_sig c.
Proof.
  intros Hcodec. unfold decodeEngagementCursor.
  destruct (parse_base64url_json (encode c)) as [j|] eqn:Hj; [|done].
  destruct (not_an_object j); [done|]. intros H.
  apply bind_Ok in H as (created & _ & H).
  destruct (String.eqb _ ""); [done|]. destruct (String.eqb _ ""); [done|].
  injection H as <-. simpl. by apply Hcodec.
Qed.

(** A token issued as next_cursor, replayed by a request whose filter set
    has another signature, is answered 400. *)
Lemma replay_rejected :
  codec_keeps_signature →
  ∀ (R1 R2 : Request) (db1 db2 : Database) (src1 src2 : option string)
    (p1 p2 : Parameters) since until scope page limit events token source other,
    read R1 = Ok p1 →
    handle R1 db1 src1
    = Json200 since until scope page limit events (Some token) source other →
    authorized R2 →
    read R2 = Ok p2 →
    q_cursor R2 = Some (QStr token) →
    sign (p_filters p2) ≠ sign (p_filters p1) →
    ∃ message, handle R2 db2 src2 = BadRequest message.
Proof.
  intros Hcodec R1 R2 db1 db2 src1 src2 p1 p2 since until scope page limit events token
    source other Hp1 Hissued Hauth Hp2 Htoken Hsig.
  destruct (issued_cursor _ _ _ _ _ _ _ _ _ _ _ _ _ Hp1 Hissued) as (c & -> & Hc).
  destruct (decode (encode c)) as [c'|message] eqn:Hdec.
  - eexists. eapply mismatch_rejected; try done.
    rewrite (decode_encode_signature c c' Hcodec Hdec), Hc. congruence.
  - exists message. rewrite handle_authorized by done.
    destruct (read_parameters_cursorRaw R2 p2 Hp2) as [Hcr Hne].
    rewrite Htoken in Hcr. simpl in Hcr.
    unfold validate. rewrite Hp2. cbn [mbind result_bind]. rewrite Hcr.
    destruct (encode c) as [|a raw] eqn:Henc; [by rewrite Hcr in Hne|].
    cbn [bound_cursor]. by rewrite Hdec.
Qed.

(** The hash does not collide on the texts of two filter sets. *)
Definition no_collision (f g : EngagementFilters) : Prop :=
  sha256_hex (normalized_json f) = sha256_hex (normalized_json g) →
  normalized_json f = normalized_json g.

(** Filter sets that differ in a field have different signatures, unless
    the hash collides on their texts. *)
Lemma different_filters_different_signature (f g : EngagementFilters) :
  no_collision f g → ¬ same_filters f g → sign f ≠ sign g.
Proof.
  intros Hhash Hdiff Hsig. by apply Hdiff, normalized_json_inj, Hhash.
Qed.

(** C6.  An authorized request whose cursor decodes to a signature other
    than the hash of its own filter set is answered 400 with the message
    that the cursor does not match the request filters, and selects no
    page.  Hence, with a codec that gives back what it encoded, a
    next_cursor issued for one request is answered 400 by every request
    whose filter set has a different signature; and filter sets that
    differ in any field (the types as a set) have different signatures
    unless the hash collides on them. *)
Theorem cursor_bound_to_filters :
  (∀ (req : Request) (db : Database) (src : option string)
     (p : Parameters) (raw : string) (cur : EngagementCursor),
     authorized req →
     read req = Ok p →
     q_cursor req = Some (QStr raw) →
     decode raw = Ok cur →
     filter_sig cur ≠ sign (p_filters p) →
     handle req db src = BadRequest "cursor does not match request filters")
  ∧ (codec_keeps_signature →
     ∀ (R1 R2 : Request) (db1 db2 : Database) (src1 src2 : option string)
       (p1 p2 : Parameters) since until scope page limit events token source other,
       read R1 = Ok p1 →
       handle R1 db1 src1
       = Json200 since until scope page limit events (Some token) source other →
       authorized R2 →
       read R2 = Ok p2 →
       q_cursor R2 = Some (QStr token) →
       sign (p_filters p2) ≠ sign (p_filters p1) →
       ∃ message, handle R2 db2 src2 = BadRequest message)
  ∧ (codec_keeps_signature →
     ∀ (R1 R2 : Request) (db1 db2 : Database) (src1 src2 : option string)
       (p1 p2 : Parameters) since until scope page limit events token source other,
       read R1 = Ok p1 →
       handle R1 db1 src1
       = Json200 since until scope page limit events (Some token) source other →
       authorized R2 →
       read R2 = Ok p2 →
       q_cursor R2 = Some (QStr token) →
       ¬ same_filters (p_filters p2) (p_filters p1) →
       no_collision (p_filters p2) (p_filters p1) →
       ∃ message, handle R2 db2 src2 = BadRequest message).
Proof.
  split; [apply mismatch_rejected|]. split; [apply replay_rejected|].
  intros Hcodec R1 R2 db1 db2 src1 src2 p1 p2 since until scope page limit events token
    source other Hp1 Hissued Hauth Hp2 Htoken Hdiff Hhash.
  eapply (replay_rejected Hcodec R1 R2 db1 db2 src1 src2); try done.
  by apply different_filters_different_signature.
Qed.

End Binding.

(** *** A stale cursor *)

(** Stand-ins for the external functions: dates and hashes are taken as
    they are, and the only token that parses is one that carries the
    signature ["0000"]. *)
Definition plain_date (raw : string) : option string := Some raw.
Definition plain_hash (json : string) : string := json.
Definition plain_encode (json : string) : string := json.
Definition one_token (raw : string) : option Json :=
  if String.eqb raw "stale-token"
  then Some (JObject [ ("created_at", MString noon); ("event_uri", MString reply_uri);
                       ("filter_sig", MString "0000") ])
  else None.

Definition stale_request : Request :=
  {| api_key := Some "secret";
     q_cursor := Some (QStr "stale-token");
     q_other_cursor := None; q_since := None; q_until := None; q_scope := None;
     q_page := None; q_limit := None; q_subscriber_did := None;
     q_include_other_subscriber_activity := None; q_types := None |}.

(** *** A replayed cursor *)

(** Two likes on a publisher post, an hour apart. *)
Definition two_likes : Database :=
  {| post := [];
     engagement :=
       [ Engagement.mk "at://did:plc:alice/app.bsky.feed.like/3ka" "bafy-a" news_root "bafy-n" 2
           noon noon "did:plc:alice";
         Engagement.mk "at://did:plc:bob/app.bsky.feed.like/3kb" "bafy-b" news_root "bafy-n" 2
           "2026-02-02T13:00:00.000Z" "2026-02-02T13:00:00.000Z" "did:plc:bob" ];
     follows := [];
     subscriber := [] |}.

(** The first request asks for pages of one event. *)
Definition first_request : Request :=
  {| api_key := Some "secret"; q_cursor := None;
     q_other_cursor := None; q_since := None; q_until := None; q_scope := None;
     q_page := None; q_limit := Some (QStr "1"); q_subscriber_did := None;
     q_include_other_subscriber_activity := None; q_types := None |}.

(** The cursor its response carries. *)
Definition issued : EngagementCursor :=
  {| cur_created_at := "2026-02-02T13:00:00.000Z";
     cur_event_uri := "at://did:plc:bob/app.bsky.feed.like/3kb";
     filter_sig :=
       buildFilterSignature plain_hash
         {| since := "2026-02-02T00:00:00.000Z"; until := "2026-02-03T00:00:00.000Z";
            scope := scope_union; limit := 1; types := [like; repost; comment; quote];
            subscriberDid := None; includeOtherSubscriberActivity := false |} |}.

Definition issued_token : string := encodeEngagementCursor plain_encode issued.

(** A decoder that reads the issued token and nothing else. *)
Definition read_issued (raw : string) : option Json :=
  if String.eqb raw issued_token
  then Some (JObject [ ("created_at", MString (cur_created_at issued));
                       ("event_uri", MString (cur_event_uri issued));
                       ("filter_sig", MString (filter_sig issued)) ])
  else None.

(** The second request replays the token and asks for pages of two. *)
Definition replayed_request : Request :=
  {| api_key := Some "secret"; q_cursor := Some (QStr issued_token);
     q_other_cursor := None; q_since := None; q_until := None; q_scope := None;
     q_page := None; q_limit := Some (QStr "2"); q_subscriber_did := None;
     q_include_other_subscriber_activity := None; q_types := None |}.

Lemma read_issued_keeps_signature : codec_keeps_signature plain_encode read_issued.
Proof.
  intros c j. unfold read_issued.
  destruct (String.eqb_spec (encodeEngagementCursor plain_encode c) issued_token) as [Heq|];
    [|done].
  intros [= <-]. apply cursor_json_inj in Heq. by subst.
Qed.

Example first_page_issues_token :
  ∃ events,
    handleEngagementExport (Some "secret") ["did:plc:news"]
      "2026-02-02T00:00:00.000Z" "2026-02-03T00:00:00.000Z"
      plain_date plain_hash plain_encode read_issued first_request two_likes None
    = Json200 "2026-02-02T00:00:00.000Z" "2026-02-03T00:00:00.000Z" scope_union 0 1
        events (Some issued_token) None None
    ∧ ev_event_uri <$> events = ["at://did:plc:bob/app.bsky.feed.like/3kb"].
Proof. eexists. split; vm_compute; reflexivity. Qed.

Lemma cursor_bound_to_filters_witness :
  handleEngagementExport (Some "secret") ["did:plc:news"]
    "2026-02-02T00:00:00.000Z" "2026-02-03T00:00:00.000Z"
    plain_date plain_hash plain_encode one_token stale_request (reply_store []) None
  = BadRequest "cursor does not match request filters"
  ∧ ∃ message,
      handleEngagementExport (Some "secret") ["did:plc:news"]
        "2026-02-02T00:00:00.000Z" "2026-02-03T00:00:00.000Z"
        plain_date plain_hash plain_encode read_issued replayed_request two_likes None
      = BadRequest message.
Proof.
  split.
  - eapply (proj1 (cursor_bound_to_filters (Some "secret") ["did:plc:news"]
                     "2026-02-02T00:00:00.000Z" "2026-02-03T00:00:00.000Z"
                     plain_date plain_hash plain_encode one_token)
              stale_request (reply_store []) None _ "stale-token").
    + exists "secret". repeat split. discriminate.
    + vm_compute. reflexivity.
    + reflexivity.
    + vm_compute. reflexivity.
    + vm_compute. discriminate.
  - eapply (proj2 (proj2 (cursor_bound_to_filters (Some "secret") ["did:plc:news"]
                            "2026-02-02T00:00:00.000Z" "2026-02-03T00:00:00.000Z"
                            plain_date plain_hash plain_encode read_issued))
              read_issued_keeps_signature first_request replayed_request
              two_likes two_likes None None).
    + vm_compute. reflexivity.
    + vm_compute. reflexivity.
    + exists "secret". repeat split. discriminate.
    + vm_compute. reflexivity.
    + reflexivity.
    + intros (_ & _ & _ & H & _). vm_compute in H. discriminate.
    + intros H. exact H.
Defined.

(** Without a cursor the same request is answered with its page. *)
Example first_page_served :
  ∃ events,
    handleEngagementExport (Some "secret") ["did:plc:news"]
      "2026-02-02T00:00:00.000Z" "2026-02-03T00:00:00.000Z"
      plain_date plain_hash plain_encode one_token
      {| api_key := Some "secret"; q_cursor := None;
         q_other_cursor := None; q_since := None; q_until := None; q_scope := None;
         q_page := None; q_limit := None; q_subscriber_did := None;
         q_include_other_subscriber_activity := None; q_types := None |}
      (reply_store []) None
    = Json200 "2026-02-02T00:00:00.000Z" "2026-02-03T00:00:00.000Z" scope_union 0 1000
        events None None None
    ∧ ev_type <$> events = [Some comment].
Proof. eexists. split; vm_compute; reflexivity. Qed.

End ComplianceExportFacts.

(** ** Lists: pages, filters and sorted lists *)

Module ListFacts.

Lemma elem_of_page {A} (x : A) (n m : nat) (l : list A) :
  x ∈ take n (drop m l) → x ∈ l.
Proof. intros H. by apply (subseteq_drop m), (subseteq_take n). Qed.

Lemma page_sublist {A} (n m : nat) (l : list A) : take n (drop m l) `sublist_of` l.
Proof. etrans; [apply sublist_take|apply sublist_drop]. Qed.

Lemma NoDup_page {A} (n m : nat) (l : list A) : NoDup l → NoDup (take n (drop m l)).
Proof. intros H. eapply sublist_NoDup; [done|apply page_sublist]. Qed.



Lemma filter_fmap_same {A} (g : A → A) (P : A → Prop) `{∀ x, Decision (P x)} (l : list A) :
  (∀ x, P (g x) ↔ P x) → filter P (g <$> l) = g <$> filter P l.
Proof.
  intros Hg. induction l as [|x l IH]; [done|]. rewrite fmap_cons, !filter_cons.
  destruct (decide (P (g x))) as [Hx|Hx], (decide (P x)) as [Hx'|Hx'].
  - by rewrite fmap_cons, IH.
  - destruct Hx'. by apply Hg.
  - destruct Hx. by apply Hg.
  - done.
Qed.

Lemma StronglySorted_page {A} (R : relation A) (n m : nat) (l : list A) :
  StronglySorted R l → StronglySorted R (take n (drop m l)).
Proof.
  intros H. rewrite <- (take_drop m l) in H. apply StronglySorted_app_1_r in H.
  rewrite <- (take_drop n (drop m l)) in H. by apply StronglySorted_app_1_l in H.
Qed.

Lemma StronglySorted_lookup {A} (R : relation A) (l : list A) (i j : nat) (a b : A) :
  StronglySorted R l → l !! i = Some a → l !! j = Some b → (i < j)%nat → R a b.
Proof.
  intros H Ha Hb Hij. rewrite <- (take_drop j l) in H.
  eapply StronglySorted_app_1_elem_of; [done| |].
  - apply elem_of_take. eauto.
  - apply list_elem_of_lookup. exists 0%nat. by rewrite lookup_drop, Nat.add_0_r.
Qed.


End ListFacts.

(** ** Post uris *)

Module PostUriFacts.
Import AtUri AtUriFacts.

Lemma strip_prefix_Some (p s r : string) : strip_prefix p s = Some r ↔ s = p +:+ r.
Proof.
  revert s. induction p as [|a p IH]; intros s; simpl.
  - split; [by intros [= ->]|by intros ->].
  - destruct s as [|b s].
    + split; [done|]. intros H. discriminate.
    + destruct (Ascii.eqb_spec a b) as [->|Hne].
      * rewrite IH. split; [by intros ->|]. by intros [= ->].
      * split; [done|]. intros [= ? ?]. by subst.
Qed.

Definition slash_free (d : string) : Prop := ∀ i, String.get i d ≠ Some "/"%char.

Lemma span_non_slash_split (s a r : string) :
  span_non_slash s = (a, r) → s = a +:+ r ∧ slash_free a.
Proof.
  revert a r. induction s as [|c s IH]; intros a r; simpl.
  - intros [= <- <-]. split; [done|]. by intros [|i].
  - destruct (Ascii.eqb_spec c "/") as [->|Hc].
    + intros [= <- <-]. split; [done|]. by intros [|i].
    + destruct (span_non_slash s) as [a' r'] eqn:E. intros [= <- <-].
      destruct (IH _ _ eq_refl) as [-> Hfree]. split; [done|].
      intros [|i]; simpl; [congruence|apply Hfree].
Qed.

(** X1.  [isPostUri] accepts exactly the uris
    [at://<authority>/app.bsky.feed.post/<rest>] with a non-empty
    authority that holds no slash. *)
Theorem isPostUri_iff (u : string) :
  isPostUri u = true ↔
  ∃ d rest, d ≠ "" ∧ slash_free d
            ∧ u = "at://" +:+ (d +:+ ("/app.bsky.feed.post/" +:+ rest)).
Proof.
  unfold isPostUri, match_authority. split.
  - destruct (strip_prefix "at://" u) as [s|] eqn:Hs; [|done].
    apply strip_prefix_Some in Hs as ->.
    destruct (span_non_slash s) as [a r] eqn:Hspan.
    apply span_non_slash_split in Hspan as [-> Hfree].
    destruct a as [|c a]; [done|]. destruct r as [|c' r]; [done|].
    intros H. apply bool_decide_eq_true in H as [rest H].
    apply strip_prefix_Some in H. exists (String c a), rest. by rewrite H.
  - intros (d & rest & Hne & Hfree & ->).
    change (strip_prefix "at://" ("at://" +:+ (d +:+ ("/app.bsky.feed.post/" +:+ rest))))
      with (Some (d +:+ String "/" ("app.bsky.feed.post/" +:+ rest))).
    cbv beta iota. rewrite span_non_slash_app by done.
    destruct d as [|c d]; [done|]. apply bool_decide_eq_true.
    exists rest. by apply strip_prefix_Some.
Qed.

End PostUriFacts.

(** ** What an event writes *)

Module HandleEventFacts.
Import AtUri AtUriFacts Ingestion IngestionFacts.

(** *** The quote gate *)

(** X2.  A quote passes the storage gate exactly when the quoted uri is a post
    uri and scoped ingestion is off, or tracking is on and the author is
    a subscriber, or the quoted post is a publisher's. *)
Theorem shouldStoreQuoteEngagement_iff
    (flags : Flags) (sc : IngestionScope) (author : string) (subjectUri : option string) :
  shouldStoreQuoteEngagement flags sc author subjectUri = true ↔
  ∃ u, subjectUri = Some u ∧ isPostUri u = true ∧
    ( FEEDGEN_SCOPED_INGESTION flags = false
      ∨ (FEEDGEN_TRACK_SUBSCRIBER_ACTIVITY flags = true ∧ author ∈ subscriberDids sc)
      ∨ (∃ d, didFromAtUri (Some u) = Some d ∧ d ∈ publisherDids sc) ).
Proof.
  unfold shouldStoreQuoteEngagement.
  destruct (not_a_post subjectUri) eqn:Hpost.
  { split; [done|]. intros (u & -> & Hu & _).
    assert (not_a_post (Some u) = false) by (apply not_a_post_false; eauto).
    congruence. }
  apply not_a_post_false in Hpost as (u & -> & Hu).
  unfold scope, trackSubscriberActivity, restrictPublisherEngagementToSubscribers,
    scopedIngestion.
  destruct (FEEDGEN_SCOPED_INGESTION flags) eqn:Hsc; cbn [negb andb orb].
  2:{ split; [|done]. intros _. exists u. eauto. }
  destruct (FEEDGEN_TRACK_SUBSCRIBER_ACTIVITY flags) eqn:Ht; cbn [negb andb orb].
  - destruct (has (subscriberDids sc) author) eqn:Hs.
    + apply has_true in Hs. split; [|done]. intros _. exists u. eauto 10.
    + destruct (has_did _ _) eqn:Hp.
      * apply has_did_from_uri in Hp. split; [|done]. intros _. exists u. eauto 10.
      * split; [done|]. intros (u' & [= <-] & _ & [?|[[_ H]|H]]); [done| |].
        -- apply has_true in H. congruence.
        -- apply has_did_from_uri in H. congruence.
  - destruct (has_did _ _) eqn:Hp.
    + apply has_did_from_uri in Hp. split; [|done]. intros _. exists u. eauto 10.
    + split; [done|]. intros (u' & [= <-] & _ & [?|[[? _]|H]]); [done|done|].
      apply has_did_from_uri in H. congruence.
Qed.

(** *** What the projector writes *)

Definition nul_free (s : string) : Prop := ∀ i, String.get i s ≠ Some "000"%char.



Lemma strip_nul_id (s : string) : nul_free s → strip_nul s = s.
Proof.
  induction s as [|c s IH]; intros H; simpl; [done|].
  destruct (Ascii.eqb_spec c "000") as [->|Hc].
  - by specialize (H 0%nat).
  - f_equal. apply IH. intros i. apply (H (S i)).
Qed.







(** *** Primary keys *)




Definition reply_twice : OperationsByType :=
  {| posts := mkOperations [bob_reply; bob_reply] [];
     reposts := mkOperations [] [];
     likes := mkOperations [] [] |}.


Example reply_twice_effect :
  Post.uri <$> post (handleEvent scoped_flags alice_only "2026-02-02T00:00:00.000Z"
                       reply_twice store_with_quote)
  = ["at://did:plc:bob/app.bsky.feed.post/3kdef"].
Proof. vm_compute. reflexivity. Qed.

End HandleEventFacts.

(** ** The cached ingestion scope *)

Module ScopeCacheFacts.
Import AtUri AtUriFacts Ingestion IngestionFacts ProcessEnv ScopeCache.

Lemma refresh_publishers env db :
  publisherDids (refresh env db) = list_to_set (getPublisherDidsFromEnv env)
  ∧ publisherDids (refresh env db) ⊆ allowlistedAuthorDids (refresh env db).
Proof. unfold refresh; simpl. split; [done|set_solver]. Qed.

(** The cache only ever holds scopes the refresh built. *)
Definition well_formed (env : ProcessEnv.t) (cached : option CachedScope) : Prop :=
  match cached with
  | Some c => ∃ db, cached_scope c = refresh env db
  | None => True
  end.

Lemma getIngestionScope_well_formed env now loadedAt db cached :
  well_formed env cached →
  (∃ db', fst (getIngestionScope env now loadedAt db cached) = refresh env db')
  ∧ well_formed env (snd (getIngestionScope env now loadedAt db cached)).
Proof.
  unfold getIngestionScope. destruct cached as [c|]; simpl.
  - intros [db' Hc]. case_bool_decide; simpl; eauto.
  - intros _. eauto.
Qed.

Lemma served_refreshed env calls cached :
  well_formed env cached →
  Forall (λ sc, ∃ db, sc = refresh env db) (served env calls cached).
Proof.
  revert cached. induction calls as [|c calls IH]; intros cached Hwf; simpl; [done|].
  destruct (getIngestionScope_well_formed env (call_now c) (call_loadedAt c) (call_db c)
              cached Hwf) as [Hsc Hwf'].
  destruct (getIngestionScope _ _ _ _ _) as [sc cached']. simpl in *.
  constructor; [done|]. by apply IH.
Qed.

(** X6.  Whatever the sequence of calls from a cold cache, every scope served
    has the configured publishers as its publisher set, allowlists each of
    them, and holds no subscriber when neither subscriber switch is on;
    so under every such scope a post authored by a configured publisher
    passes [shouldStorePost]. *)
Theorem served_scopes_allowlist_publishers (env : ProcessEnv.t) (calls : list Call) :
  Forall (λ sc,
            publisherDids sc = list_to_set (getPublisherDidsFromEnv env)
            ∧ publisherDids sc ⊆ allowlistedAuthorDids sc
            ∧ (trackSubscriberActivityEnabled env = false →
               restrictPublisherEngagementToSubscribersEnabled env = false →
               subscriberDids sc = ∅)
            ∧ ∀ create : CreateOp PostRecord,
                c_author create ∈ getPublisherDidsFromEnv env →
                shouldStorePost (flags env) sc create = true)
         (served env calls None).
Proof.
  eapply Forall_impl; [by apply served_refreshed|]. intros sc [db ->].
  destruct (refresh_publishers env db) as [Hpub Hsub].
  split; [done|]. split; [done|]. split.
  - intros Ht Hr. unfold refresh; simpl. by rewrite Ht, Hr.
  - intros create Hc. apply shouldStorePost_iff. right. left.
    apply Hsub. rewrite Hpub. by apply elem_of_list_to_set.
Qed.


Definition one_publisher : ProcessEnv.t := [("NEWSBOT_UK_DID", "did:plc:news")].

Definition following (dids : list string) : Database :=
  {| post := []; engagement := [];
     follows := (λ did, Follows.mk "did:plc:reader" did) <$> dids;
     subscriber := [] |}.


Example refresh_interval_elapsed :
  allowlistRefreshMs one_publisher = 60000
  ∧ "did:plc:b" ∈ allowlistedAuthorDids
                    (fst (getIngestionScope one_publisher 61000 61500
                            (following ["did:plc:a"; "did:plc:b"])
                            (Some (mkCached 1000
                                     (refresh one_publisher (following ["did:plc:a"]))))))
  ∧ "did:plc:b" ∉ allowlistedAuthorDids
                    (fst (getIngestionScope one_publisher 31000 31500
                            (following ["did:plc:a"; "did:plc:b"])
                            (Some (mkCached 1000
                                     (refresh one_publisher (following ["did:plc:a"])))))).
Proof. split; [done|]. split; vm_compute; set_solver. Qed.

End ScopeCacheFacts.

(** ** The aggregator: what a run leaves alone, and running twice *)

Module AggregatorFrameFacts.
Import ListFacts Aggregator AggregatorFacts.

(** *** What a run leaves alone *)

(** Two post rows that agree on every column but the three counts the
    aggregator writes. *)
Definition same_but_counts (p p' : Post.t) : Prop :=
  Post.uri p' = Post.uri p ∧ Post.cid p' = Post.cid p
  ∧ Post.indexedAt p' = Post.indexedAt p ∧ Post.createdAt p' = Post.createdAt p
  ∧ Post.author p' = Post.author p ∧ Post.text p' = Post.text p
  ∧ Post.rootUri p' = Post.rootUri p ∧ Post.rootCid p' = Post.rootCid p
  ∧ Post.linkUrl p' = Post.linkUrl p ∧ Post.linkTitle p' = Post.linkTitle p
  ∧ Post.linkDescription p' = Post.linkDescription p
  ∧ Post.priority p' = Post.priority p ∧ Post.quote_count p' = Post.quote_count p.

Lemma recount_in_same m1 m2 m3 uris p : same_but_counts p (recount_in m1 m2 m3 uris p).
Proof. unfold recount_in. case_bool_decide; by repeat split. Qed.

Lemma updateEngagement_posts (env : Env) (db : Database) :
  ∃ m1 m2 m3 uris,
    (uris = [] ∨ uris = postUris env db)
    ∧ post (updateEngagement env db) = recount_in m1 m2 m3 uris <$> post db.
Proof.
  destruct chunk_sizes_pos as [Hcs Hbs].
  unfold updateEngagement. rewrite updateEngagementWith_unchunked by done.
  unfold updateEngagement_unchunked.
  assert (Hid : ∀ m, post db = recount_in m m m [] <$> post db).
  { intros m. rewrite <- update_batch_spec. by rewrite update_batch_nil. }
  repeat case_bool_decide.
  - exists ∅, ∅, ∅, []. split; [by left|apply Hid].
  - exists ∅, ∅, ∅, []. split; [by left|apply Hid].
  - do 4 eexists. split; [by right|]. cbn [post]. by rewrite update_batch_spec.
Qed.

(** X8.  A run keeps the post rows in place: row by row, every column other
    than [likes_count], [repost_count] and [comments_count] is what it
    was, and a row whose uri is not a candidate's is untouched.  The
    other three tables are not written. *)
Theorem updateEngagement_frame (env : Env) (db : Database) :
  Forall2 (λ p p', same_but_counts p p' ∧ (Post.uri p ∉ postUris env db → p' = p))
    (post db) (post (updateEngagement env db))
  ∧ engagement (updateEngagement env db) = engagement db
  ∧ follows (updateEngagement env db) = follows db
  ∧ subscriber (updateEngagement env db) = subscriber db.
Proof.
  split.
  - destruct (updateEngagement_posts env db) as (m1 & m2 & m3 & uris & Huris & ->).
    apply Forall2_fmap_r, Forall_Forall2_diag, Forall_forall. intros p _.
    split; [apply recount_in_same|]. intros Hp. unfold recount_in.
    rewrite bool_decide_eq_false_2; [done|]. destruct Huris as [->| ->]; set_solver.
  - destruct chunk_sizes_pos as [Hcs Hbs].
    unfold updateEngagement. rewrite updateEngagementWith_unchunked by done.
    unfold updateEngagement_unchunked. repeat case_bool_decide; done.
Qed.

(** *** Running twice *)

Section Twice.
Variables (env : Env) (db : Database).
Variables m1 m2 m3 : gmap string Z.
Variable uris : list string.

(** The store after the [UPDATE]s of a run. *)
Definition updated : Database :=
  {| post := recount_in m1 m2 m3 uris <$> post db;
     engagement := engagement db; follows := follows db; subscriber := subscriber db |}.

Lemma recount_in_uri p : Post.uri (recount_in m1 m2 m3 uris p) = Post.uri p.
Proof. unfold recount_in. by case_bool_decide. Qed.

Lemma recount_in_author p : Post.author (recount_in m1 m2 m3 uris p) = Post.author p.
Proof. unfold recount_in. by case_bool_decide. Qed.

Lemma recount_in_indexedAt p : Post.indexedAt (recount_in m1 m2 m3 uris p) = Post.indexedAt p.
Proof. unfold recount_in. by case_bool_decide. Qed.

Lemma recount_in_rootUri p : Post.rootUri (recount_in m1 m2 m3 uris p) = Post.rootUri p.
Proof. unfold recount_in. by case_bool_decide. Qed.

Lemma recount_in_twice p :
  recount_in m1 m2 m3 uris (recount_in m1 m2 m3 uris p) = recount_in m1 m2 m3 uris p.
Proof.
  unfold recount_in. destruct (decide (Post.uri p ∈ uris)) as [H|H].
  - rewrite (bool_decide_eq_true_2 _ H). cbn [Post.uri recount].
    by rewrite (bool_decide_eq_true_2 _ H).
  - by rewrite !(bool_decide_eq_false_2 _ H).
Qed.

Lemma recentPosts_updated :
  recentPosts env updated = recount_in m1 m2 m3 uris <$> recentPosts env db.
Proof.
  unfold recentPosts, accountsToCheck, followsList. cbn [post follows updated].
  apply filter_fmap_same. intros p. by rewrite recount_in_author, recount_in_indexedAt.
Qed.

Lemma postUris_updated : postUris env updated = postUris env db.
Proof.
  unfold postUris. rewrite recentPosts_updated, <- list_fmap_compose.
  apply list_fmap_ext. intros _ p _. apply recount_in_uri.
Qed.

Lemma publisherPostUris_updated : publisherPostUris env updated = publisherPostUris env db.
Proof.
  unfold publisherPostUris. rewrite recentPosts_updated.
  rewrite filter_fmap_same by (intros p; by rewrite recount_in_author).
  rewrite <- list_fmap_compose. apply list_fmap_ext. intros _ p _. apply recount_in_uri.
Qed.

Lemma otherPostUris_updated : otherPostUris env updated = otherPostUris env db.
Proof.
  unfold otherPostUris. rewrite recentPosts_updated.
  rewrite filter_fmap_same by (intros p; by rewrite recount_in_author).
  rewrite <- list_fmap_compose. apply list_fmap_ext. intros _ p _. apply recount_in_uri.
Qed.

Lemma engagementCounts_updated ty so chunk :
  engagementCounts updated ty so chunk = engagementCounts db ty so chunk.
Proof. done. Qed.

Lemma commentCounts_updated so chunk :
  commentCounts updated so chunk = commentCounts db so chunk.
Proof.
  unfold commentCounts, subscriberDids. cbn [post subscriber updated]. f_equal.
  rewrite filter_fmap_same by (intros p; by rewrite recount_in_author, recount_in_rootUri).
  rewrite <- list_fmap_compose. apply list_fmap_ext. intros _ p _. apply recount_in_rootUri.
Qed.

End Twice.

(** X9.  A second run right after a run, with the same window and no event
    in between, changes nothing. *)
Theorem updateEngagement_idempotent (env : Env) (db : Database) :
  updateEngagement env (updateEngagement env db) = updateEngagement env db.
Proof.
  destruct chunk_sizes_pos as [Hcs Hbs].
  unfold updateEngagement. rewrite !updateEngagementWith_unchunked by done.
  unfold updateEngagement_unchunked at 2.
  case_bool_decide as Hf.
  { unfold updateEngagement_unchunked. by rewrite bool_decide_eq_true_2. }
  case_bool_decide as Hp.
  { unfold updateEngagement_unchunked.
    by rewrite bool_decide_eq_false_2, bool_decide_eq_true_2. }
  rewrite update_batch_spec.
  set (m1 := likesMap_unchunked env db). set (m2 := repostsMap_unchunked env db).
  set (m3 := commentsMap_unchunked env db). set (uris := postUris env db).
  change (mkDatabase _ _ _ _) with (updated db m1 m2 m3 uris).
  unfold updateEngagement_unchunked.
  rewrite postUris_updated.
  change (followsList (updated db m1 m2 m3 uris)) with (followsList db).
  rewrite bool_decide_eq_false_2, bool_decide_eq_false_2 by done.
  unfold likesMap_unchunked, repostsMap_unchunked, commentsMap_unchunked,
    otherResult_unchunked, publisherResult_unchunked.
  rewrite otherPostUris_updated, publisherPostUris_updated.
  change (subscriberDids (updated db m1 m2 m3 uris)) with (subscriberDids db).
  change (engagementCounts (updated db m1 m2 m3 uris)) with (engagementCounts db).
  rewrite !commentCounts_updated.
  cbn [post engagement follows subscriber updated]. f_equal.
  rewrite !update_batch_spec, <- list_fmap_compose.
  apply list_fmap_ext. intros _ p _. cbn [compose].
  subst m1 m2 m3 uris.
  unfold likesMap_unchunked, repostsMap_unchunked, commentsMap_unchunked,
    otherResult_unchunked, publisherResult_unchunked.
  apply recount_in_twice.
Qed.

End AggregatorFrameFacts.

(** ** The feed builder: page sizes and following the cursor *)

Module FeedPagingFacts.
Import Feed FeedFacts.

(** *** The cursor read back *)

(** The number a run of decimal digits denotes, from [acc]. *)
Fixpoint uint_value (acc : Z) (d : Decimal.uint) : Z :=
  match d with
  | Decimal.Nil => acc
  | Decimal.D0 d => uint_value (10 * acc + 0) d
  | Decimal.D1 d => uint_value (10 * acc + 1) d
  | Decimal.D2 d => uint_value (10 * acc + 2) d
  | Decimal.D3 d => uint_value (10 * acc + 3) d
  | Decimal.D4 d => uint_value (10 * acc + 4) d
  | Decimal.D5 d => uint_value (10 * acc + 5) d
  | Decimal.D6 d => uint_value (10 * acc + 6) d
  | Decimal.D7 d => uint_value (10 * acc + 7) d
  | Decimal.D8 d => uint_value (10 * acc + 8) d
  | Decimal.D9 d => uint_value (10 * acc + 9) d
  end.

Lemma digits_uint (acc : option Z) (d : Decimal.uint) :
  d ≠ Decimal.Nil →
  digits acc (NilEmpty.string_of_uint d) = Some (uint_value (default 0 acc) d).
Proof.
  assert (H : ∀ d acc, digits (Some acc) (NilEmpty.string_of_uint d) = Some (uint_value acc d)).
  { clear. induction d; intros acc; simpl; try done; apply IHd. }
  destruct d; try done; intros _; simpl; apply H.
Qed.

Lemma uint_value_acc (acc : positive) (d : Decimal.uint) :
  uint_value (Z.pos acc) d = Z.pos (Pos.of_uint_acc d acc).
Proof.
  revert acc. induction d; intros acc; simpl; try done;
    rewrite <- IHd; f_equal; lia.
Qed.

Lemma uint_value_0 (d : Decimal.uint) : uint_value 0 d = Z.of_N (Pos.of_uint d).
Proof.
  induction d; simpl; try done;
    match goal with
    | |- uint_value (10 * 0 + ?k) _ = _ =>
        change (10 * 0 + k) with k; apply (uint_value_acc (Z.to_pos k))
    end.
Qed.

Lemma digits_to_uint (p : positive) :
  digits None (NilEmpty.string_of_uint (Pos.to_uint p)) = Some (Z.pos p).
Proof.
  rewrite digits_uint by apply Unsigned.to_uint_nonnil. simpl.
  by rewrite uint_value_0, Unsigned.of_to.
Qed.

Lemma parseInt_reads_toString (z : Z) : parseInt (toString (Int z)) = Int z.
Proof.
  unfold toString, parseInt. destruct z as [|p|p]; [done| |].
  - cbn [Z.to_int NilZero.string_of_int]. unfold NilZero.string_of_uint.
    pose proof (Unsigned.to_uint_nonnil p) as Hnil.
    pose proof (digits_to_uint p) as Hd.
    destruct (Pos.to_uint p); try done;
      cbn [NilEmpty.string_of_uint skip_white_space] in *;
      (change (is_white_space _) with false); cbv iota; rewrite Hd; f_equal; lia.
  - cbn [Z.to_int NilZero.string_of_int]. unfold NilZero.string_of_uint.
    pose proof (Unsigned.to_uint_nonnil p) as Hnil.
    pose proof (digits_to_uint p) as Hd.
    destruct (Pos.to_uint p); try done;
      cbn [NilEmpty.string_of_uint skip_white_space] in *;
      (change (is_white_space _) with false); cbv iota; rewrite Hd; f_equal; lia.
Qed.


(** *** Pages *)

Lemma interleave_Permutation {A} (ps os : list A) : interleave ps os ≡ₚ ps ++ os.
Proof.
  revert os. induction ps as [|p ps IH]; intros os; [done|].
  destruct os as [|o1 [|o2 os]]; simpl.
  - by rewrite app_nil_r.
  - constructor. apply Permutation_cons_append.
  - constructor. by rewrite IH, <- !Permutation_middle.
Qed.

Lemma interleave_length {A} (ps os : list A) :
  length (interleave ps os) = (length ps + length os)%nat.
Proof. by rewrite interleave_Permutation, length_app. Qed.

Lemma paged_Some (ranked : list Post.t) (off : number) (lim : Z) (rows : list Post.t) :
  paged ranked off lim = Some rows →
  ∃ o, off = Int o ∧ 0 ≤ o ∧ 0 ≤ lim
       ∧ rows = take (Z.to_nat lim) (drop (Z.to_nat o) ranked).
Proof.
  unfold paged. destruct off as [o|]; [|done]. case_bool_decide as H; [|done].
  intros [= <-]. exists o. tauto.
Qed.

Lemma buildFeed_paged (params : QueryParams) (rankedPublisher rankedFollows : list Post.t)
    (out : AlgoOutput) :
  buildFeed params (paged rankedPublisher) (paged rankedFollows) = Returned out →
  ∃ off,
    cursorOffset params = Int off ∧ 0 ≤ off ∧ 0 ≤ limit params / 3
    ∧ out
      = {| out_cursor :=
             let publisherPosts :=
               take (Z.to_nat (limit params / 3)) (drop (Z.to_nat off) rankedPublisher) in
             let otherPosts :=
               take (Z.to_nat (limit params / 3 * 2)) (drop (Z.to_nat off) rankedFollows) in
             if bool_decide (0 < length publisherPosts + length otherPosts)%nat
             then Some (toString (Int (off + limit params / 3 * 2))) else None;
           feed :=
             skeleton <$>
               interleave
                 (take (Z.to_nat (limit params / 3)) (drop (Z.to_nat off) rankedPublisher))
                 (take (Z.to_nat (limit params / 3 * 2))
                    (drop (Z.to_nat off) rankedFollows)) |}.
Proof.
  intros H.
  destruct (paged rankedPublisher (cursorOffset params) (limit params / 3))
    as [pubs|] eqn:Hp; [|by unfold buildFeed in H; rewrite Hp in H].
  destruct (paged rankedFollows (cursorOffset params) (limit params / 3 * 2))
    as [others|] eqn:Ho; [|by unfold buildFeed in H; rewrite Hp, Ho in H].
  rewrite (buildFeed_returns _ _ _ _ _ Hp Ho) in H. injection H as <-.
  apply paged_Some in Hp as (off & Hoff & Hge & Hl & ->).
  apply paged_Some in Ho as (off' & Hoff' & _ & _ & ->).
  assert (off' = off) as -> by congruence.
  exists off. rewrite merged_interleave, Hoff. done.
Qed.

(** X11.  A page never holds more posts than were asked for: at most
    [floor(limit / 3)] publisher posts and twice as many others. *)
Theorem buildFeed_page_size (params : QueryParams)
    (rankedPublisher rankedFollows : list Post.t) (out : AlgoOutput) :
  buildFeed params (paged rankedPublisher) (paged rankedFollows) = Returned out →
  Z.of_nat (length (feed out)) ≤ 3 * (limit params / 3) ≤ limit params.
Proof.
  intros H. apply buildFeed_paged in H as (off & _ & _ & Hl & ->). cbn [feed].
  rewrite length_fmap, interleave_length, !length_take. split; [lia|].
  pose proof (Z.mul_div_le (limit params) 3). lia.
Qed.


Definition first_page_out : AlgoOutput :=
  {| out_cursor := Some "6";
     feed := skeleton <$> interleave (take 3 ranked_publisher) (take 6 ranked_follows) |}.

Lemma buildFeed_page_size_witness :
  Z.of_nat (length (feed first_page_out)) ≤ 3 * (9 / 3) ≤ 9.
Proof.
  apply (buildFeed_page_size first_page_of_nine ranked_publisher ranked_follows
           first_page_out).
  vm_compute. reflexivity.
Defined.


(** The request that carries the cursor of a page. *)
Definition next_request (params : QueryParams) (out : AlgoOutput) : QueryParams :=
  {| limit := limit params; cursor := out_cursor out |}.

Lemma cursorOffset_toString (lim z : Z) :
  cursorOffset {| limit := lim; cursor := Some (toString (Int z)) |} = Int z.
Proof.
  unfold cursorOffset. cbn [cursor]. pose proof (parseInt_reads_toString z) as H.
  destruct (toString (Int z)) as [|c s] eqn:E; [|done].
  unfold toString in E. destruct z as [|p|p]; simpl in E; done.
Qed.

(** X13.  Following the cursor of a page that starts at offset [off]: the next
    page starts at [off + 2 * floor(limit / 3)] in both rankings, so it
    holds the publisher posts ranked from there, [floor(limit / 3)] of
    them, and the posts of followed accounts ranked from there, twice as
    many. *)
Theorem buildFeed_next_page (params : QueryParams)
    (rankedPublisher rankedFollows : list Post.t) (off : Z) (out : AlgoOutput) (c : string) :
  cursorOffset params = Int off →
  buildFeed params (paged rankedPublisher) (paged rankedFollows) = Returned out →
  out_cursor out = Some c →
  ∃ out',
    buildFeed (next_request params out) (paged rankedPublisher) (paged rankedFollows)
    = Returned out'
    ∧ cursorOffset (next_request params out) = Int (off + 2 * (limit params / 3))
    ∧ feed out'
      = skeleton <$>
          interleave
            (take (Z.to_nat (limit params / 3))
               (drop (Z.to_nat (off + 2 * (limit params / 3))) rankedPublisher))
            (take (Z.to_nat (2 * (limit params / 3)))
               (drop (Z.to_nat (off + 2 * (limit params / 3))) rankedFollows)).
Proof.
  intros Hoff H Hc. apply buildFeed_paged in H as (off' & Hoff' & Hge & Hl & ->).
  assert (off' = off) as -> by congruence. cbn [out_cursor] in Hc.
  case_bool_decide as Hn; [|done]. injection Hc as <-.
  unfold next_request. cbn [out_cursor]. rewrite bool_decide_eq_true_2 by done.
  replace (limit params / 3 * 2) with (2 * (limit params / 3)) by lia.
  set (l := limit params / 3) in *. set (off' := off + 2 * l).
  set (next := {| limit := limit params; cursor := Some (toString (Int off')) |}).
  assert (cursorOffset next = Int off') as Hnext by apply cursorOffset_toString.
  assert (paged rankedPublisher (cursorOffset next) (limit next / 3)
          = Some (take (Z.to_nat l) (drop (Z.to_nat off') rankedPublisher))) as Hp.
  { rewrite Hnext. unfold paged, next. cbn [limit]. fold l.
    by rewrite bool_decide_eq_true_2 by lia. }
  assert (paged rankedFollows (cursorOffset next) (limit next / 3 * 2)
          = Some (take (Z.to_nat (2 * l)) (drop (Z.to_nat off') rankedFollows))) as Ho.
  { rewrite Hnext. unfold paged, next. cbn [limit]. fold l.
    rewrite bool_decide_eq_true_2 by lia. by replace (l * 2) with (2 * l) by lia. }
  rewrite (buildFeed_returns _ _ _ _ _ Hp Ho). eexists. split; [done|]. split; [done|].
  cbn [feed]. by rewrite merged_interleave.
Qed.

(** The page after the first page of nine starts at offset 6 in both
    rankings: past the four publisher posts, and at the last of the seven
    other posts. *)
Lemma buildFeed_next_page_witness :
  ∃ out',
    buildFeed (next_request first_page_of_nine first_page_out)
      (paged ranked_publisher) (paged ranked_follows)
    = Returned out'
    ∧ cursorOffset (next_request first_page_of_nine first_page_out) = Int (0 + 2 * (9 / 3))
    ∧ feed out'
      = skeleton <$>
          interleave
            (take (Z.to_nat (9 / 3)) (drop (Z.to_nat (0 + 2 * (9 / 3))) ranked_publisher))
            (take (Z.to_nat (2 * (9 / 3)))
               (drop (Z.to_nat (0 + 2 * (9 / 3))) ranked_follows)).
Proof.
  apply (buildFeed_next_page first_page_of_nine ranked_publisher ranked_follows 0
           first_page_out "6").
  - reflexivity.
  - vm_compute. reflexivity.
  - reflexivity.
Defined.

Example second_page_of_nine :
  buildFeed (next_request first_page_of_nine first_page_out)
    (paged ranked_publisher) (paged ranked_follows)
  = Returned
      {| out_cursor := Some "12";
         feed := skeleton <$> [plain_post "did:plc:friend" "n6"] |}.
Proof. vm_compute. reflexivity. Qed.

End FeedPagingFacts.

(** ** The feed algorithms *)

Module AlgosFacts.
Import ListFacts Algos FeedFacts FeedPagingFacts ComplianceExportFacts.

(** *** What the orderings mean *)

Definition prio (p : Post.t) : Z := default 0 (Post.priority p).

(** More recent first, the larger cid first among posts indexed at the
    same time. *)
Definition recent_first (a b : Post.t) : Prop :=
  slt (Post.indexedAt b) (Post.indexedAt a)
  ∨ (Post.indexedAt a = Post.indexedAt b
     ∧ (slt (Post.cid b) (Post.cid a) ∨ Post.cid a = Post.cid b)).

Lemma recency_compare_spec (a b : Post.t) :
  ordered_by recency_compare a b ↔ recent_first a b.
Proof.
  unfold ordered_by, recency_compare, recent_first, slt.
  destruct (String_as_OT.compare_spec (Post.indexedAt b) (Post.indexedAt a)) as [Hi|Hi|Hi].
  - destruct (String_as_OT.compare_spec (Post.cid b) (Post.cid a)) as [Hc|Hc|Hc].
    + split; [|done]. intros _. right. split; [done|]. by right.
    + split; [|done]. intros _. right. split; [done|]. by left.
    + split; [done|]. intros [H|[_ [H|H]]]; exfalso.
      * rewrite Hi in H. by apply slt_irrefl in H.
      * by apply (slt_irrefl (Post.cid a)), (slt_trans _ (Post.cid b)).
      * rewrite H in Hc. by apply slt_irrefl in Hc.
  - split; [|done]. intros _. by left.
  - split; [done|]. intros [H|[H _]]; exfalso.
    + by apply (slt_irrefl (Post.indexedAt a)), (slt_trans _ (Post.indexedAt b)).
    + rewrite H in Hi. by apply slt_irrefl in Hi.
Qed.

Definition priority_first (a b : Post.t) : Prop :=
  prio b < prio a ∨ (prio a = prio b ∧ recent_first a b).

Lemma priority_compare_spec (a b : Post.t) :
  ordered_by priority_compare a b ↔ priority_first a b.
Proof.
  unfold priority_first. rewrite <- recency_compare_spec.
  unfold ordered_by, priority_compare, prio.
  destruct (Z.compare_spec (default 0 (Post.priority b)) (default 0 (Post.priority a)))
    as [H|H|H].
  - split; [intros ?; right; by split|]. by intros [?|[_ ?]]; [lia|].
  - split; [|done]. intros _. by left.
  - split; [done|]. intros [?|[? _]]; lia.
Qed.

#[local] Instance recent_first_total : Total (ordered_by recency_compare).
Proof.
  intros a b. rewrite !recency_compare_spec. unfold recent_first.
  destruct (slt_trichotomy (Post.indexedAt a) (Post.indexedAt b)) as [?|[Hi|?]];
    [right; by left| |left; by left].
  destruct (slt_trichotomy (Post.cid a) (Post.cid b)) as [?|[Hc|?]].
  - right. right. split; [done|]. by left.
  - left. right. split; [done|]. by right.
  - left. right. split; [done|]. by left.
Qed.

#[local] Instance recent_first_trans : Transitive (ordered_by recency_compare).
Proof.
  intros a b c. rewrite !recency_compare_spec. unfold recent_first.
  intros [Hab|[Hab Hab']] [Hbc|[Hbc Hbc']].
  - left. by eapply slt_trans.
  - left. by rewrite <- Hbc.
  - left. by rewrite Hab.
  - right. split; [congruence|].
    destruct Hab' as [H1|H1], Hbc' as [H2|H2].
    + left. by eapply slt_trans.
    + left. by rewrite <- H2.
    + left. by rewrite H1.
    + right. congruence.
Qed.

#[local] Instance priority_first_total : Total (ordered_by priority_compare).
Proof.
  intros a b. rewrite !priority_compare_spec. unfold priority_first.
  destruct (Z.lt_trichotomy (prio a) (prio b)) as [?|[Hp|?]];
    [right; by left| |left; by left].
  destruct (recent_first_total a b) as [H|H]; apply recency_compare_spec in H.
  - left. right. by split.
  - right. right. by split.
Qed.

#[local] Instance priority_first_trans : Transitive (ordered_by priority_compare).
Proof.
  intros a b c. rewrite !priority_compare_spec. unfold priority_first.
  intros [Hab|[Hab Hab']] [Hbc|[Hbc Hbc']].
  - left. lia.
  - left. lia.
  - left. lia.
  - right. split; [lia|]. apply recency_compare_spec.
    apply recency_compare_spec in Hab', Hbc'. by etrans.
Qed.

(** *** The pages of a feed *)

Section Pages.
Variable cmp : Post.t → Post.t → comparison.
Variable db : Database.
Variables publisherDid timeLimit : string.
Variable requesterFollows : list string.

(** A post the feed may show: stored, indexed inside the window, and
    written by the publisher or by an account the requester follows. *)
Definition eligible (p : Post.t) : Prop :=
  p ∈ post db ∧ str_le timeLimit (Post.indexedAt p) = true
  ∧ (Post.author p = publisherDid ∨ Post.author p ∈ requesterFollows).

Lemma NoDup_filter_fmap {A B} (g : A → B) (P : A → Prop) `{∀ x, Decision (P x)}
    (l : list A) :
  NoDup (g <$> l) → NoDup (g <$> filter P l).
Proof.
  induction l as [|x l IH]; [done|]. rewrite fmap_cons. intros [Hx Hl]%NoDup_cons.
  rewrite filter_cons. destruct (decide (P x)); [|by apply IH].
  rewrite fmap_cons. apply NoDup_cons. split; [|by apply IH].
  intros Hin. apply Hx. apply list_elem_of_fmap in Hin as (y & -> & Hy).
  apply list_elem_of_filter in Hy as [_ Hy]. by apply list_elem_of_fmap_2.
Qed.

Lemma feed_page (params : Feed.QueryParams) (out : Feed.AlgoOutput) :
  NoDup (Post.uri <$> post db) →
  Feed.buildFeed params
    (buildPublisherPostsQuery cmp db publisherDid timeLimit)
    (buildFollowsPostsQuery cmp db publisherDid timeLimit requesterFollows)
  = Returned out →
  NoDup (Feed.post <$> Feed.feed out)
  ∧ Forall (λ s, ∃ p, eligible p ∧ Feed.post s = Post.uri p) (Feed.feed out).
Proof.
  intros Hkey H.
  assert (buildFollowsPostsQuery cmp db publisherDid timeLimit requesterFollows
          = Feed.paged (merge_sort (ordered_by cmp)
                          (followsCandidates db publisherDid timeLimit requesterFollows)))
    as Hq.
  { unfold buildFollowsPostsQuery. destruct requesterFollows; [|done].
    unfold Feed.buildFeed in H. by destruct (buildPublisherPostsQuery _ _ _ _ _ _). }
  rewrite Hq in H.
  apply buildFeed_paged in H as (off & _ & _ & _ & ->). cbn [Feed.feed].
  set (pubs := take _ (drop _ (merge_sort _ (publisherCandidates _ _ _)))).
  set (others := take _ (drop _ (merge_sort _ (followsCandidates _ _ _ _)))).
  assert (Hpubs : ∀ p, p ∈ pubs → p ∈ post db ∧ Post.author p = publisherDid
                                  ∧ str_le timeLimit (Post.indexedAt p) = true).
  { intros p Hp. apply elem_of_page in Hp. rewrite merge_sort_Permutation in Hp.
    apply list_elem_of_filter in Hp. tauto. }
  assert (Hothers : ∀ p, p ∈ others → p ∈ post db ∧ Post.author p ≠ publisherDid
                                      ∧ str_le timeLimit (Post.indexedAt p) = true
                                      ∧ Post.author p ∈ requesterFollows).
  { intros p Hp. apply elem_of_page in Hp. rewrite merge_sort_Permutation in Hp.
    apply list_elem_of_filter in Hp. tauto. }
  split.
  - rewrite <- list_fmap_compose.
    change (Feed.post ∘ skeleton) with Post.uri.
    rewrite interleave_Permutation, fmap_app. apply NoDup_app. split; [|split].
    + apply NoDup_fmap_2_strong.
      * intros x y Hx Hy. apply (AggregatorFacts.NoDup_fmap_eq Post.uri (post db)); try done;
          [by apply Hpubs|by apply Hpubs].
      * apply NoDup_page. rewrite merge_sort_Permutation.
        apply NoDup_filter. by eapply NoDup_fmap_1.
    + intros u Hu Hu'. apply list_elem_of_fmap in Hu as (p & -> & Hp).
      apply list_elem_of_fmap in Hu' as (p' & Heq & Hp').
      apply Hpubs in Hp as (Hp & Ha & _). apply Hothers in Hp' as (Hp' & Ha' & _).
      assert (p = p') as -> by (by apply (AggregatorFacts.NoDup_fmap_eq Post.uri (post db))).
      done.
    + apply NoDup_fmap_2_strong.
      * intros x y Hx Hy. apply (AggregatorFacts.NoDup_fmap_eq Post.uri (post db)); try done;
          [by apply Hothers|by apply Hothers].
      * apply NoDup_page. rewrite merge_sort_Permutation.
        apply NoDup_filter. by eapply NoDup_fmap_1.
  - apply Forall_fmap, Forall_forall. intros p Hp. exists p. split; [|done].
    rewrite interleave_Permutation in Hp. apply elem_of_app in Hp as [Hp|Hp].
    + apply Hpubs in Hp. unfold eligible. tauto.
    + apply Hothers in Hp. unfold eligible. tauto.
Qed.

End Pages.

(** X14.  Every post on a page of [newsflow-ir-1] or [newsflow-uk-2] is a
    stored post indexed inside the window and written by the feed's
    publisher or by an account the requester follows, and, uris being the
    primary key of the post table, no post is listed twice. *)
Theorem feed_pages_sound
    (env : ProcessEnv.t) (db : Database) (timeLimit : string)
    (requesterFollows : list string) (params : Feed.QueryParams) (out : Feed.AlgoOutput) :
  NoDup (Post.uri <$> post db) →
  (feedIR1 env db timeLimit requesterFollows params = Returned out →
   NoDup (Feed.post <$> Feed.feed out)
   ∧ Forall (λ s, ∃ p, eligible db (env_or_empty env "NEWSBOT_IR_DID") timeLimit
                         requesterFollows p
                       ∧ Feed.post s = Post.uri p) (Feed.feed out))
  ∧ (feedUK2 env db timeLimit requesterFollows params = Returned out →
     NoDup (Feed.post <$> Feed.feed out)
     ∧ Forall (λ s, ∃ p, eligible db (env_or_empty env "NEWSBOT_UK_DID") timeLimit
                           requesterFollows p
                         ∧ Feed.post s = Post.uri p) (Feed.feed out)).
Proof. intros Hkey. split; intros H; by eapply feed_page. Qed.

Definition ir_env : ProcessEnv.t := [("NEWSBOT_IR_DID", "did:plc:news")].

Definition ir_store : Database :=
  {| post := ranked_publisher ++ ranked_follows ++ [plain_post "did:plc:stranger" "s0"];
     engagement := []; follows := []; subscriber := [] |}.

(** A first page of nine of [newsflow-ir-1]: the post of the account the
    requester does not follow is not on it. *)
Lemma feed_pages_sound_witness :
  ∃ out,
    feedIR1 ir_env ir_store "2026-02-01T00:00:00.000Z" ["did:plc:friend"] first_page_of_nine
    = Returned out
    ∧ NoDup (Feed.post <$> Feed.feed out)
    ∧ Forall (λ s, ∃ p, eligible ir_store (env_or_empty ir_env "NEWSBOT_IR_DID")
                          "2026-02-01T00:00:00.000Z" ["did:plc:friend"] p
                        ∧ Feed.post s = Post.uri p) (Feed.feed out).
Proof.
  eexists. split; [vm_compute; reflexivity|].
  apply (proj1 (feed_pages_sound ir_env ir_store "2026-02-01T00:00:00.000Z"
                  ["did:plc:friend"] first_page_of_nine _
                  ltac:(refine (bool_decide_unpack _ _); vm_compute; exact I))).
  vm_compute. reflexivity.
Defined.

Example feedIR1_first_page :
  ∃ c,
    feedIR1 ir_env ir_store "2026-02-01T00:00:00.000Z" ["did:plc:friend"] first_page_of_nine
    = Returned
        {| Feed.out_cursor := c;
           Feed.feed := skeleton <$>
             [ plain_post "did:plc:news" "p3"; plain_post "did:plc:friend" "n6";
               plain_post "did:plc:friend" "n5"; plain_post "did:plc:news" "p2";
               plain_post "did:plc:friend" "n4"; plain_post "did:plc:friend" "n3";
               plain_post "did:plc:news" "p1"; plain_post "did:plc:friend" "n2";
               plain_post "did:plc:friend" "n1" ] |}.
Proof. eexists. vm_compute. reflexivity. Qed.

(** X15.  The rows either query of [newsflow-uk-2] returns are in priority
    order: of two rows the earlier has the higher priority (a missing
    priority counting as 0), or the same priority and the later
    [indexedAt], or the same of both and a cid that is not smaller. *)
Theorem feedUK2_priority_order
    (db : Database) (publisherDid timeLimit : string) (requesterFollows : list string)
    (off : Feed.number) (lim : Z) (rows : list Post.t) (i j : nat) (a b : Post.t) :
  (buildPublisherPostsQuery priority_compare db publisherDid timeLimit off lim = Some rows
   ∨ buildFollowsPostsQuery priority_compare db publisherDid timeLimit requesterFollows
       off lim = Some rows) →
  rows !! i = Some a → rows !! j = Some b → (i < j)%nat →
  priority_first a b.
Proof.
  intros H Ha Hb Hij. apply priority_compare_spec.
  assert (requesterFollows ≠ [] →
          buildFollowsPostsQuery priority_compare db publisherDid timeLimit requesterFollows
          = Feed.paged (merge_sort (ordered_by priority_compare)
                          (followsCandidates db publisherDid timeLimit requesterFollows)))
    as Hq by (unfold buildFollowsPostsQuery; by destruct requesterFollows).
  destruct H as [H|H];
    [|rewrite Hq in H by (intros ->; discriminate H)];
    apply paged_Some in H as (o & _ & _ & _ & ->);
    (eapply StronglySorted_lookup; [|done|done|done]);
    apply StronglySorted_page, StronglySorted_merge_sort; apply _.
Qed.

Definition ranked_post (n : string) (priority : option Z) (indexedAt : string) : Post.t :=
  Post.mk ("at://did:plc:news/app.bsky.feed.post/" +:+ n) ("bafy-" +:+ n)
    indexedAt indexedAt "did:plc:news" "" "" "" "" "" ""
    priority (Some 0) (Some 0) (Some 0) (Some 0).

Definition uk_store : Database :=
  {| post := [ ranked_post "a" None "2026-02-03T00:00:00.000Z";
               ranked_post "b" (Some 5) "2026-02-01T00:00:00.000Z";
               ranked_post "c" (Some 5) "2026-02-02T00:00:00.000Z" ];
     engagement := []; follows := []; subscriber := [] |}.

(** The two posts of priority 5 come before the latest post, which has
    no priority, the later of the two first. *)
Lemma feedUK2_priority_order_witness :
  priority_first (ranked_post "c" (Some 5) "2026-02-02T00:00:00.000Z")
    (ranked_post "a" None "2026-02-03T00:00:00.000Z").
Proof.
  apply (feedUK2_priority_order uk_store "did:plc:news" "2026-02-01T00:00:00.000Z" []
           (Feed.Int 0) 3
           [ ranked_post "c" (Some 5) "2026-02-02T00:00:00.000Z";
             ranked_post "b" (Some 5) "2026-02-01T00:00:00.000Z";
             ranked_post "a" None "2026-02-03T00:00:00.000Z" ]
           0 2).
  - left. vm_compute. reflexivity.
  - reflexivity.
  - reflexivity.
  - lia.
Defined.

End AlgosFacts.

(** ** The compliance export: accepted requests *)

Module ExportRequestFacts.
Import ComplianceExport ComplianceExportFacts.

(** *** What an accepted request looks like *)

Lemma uniq_spec {A} `{EqDecision A} (seen xs : list A) :
  NoDup (uniq seen xs)
  ∧ ∀ x, x ∈ uniq seen xs ↔ x ∈ xs ∧ x ∉ seen.
Proof.
  revert seen. induction xs as [|x xs IH]; intros seen; simpl.
  - split; [constructor|]. set_solver.
  - destruct (decide (x ∈ seen)) as [Hx|Hx].
    + destruct (IH seen) as [Hnd Hin]. split; [done|]. intros y. rewrite Hin. set_solver.
    + destruct (IH (x :: seen)) as [Hnd Hin]. split.
      * apply NoDup_cons. split; [|done]. rewrite Hin. set_solver.
      * intros y. rewrite elem_of_cons, Hin.
        destruct (decide (y = x)) as [->|Hne]; set_solver.
Qed.

Lemma parse_types_Ok (raw : option QueryValue) (types : list EngagementExportType) :
  parse_types raw = Ok types → types ≠ [] ∧ NoDup types.
Proof.
  unfold parse_types. destruct (as_string raw) as [[|c s]|].
  - intros [= <-]. split; [done|].
    repeat (apply NoDup_cons; split; [set_solver|]). apply NoDup_nil_2.
  - intros H. apply bind_Ok in H as (allowed & _ & H).
    apply bind_Ok in H as ([] & Hc & [= <-]). apply check_Ok in Hc.
    apply negb_true_iff, bool_decide_eq_false in Hc. split.
    + intros Hnil. by rewrite Hnil in Hc.
    + apply uniq_spec.
  - intros [= <-]. split; [done|].
    repeat (apply NoDup_cons; split; [set_solver|]). apply NoDup_nil_2.
Qed.

Lemma parseNonNegInt_nonneg (raw : option QueryValue) (n : Z) :
  parseNonNegInt raw = Some n → 0 ≤ n.
Proof.
  unfold parseNonNegInt. destruct raw as [[[|c s]|]|]; try done.
  destruct (Feed.parseInt _); [|done]. case_bool_decide; [done|]. intros [= <-]. lia.
Qed.

Lemma parseDidParam_Some (raw : option QueryValue) (d : string) :
  parseDidParam raw = Some d →
  raw = Some (QStr d) ∧ String.prefix "did:" d = true ∧ (6 ≤ String.length d)%nat.
Proof.
  unfold parseDidParam. destruct raw as [[[|c s]|]|]; try done.
  destruct (String.prefix _ _) eqn:Hp; [|done]. cbn [negb orb].
  case_bool_decide; [done|]. intros [= <-]. split; [done|]. split; [done|]. lia.
Qed.

Section Accepted.
Variables defaultSince defaultUntil : string.
Variable toISOString : string → option string.

Abbreviation read := (read_parameters defaultSince defaultUntil toISOString).

Lemma read_accepted (req : Request) (p : Parameters) :
  read req = Ok p →
  1 ≤ limit (p_filters p) ≤ 5000
  ∧ str_lt (since (p_filters p)) (until (p_filters p)) = true
  ∧ 0 ≤ p_page p
  ∧ (is_Some (p_cursorRaw p) → p_page p = 0)
  ∧ types (p_filters p) ≠ [] ∧ NoDup (types (p_filters p))
  ∧ (∀ d, subscriberDid (p_filters p) = Some d →
          String.prefix "did:" d = true ∧ (6 ≤ String.length d)%nat)
  ∧ (is_Some (p_otherCursorRaw p) → includeOtherSubscriberActivity (p_filters p) = true).
Proof.
  unfold read_parameters. intros H.
  apply bind_Ok in H as ([] & _ & H). apply bind_Ok in H as ([] & _ & H).
  apply bind_Ok in H as (since & _ & H). apply bind_Ok in H as (until & _ & H).
  apply bind_Ok in H as ([] & Hwindow%check_Ok & H).
  apply bind_Ok in H as (scope & _ & H).
  apply bind_Ok in H as (page & Hpage & H).
  apply bind_Ok in H as (limit & Hlimit & H).
  apply bind_Ok in H as ([] & Hpos%check_Ok & H).
  apply bind_Ok in H as ([] & Hmax%check_Ok & H).
  apply bind_Ok in H as ([] & Hdid%check_Ok & H).
  apply bind_Ok in H as ([] & _ & H).
  apply bind_Ok in H as ([] & Hother%check_Ok & H).
  apply bind_Ok in H as (types & Htypes%parse_types_Ok & H).
  injection H as <-. cbn.
  apply negb_true_iff, Z.leb_gt in Hpos. apply negb_true_iff, Z.ltb_ge in Hmax.
  split; [lia|]. split; [done|]. split; [|split; [|split; [|split; [|split]]]].
  - destruct (negb _); [|by injection Hpage as <-].
    destruct (q_page req) as [v|]; [|by injection Hpage as <-].
    destruct (parseNonNegInt (Some v)) as [n|] eqn:Hn; [|done].
    injection Hpage as <-. by eapply parseNonNegInt_nonneg.
  - intros Hc. rewrite bool_decide_eq_true_2 in Hpage by done. by injection Hpage as <-.
  - apply Htypes.
  - apply Htypes.
  - intros d Hd. by apply parseDidParam_Some in Hd as (_ & ? & ?).
  - intros Ho. rewrite bool_decide_eq_true_2 in Hother by done.
    cbn [andb] in Hother. by apply negb_true_iff, negb_false_iff in Hother.
Qed.

(** X16.  Every request whose parameters are accepted has a limit
    between 1 and 5000, a window with [since] before [until], a page
    number that is not negative (0 when a cursor is given), a non-empty
    list of distinct types, a subscriber filter, if any, that starts with
    [did:] and is at least six characters long, and carries an
    [other_cursor] only together with
    [include_other_subscriber_activity]. *)
Theorem read_parameters_accepted (req : Request) (p : Parameters) :
  read req = Ok p →
  1 ≤ limit (p_filters p) ≤ 5000
  ∧ str_lt (since (p_filters p)) (until (p_filters p)) = true
  ∧ 0 ≤ p_page p
  ∧ (is_Some (p_cursorRaw p) → p_page p = 0)
  ∧ types (p_filters p) ≠ [] ∧ NoDup (types (p_filters p))
  ∧ (∀ d, subscriberDid (p_filters p) = Some d →
          String.prefix "did:" d = true ∧ (6 ≤ String.length d)%nat)
  ∧ (is_Some (p_otherCursorRaw p) → includeOtherSubscriberActivity (p_filters p) = true).
Proof. apply read_accepted. Qed.

End Accepted.

(** The request for pages of one event is accepted, with the defaults
    for everything else. *)
Lemma read_parameters_accepted_witness :
  ∃ p,
    read_parameters "2026-02-02T00:00:00.000Z" "2026-02-03T00:00:00.000Z" plain_date
      first_request = Ok p
    ∧ 1 ≤ limit (p_filters p) ≤ 5000
    ∧ str_lt (since (p_filters p)) (until (p_filters p)) = true
    ∧ 0 ≤ p_page p
    ∧ (is_Some (p_cursorRaw p) → p_page p = 0)
    ∧ types (p_filters p) ≠ [] ∧ NoDup (types (p_filters p))
    ∧ (∀ d, subscriberDid (p_filters p) = Some d →
            String.prefix "did:" d = true ∧ (6 ≤ String.length d)%nat)
    ∧ (is_Some (p_otherCursorRaw p) → includeOtherSubscriberActivity (p_filters p) = true).
Proof.
  eexists. split; [vm_compute; reflexivity|].
  apply (read_parameters_accepted "2026-02-02T00:00:00.000Z" "2026-02-03T00:00:00.000Z"
           plain_date first_request).
  vm_compute. reflexivity.
Defined.

End ExportRequestFacts.

(** ** The compliance export: pages and what they hold *)

Module ExportPagingFacts.
Import ListFacts ComplianceExport ComplianceExportFacts.

#[local] Existing Instances dedupe_order_total dedupe_order_trans.

(** *** The order of a page *)

Lemma str_le_true (a b : string) : str_le a b = true ↔ slt a b ∨ a = b.
Proof.
  unfold str_le. rewrite negb_true_iff, <- not_true_iff_false, str_lt_true.
  destruct (slt_trichotomy a b) as [H|[->|H]].
  - split; [by left|]. intros _ H'. by apply (slt_irrefl a), (slt_trans _ b).
  - split; [by right|]. intros _. apply slt_irrefl.
  - split; [done|]. intros [H'| ->].
    + by destruct (slt_irrefl a); apply (slt_trans _ b).
    + by apply slt_irrefl in H.
Qed.

(** [a] comes no later than [b] on a page: created later, or at the
    same time with an event uri that is not smaller. *)
Definition later_first (a b : Row) : Prop :=
  slt (created_at b) (created_at a)
  ∨ (created_at a = created_at b ∧ (slt (event_uri b) (event_uri a) ∨ event_uri a = event_uri b)).

Lemma page_order_spec (a b : Row) : page_order a b ↔ later_first a b.
Proof.
  unfold page_order, later_first. rewrite str_lt_true, str_le_true. naive_solver.
Qed.


#[local] Instance page_order_trans : Transitive page_order.
Proof.
  intros a b c. rewrite !page_order_spec. unfold later_first.
  intros [Hab|[Hab Hab']] [Hbc|[Hbc Hbc']].
  - left. by eapply slt_trans.
  - left. by rewrite <- Hbc.
  - left. by rewrite Hab.
  - right. split; [congruence|].
    destruct Hab' as [H1|H1], Hbc' as [H2|H2].
    + left. by eapply slt_trans.
    + left. by rewrite <- H2.
    + left. by rewrite H1.
    + right. congruence.
Qed.


(** The cursor that points at a row. *)
Definition cursor_at (d : Row) (sig : string) : EngagementCursor :=
  {| cur_created_at := created_at d; cur_event_uri := event_uri d; filter_sig := sig |}.


(** *** One row per event uri *)

Section Pages.
Variables (db : Database) (publisherDids : list string) (filters : EngagementFilters).
Variable scopeFilter : Row → bool.

Abbreviation kept := (deduped db publisherDids filters scopeFilter).


(** The deduplicated rows in the order of the response. *)
Definition ordered : list Row := merge_sort page_order kept.






Lemma select_page_None (effectiveLimit offset : Z) :
  select_page db publisherDids filters scopeFilter None effectiveLimit offset
  = joined db publisherDids filters scopeFilter
      <$> take (Z.to_nat effectiveLimit) (drop (Z.to_nat offset) ordered).
Proof.
  unfold select_page. do 3 f_equal. cbn [cursorFilter].
  by rewrite IngestionFacts.filter_all.
Qed.


End Pages.

(** *** The pages of a response *)

Section Responses.
Variable PRIORITIZE_API_KEY : option string.
Variable publisherDids : list string.
Variables defaultSince defaultUntil : string.
Variable toISOString : string → option string.
Variable sha256_hex : string → string.
Variable base64UrlEncode : string → string.
Variable parse_base64url_json : string → option Json.

Abbreviation read := (read_parameters defaultSince defaultUntil toISOString).
Abbreviation decode := (decodeEngagementCursor toISOString parse_base64url_json).
Abbreviation encode := (encodeEngagementCursor base64UrlEncode).
Abbreviation sign := (buildFilterSignature sha256_hex).
Abbreviation check_request :=
  (validate defaultSince defaultUntil toISOString sha256_hex parse_base64url_json).
Abbreviation handle :=
  (handleEngagementExport PRIORITIZE_API_KEY publisherDids defaultSince defaultUntil
     toISOString sha256_hex base64UrlEncode parse_base64url_json).

(** The rows of the response to [p], all pages together. *)
Definition all_rows (db : Database) (p : Parameters) : list Row :=
  ordered db publisherDids (p_filters p) (scopeFilter (p_filters p)).

Definition events_of (db : Database) (p : Parameters) (rows : list Row)
  : list EngagementExportEvent :=
  joined db publisherDids (p_filters p) (scopeFilter (p_filters p)) <$> rows.

Lemma last_take {A} (n : nat) (l : list A) :
  (0 < n ≤ length l)%nat → last (take n l) = l !! (n - 1)%nat.
Proof.
  intros Hn. rewrite last_lookup, length_take, lookup_take_lt by lia.
  f_equal. lia.
Qed.

(** The page cut from the rows the statement returns, and its cursor. *)
Lemma cut_page_rows (db : Database) (p : Parameters) (lim : Z) (sig : string)
    (rows : list Row) :
  0 < lim →
  cut_page base64UrlEncode lim sig (events_of db p (take (Z.to_nat (lim + 1)) rows))
  = (events_of db p (take (Z.to_nat lim) rows),
     if bool_decide (lim < Z.of_nat (length rows))
     then (λ d, encode (cursor_at d sig)) <$> rows !! (Z.to_nat lim - 1)%nat
     else None).
Proof.
  intros Hlim. unfold cut_page, events_of. rewrite length_fmap, length_take.
  destruct (decide (lim < Z.of_nat (length rows))) as [Hmore|Hless].
  - rewrite !bool_decide_eq_true_2 by lia. rewrite <- fmap_take, take_take.
    replace (Z.to_nat lim `min` Z.to_nat (lim + 1))%nat with (Z.to_nat lim) by lia.
    f_equal. rewrite fmap_last, last_take by lia.
    by destruct (rows !! _).
  - rewrite !bool_decide_eq_false_2 by lia.
    by rewrite !take_ge by lia.
Qed.

Lemma read_parameters_raw (req : Request) (p : Parameters) :
  read req = Ok p →
  p_cursorRaw p = as_string (q_cursor req)
  ∧ p_otherCursorRaw p = as_string (q_other_cursor req).
Proof.
  unfold read_parameters. intros H.
  repeat (apply bind_Ok in H as (? & _ & H)). by injection H as <-.
Qed.

(** X17.  A request is answered 401 exactly when it does not carry the
    configured key; in particular every request is when no key, or the
    empty key, is configured. *)
Theorem unauthorized_iff (req : Request) (db : Database) (src : option string) :
  (handle req db src = Unauthorized ↔ ¬ authorized PRIORITIZE_API_KEY req)
  ∧ (PRIORITIZE_API_KEY = None ∨ PRIORITIZE_API_KEY = Some "" →
     handle req db src = Unauthorized).
Proof.
  assert (Hiff : handle req db src = Unauthorized ↔ ¬ authorized PRIORITIZE_API_KEY req).
  { unfold handleEngagementExport, authorized.
    destruct (api_key req) as [[|c k]|] eqn:Hk.
    - split; [|done]. intros _ (k & [= <-] & Hne & _). done.
    - case_bool_decide as Heq; cbn [negb].
      + split.
        * destruct (validate _ _ _ _ _ req) as [v|]; [|done].
          by destruct (cut_page _ _ _ _).
        * intros Hn. destruct Hn. by exists (String c k).
      + split; [|done]. intros _ (k' & [= <-] & _ & Henv). congruence.
    - split; [|done]. intros _ (k & ? & _). done. }
  split; [done|]. intros Hkey. apply Hiff. intros (k & _ & Hne & Henv).
  destruct Hkey as [Hkey|Hkey]; rewrite Hkey in Henv; [done|]. injection Henv as <-. done.
Qed.

Lemma handle_Ok (req : Request) (db : Database) (src : option string) (v : Validated) :
  authorized PRIORITIZE_API_KEY req →
  check_request req = Ok v →
  ∃ other,
    handle req db src
    = let filters := v_filters v in
      let limit := limit filters in
      let offset := if v_useCursor v then 0 else v_page v * limit in
      let cursor := if v_useCursor v then v_cursor v else None in
      let page :=
        cut_page base64UrlEncode limit (v_filterSig v)
          (select_page db publisherDids filters (scopeFilter filters) cursor (limit + 1) offset) in
      Json200 (since filters) (until filters) (scope filters) (v_page v) limit
        page.1 page.2 src other.
Proof.
  intros (k & Hk & Hne & Henv) Hv. unfold handleEngagementExport. rewrite Hk, Hv.
  destruct k as [|c k]; [done|]. rewrite Henv, bool_decide_eq_true_2 by done. cbn [negb].
  cbv zeta. destruct (cut_page _ _ _ _) as [events next]. by eexists.
Qed.

(** X18.  Without a cursor, page [page] of a response holds the rows
    [page * limit, page * limit + limit) of the ordered deduplicated rows;
    it carries a cursor exactly when rows remain after it, and the cursor
    then points at the last row of the page. *)
Theorem numbered_page (req : Request) (db : Database) (src : option string) (p : Parameters) :
  authorized PRIORITIZE_API_KEY req →
  read req = Ok p →
  p_cursorRaw p = None →
  p_otherCursorRaw p = None →
  let lim := limit (p_filters p) in
  let rest := drop (Z.to_nat (p_page p * lim)) (all_rows db p) in
  ∃ other,
    handle req db src
    = Json200 (since (p_filters p)) (until (p_filters p)) (scope (p_filters p))
        (p_page p) lim
        (events_of db p (take (Z.to_nat lim) rest))
        (if bool_decide (lim < Z.of_nat (length rest))
         then (λ d, encode (cursor_at d (sign (p_filters p)))) <$> rest !! (Z.to_nat lim - 1)%nat
         else None)
        src other.
Proof.
  intros Hauth Hp Hc Ho lim rest.
  assert (check_request req
          = Ok {| v_filters := p_filters p; v_page := p_page p;
                  v_filterSig := sign (p_filters p); v_cursor := None; v_otherCursor := None;
                  v_useCursor := false;
                  v_useOtherCursor := includeOtherSubscriberActivity (p_filters p) && false |})
    as Hv.
  { unfold validate. rewrite Hp. cbn [mbind result_bind]. rewrite Hc, Ho. done. }
  destruct (handle_Ok req db src _ Hauth Hv) as [other ->]. exists other.
  cbn [v_filters v_page v_useCursor v_cursor v_filterSig]. cbv zeta.
  rewrite select_page_None.
  assert (0 < lim) as Hlim.
  { subst lim. by destruct (ExportRequestFacts.read_accepted _ _ _ _ _ Hp)
                  as [[? _] _]; lia. }
  fold lim. fold (all_rows db p). fold rest.
  change (joined db publisherDids (p_filters p) (scopeFilter (p_filters p)) <$> ?l)
    with (events_of db p l).
  by rewrite cut_page_rows.
Qed.


(** *** What a response holds *)

Lemma elem_of_distinct_on (prev : option string) (rows : list Row) (x : Row) :
  x ∈ distinct_on prev rows → x ∈ rows.
Proof.
  revert prev. induction rows as [|r rows IH]; intros prev; simpl; [done|].
  destruct (decide _).
  - intros H. right. by eapply IH.
  - intros [->|H]%elem_of_cons; [by left|]. right. by eapply IH.
Qed.

Lemma elem_of_select_page (db : Database) (filters : EngagementFilters) (sf : Row → bool)
    (c : option EngagementCursor) (lim off : Z) (e : EngagementExportEvent) :
  e ∈ select_page db publisherDids filters sf c lim off →
  ∃ d, d ∈ scoped db publisherDids filters sf ∧ e = joined db publisherDids filters sf d.
Proof.
  unfold select_page. intros H. apply list_elem_of_fmap in H as (d & -> & Hd).
  exists d. split; [|done]. apply elem_of_page in Hd.
  rewrite merge_sort_Permutation in Hd. apply list_elem_of_filter in Hd as [_ Hd].
  unfold deduped in Hd. apply elem_of_distinct_on in Hd.
  by rewrite merge_sort_Permutation in Hd.
Qed.

(** The stored row an exported event stands for: an engagement row, or a
    post that replies to something. *)
Definition stored_as (db : Database) (e : EngagementExportEvent) : Prop :=
  (∃ g, g ∈ engagement db
        ∧ Engagement.uri g = ev_event_uri e ∧ Engagement.subjectUri g = ev_subject_uri e
        ∧ Engagement.author g = ev_author_did e ∧ Engagement.createdAt g = ev_created_at e
        ∧ type_of_code (Engagement.type g) = ev_type e)
  ∨ (∃ r, r ∈ post db ∧ Post.rootUri r ≠ ""
          ∧ Post.uri r = ev_event_uri e ∧ Post.rootUri r = ev_subject_uri e
          ∧ Post.author r = ev_author_did e ∧ Post.createdAt r = ev_created_at e
          ∧ ev_type e = Some comment).

(** The condition of the requested scope on an event. *)
Definition in_scope (db : Database) (sc : EngagementExportScope) (e : EngagementExportEvent)
  : Prop :=
  let target := publisherTarget publisherDids (ev_subject_uri e) = true in
  let actor := subscriberActor db (ev_author_did e) = true in
  match sc with
  | scope_publisher => target
  | scope_subscriber => actor
  | scope_subscriber_on_publisher => target ∧ actor
  | scope_union => target ∨ actor
  end.

(** X20.  Every event of a response stands for a stored engagement row or
    reply created inside the requested window, has one of the requested
    types, is by the requested subscriber if one was named, and meets the
    condition of the requested scope. *)
Theorem exported_events_sound (req : Request) (db : Database) (src : option string)
    (p : Parameters) since until scope page limit events next source other :
  read req = Ok p →
  handle req db src = Json200 since until scope page limit events next source other →
  Forall (λ e,
            stored_as db e
            ∧ str_le (ComplianceExport.since (p_filters p)) (ev_created_at e) = true
            ∧ str_lt (ev_created_at e) (ComplianceExport.until (p_filters p)) = true
            ∧ (∃ t, ev_type e = Some t ∧ t ∈ types (p_filters p))
            ∧ (∀ s, subscriberDid (p_filters p) = Some s → ev_author_did e = s)
            ∧ in_scope db (ComplianceExport.scope (p_filters p)) e)
         events.
Proof.
  intros Hp. unfold handleEngagementExport.
  destruct (api_key req) as [[|a k]|]; [done| |done].
  destruct (negb _); [done|].
  destruct (validate _ _ _ _ _ req) as [v|] eqn:Hv; [|done].
  destruct (validate_filterSig _ _ _ _ _ _ _ _ Hp Hv) as [_ Hf]. rewrite Hf.
  destruct (cut_page _ _ _ _) as [ev nx] eqn:Hcut. intros [= _ _ _ _ _ -> _ _ _].
  apply Forall_forall. intros e He.
  assert (∃ c lim off,
            e ∈ select_page db publisherDids (p_filters p) (scopeFilter (p_filters p)) c lim off)
    as (c & lim & off & Hsel).
  { unfold cut_page in Hcut. case_bool_decide; injection Hcut as <- _.
    - do 3 eexists. by eapply (subseteq_take _ _ e).
    - by do 3 eexists. }
  apply elem_of_select_page in Hsel as (d & Hd & ->).
  unfold scoped in Hd. apply list_elem_of_filter in Hd as [Hpass Hd].
  apply andb_true_iff in Hpass as [Hpass Hscope].
  apply andb_true_iff in Hpass as [Htype Hdid].
  cbn [ev_type ev_event_uri ev_subject_uri ev_author_did ev_created_at joined].
  assert (Hrow : stored_as db (joined db publisherDids (p_filters p)
                                 (scopeFilter (p_filters p)) d)
                 ∧ in_window (p_filters p) (created_at d) = true
                 ∧ is_publisher_target d = publisherTarget publisherDids (subject_uri d)
                 ∧ is_subscriber_actor d = subscriberActor db (author_did d)).
  { unfold enriched in Hd. apply elem_of_app in Hd as [Hd|Hd].
    - apply list_elem_of_fmap in Hd as (g & -> & Hg).
      apply list_elem_of_filter in Hg as [Hw Hg]. split; [|done].
      left. exists g. by repeat split.
    - apply list_elem_of_fmap in Hd as (r & -> & Hr).
      apply list_elem_of_filter in Hr as [[Hroot Hw] Hr]. split; [|done].
      right. exists r. by repeat split. }
  destruct Hrow as (Hstored & Hw & Htarget & Hactor).
  apply andb_true_iff in Hw as [Hsince Huntil].
  split; [done|]. split; [done|]. split; [done|]. split; [|split].
  - unfold typeFilter in Htype. destruct (type d) as [t|]; [|done].
    exists t. split; [done|]. by apply bool_decide_eq_true in Htype.
  - intros s Hs. unfold subscriberDidFilter in Hdid. rewrite Hs in Hdid.
    by apply bool_decide_eq_true in Hdid.
  - unfold in_scope, scopeFilter in *. cbn [ev_subject_uri ev_author_did joined].
    rewrite <- Htarget, <- Hactor.
    destruct (ComplianceExport.scope (p_filters p)); try done.
    + by apply orb_true_iff in Hscope.
    + by apply andb_true_iff in Hscope.
Qed.

End Responses.

(** *** Two pages of one event *)

(** The request for the page after the first: the same request with the
    cursor the first response carried. *)
Definition second_request : Request :=
  {| api_key := Some "secret"; q_cursor := Some (QStr issued_token);
     q_other_cursor := None; q_since := None; q_until := None; q_scope := None;
     q_page := None; q_limit := Some (QStr "1"); q_subscriber_did := None;
     q_include_other_subscriber_activity := None; q_types := None |}.

Lemma numbered_page_witness :
  ∃ p,
    read_parameters "2026-02-02T00:00:00.000Z" "2026-02-03T00:00:00.000Z" plain_date
      first_request = Ok p
    ∧ let lim := limit (p_filters p) in
      let rest := drop (Z.to_nat (p_page p * lim)) (all_rows ["did:plc:news"] two_likes p) in
      ∃ other,
        handleEngagementExport (Some "secret") ["did:plc:news"]
          "2026-02-02T00:00:00.000Z" "2026-02-03T00:00:00.000Z"
          plain_date plain_hash plain_encode read_issued first_request two_likes None
        = Json200 (since (p_filters p)) (until (p_filters p)) (scope (p_filters p))
            (p_page p) lim
            (events_of ["did:plc:news"] two_likes p (take (Z.to_nat lim) rest))
            (if bool_decide (lim < Z.of_nat (length rest))
             then (λ d, encodeEngagementCursor plain_encode
                          (cursor_at d (buildFilterSignature plain_hash (p_filters p))))
                    <$> rest !! (Z.to_nat lim - 1)%nat
             else None)
            None other.
Proof.
  eexists. split; [vm_compute; reflexivity|].
  apply (numbered_page (Some "secret") ["did:plc:news"]
           "2026-02-02T00:00:00.000Z" "2026-02-03T00:00:00.000Z"
           plain_date plain_hash plain_encode read_issued first_request two_likes None).
  - exists "secret". repeat split. discriminate.
  - vm_compute. reflexivity.
  - reflexivity.
  - reflexivity.
Defined.


(** The second page holds the earlier of the two likes and no cursor. *)
Example second_page_served :
  ∃ events other,
    handleEngagementExport (Some "secret") ["did:plc:news"]
      "2026-02-02T00:00:00.000Z" "2026-02-03T00:00:00.000Z"
      plain_date plain_hash plain_encode read_issued second_request two_likes None
    = Json200 "2026-02-02T00:00:00.000Z" "2026-02-03T00:00:00.000Z" scope_union 0 1
        events None None other
    ∧ ev_event_uri <$> events = ["at://did:plc:alice/app.bsky.feed.like/3ka"].
Proof. do 2 eexists. split; vm_compute; reflexivity. Qed.

Lemma exported_events_sound_witness :
  ∃ p events,
    read_parameters "2026-02-02T00:00:00.000Z" "2026-02-03T00:00:00.000Z" plain_date
      first_request = Ok p
    ∧ Forall (λ e,
                stored_as two_likes e
                ∧ str_le (since (p_filters p)) (ev_created_at e) = true
                ∧ str_lt (ev_created_at e) (until (p_filters p)) = true
                ∧ (∃ t, ev_type e = Some t ∧ t ∈ types (p_filters p))
                ∧ (∀ s, subscriberDid (p_filters p) = Some s → ev_author_did e = s)
                ∧ in_scope ["did:plc:news"] two_likes (scope (p_filters p)) e)
        events
    ∧ ev_event_uri <$> events = ["at://did:plc:bob/app.bsky.feed.like/3kb"].
Proof.
  do 2 eexists. split; [vm_compute; reflexivity|]. split.
  - eapply (exported_events_sound (Some "secret") ["did:plc:news"]
              "2026-02-02T00:00:00.000Z" "2026-02-03T00:00:00.000Z"
              plain_date plain_hash plain_encode read_issued first_request two_likes None).
    + vm_compute. reflexivity.
    + vm_compute. reflexivity.
  - vm_compute. reflexivity.
Defined.

End ExportPagingFacts.

(** ** The compliance export: the filter signature *)

Module SignatureFacts.
Import ComplianceExport ComplianceExportFacts ExportPagingFacts.

#[local] Instance name_order_total : Total name_order.
Proof.
  intros a b. unfold name_order. rewrite !str_le_true.
  destruct (slt_trichotomy (type_name a) (type_name b)) as [?|[?|?]]; auto.
Qed.

#[local] Instance name_order_trans : Transitive name_order.
Proof.
  intros a b c. unfold name_order. rewrite !str_le_true.
  intros [H1|H1] [H2|H2].
  - left. by eapply slt_trans.
  - left. by rewrite <- H2.
  - left. by rewrite H1.
  - right. congruence.
Qed.

#[local] Instance name_order_antisym : AntiSymm (=) name_order.
Proof.
  intros a b. unfold name_order. rewrite !str_le_true.
  intros [H1|H1] [H2|H2]; try (by apply type_name_inj).
  by destruct (slt_irrefl (type_name a)); apply (slt_trans _ (type_name b)).
Qed.

(** [sort()] forgets the order in which the types were listed. *)
Lemma sorted_types_Permutation (l l' : list EngagementExportType) :
  l ≡ₚ l' → sorted_types l = sorted_types l'.
Proof.
  intros H. unfold sorted_types. apply (StronglySorted_unique name_order).
  - apply StronglySorted_merge_sort; apply _.
  - apply StronglySorted_merge_sort; apply _.
  - by rewrite !merge_sort_Permutation.
Qed.

(** X21.  Two filter sets are signed with the same text exactly when they
    agree on every field, the types compared as a collection and not as
    a sequence; so filter sets that differ only in the order of their
    types have the same signature. *)
Theorem normalized_json_same_filters (f g : EngagementFilters) :
  (normalized_json f = normalized_json g ↔ same_filters f g)
  ∧ ∀ sha256_hex : string → string,
      same_filters f g → buildFilterSignature sha256_hex f = buildFilterSignature sha256_hex g.
Proof.
  assert (Hsame : same_filters f g → normalized_json f = normalized_json g).
  { intros (Hs & Hu & Hsc & Hl & Ht & Hd & Hi). unfold normalized_json.
    by rewrite Hs, Hu, Hsc, Hl, Hd, Hi, (sorted_types_Permutation _ _ Ht). }
  split; [split; [apply normalized_json_inj|done]|].
  intros sha H. unfold buildFilterSignature. by rewrite Hsame.
Qed.

End SignatureFacts.

(** ** The cursor encoding *)

Module Base64UrlFacts.
Import Base64Url ComplianceExportFacts.

Fixpoint padding (k : nat) : string :=
  match k with O => "" | S k' => String "=" (padding k') end.

(** No character of [s] is one of the three that the url form treats
    specially. *)
Fixpoint plain (s : string) : Prop :=
  match s with
  | EmptyString => True
  | String c rest => c ≠ "-"%char ∧ c ≠ "_"%char ∧ c ≠ "="%char ∧ plain rest
  end.

(** Base64 text as the standard alphabet writes it: a body without [-],
    [_] and [=], then at most three [=] signs that fill the last group of
    four. *)
Definition standard (base64 : string) : Prop :=
  ∃ body k, base64 = body +:+ padding k ∧ plain body ∧ (k < 4)%nat
            ∧ Z.of_nat (String.length base64) mod 4 = 0.

Lemma length_append (a b : string) :
  String.length (a +:+ b) = (String.length a + String.length b)%nat.
Proof. induction a as [|c a IH]; [done|]. rewrite append_cons. simpl. by rewrite IH. Qed.

Lemma length_padding (k : nat) : String.length (padding k) = k.
Proof. induction k; simpl; congruence. Qed.

Lemma append_padding_S (s : string) (k : nat) :
  (s +:+ "=") +:+ padding k = s +:+ padding (S k).
Proof. induction s as [|c s IH]; [done|]. by rewrite !append_cons, IH. Qed.

Lemma append_empty (s : string) : s +:+ "" = s.
Proof. induction s as [|c s IH]; [done|]. by rewrite append_cons, IH. Qed.

Lemma replace_all_append (x y : ascii) (a b : string) :
  replace_all x y (a +:+ b) = replace_all x y a +:+ replace_all x y b.
Proof.
  induction a as [|c a IH]; [done|]. rewrite append_cons. simpl. by rewrite IH, append_cons.
Qed.

Lemma replace_all_padding (x y : ascii) (k : nat) :
  x ≠ "="%char → replace_all x y (padding k) = padding k.
Proof.
  intros Hx. induction k as [|k IH]; [done|]. cbn [padding replace_all]. rewrite IH.
  destruct (Ascii.eqb_spec "=" x) as [Heq|Hne]; [|done]. by destruct Hx.
Qed.

Lemma strip_padding_padding (k : nat) : strip_padding (padding k) = "".
Proof. induction k as [|k IH]; simpl; [done|]. by rewrite IH. Qed.

Lemma strip_padding_append (s : string) (k : nat) :
  (∀ i, String.get i s ≠ Some "="%char) → strip_padding (s +:+ padding k) = s.
Proof.
  induction s as [|c s IH]; intros Hs.
  - apply strip_padding_padding.
  - rewrite append_cons. simpl. rewrite IH by (intros i; apply (Hs (S i))).
    destruct (Ascii.eqb_spec c "=") as [->|_]; [by specialize (Hs 0%nat)|done].
Qed.

(** The url form of a body, and back. *)
Lemma url_form_plain (body : string) :
  plain body →
  (∀ i, String.get i (replace_all "/" "_" (replace_all "+" "-" body)) ≠ Some "="%char)
  ∧ replace_all "_" "/" (replace_all "-" "+" (replace_all "/" "_" (replace_all "+" "-" body)))
    = body.
Proof.
  induction body as [|c body IH]; simpl.
  - intros _. split; [by intros [|i]|done].
  - intros (Hm & Hu & He & Hp). destruct (IH Hp) as [IH1 IH2]. rewrite IH2.
    destruct (Ascii.eqb_spec c "+") as [->|Hplus].
    + split; [|done]. intros [|i]; [done|apply IH1].
    + destruct (Ascii.eqb_spec c "/") as [->|Hslash].
      * split; [|done]. intros [|i]; [done|apply IH1].
      * destruct (Ascii.eqb_spec c "-") as [->|_]; [done|].
        destruct (Ascii.eqb_spec c "_") as [->|_]; [done|].
        split; [|done]. intros [|i]; [simpl; congruence|apply IH1].
Qed.

Ltac mod4 := repeat rewrite length_append in *; simpl String.length in *;
  Z.div_mod_to_equations; lia.

Lemma pad_done (s : string) (fuel : nat) :
  Z.of_nat (String.length s) mod 4 = 0 → pad fuel s = s.
Proof. intros H%Z.eqb_eq. destruct fuel; simpl; by rewrite H. Qed.

Lemma pad_step (s : string) (fuel : nat) :
  Z.of_nat (String.length s) mod 4 ≠ 0 → pad (S fuel) s = pad fuel (s +:+ "=").
Proof. intros H%Z.eqb_neq. simpl. by rewrite H. Qed.

Lemma pad_restores (body : string) (k : nat) :
  (k < 4)%nat →
  Z.of_nat (String.length (body +:+ padding k)) mod 4 = 0 →
  pad 3 body = body +:+ padding k.
Proof.
  intros Hk Hlen. rewrite length_append, length_padding in Hlen.
  destruct k as [|[|[|[|k]]]]; try lia.
  - rewrite append_empty. apply pad_done. mod4.
  - rewrite pad_step by mod4. rewrite pad_done by mod4. done.
  - rewrite pad_step by mod4. rewrite pad_step by mod4. rewrite pad_done by mod4.
    by rewrite <- (append_padding_S body 1), <- (append_padding_S _ 0), append_empty.
  - rewrite pad_step by mod4. rewrite pad_step by mod4. rewrite pad_step by mod4.
    rewrite pad_done by mod4.
    by rewrite <- (append_padding_S body 2), <- (append_padding_S _ 1),
         <- (append_padding_S _ 0), append_empty.
Qed.

(** The padding loop always ends within three rounds. *)
Lemma pad_multiple_of_four (s : string) : Z.of_nat (String.length (pad 3 s)) mod 4 = 0.
Proof.
  destruct (decide (Z.of_nat (String.length s) mod 4 = 0)) as [H0|H0];
    [by rewrite pad_done|rewrite pad_step by done].
  destruct (decide (Z.of_nat (String.length (s +:+ "=")) mod 4 = 0)) as [H1|H1];
    [by rewrite pad_done|rewrite pad_step by done].
  destruct (decide (Z.of_nat (String.length ((s +:+ "=") +:+ "=")) mod 4 = 0)) as [H2|H2];
    [by rewrite pad_done|rewrite pad_step by done].
  rewrite pad_done; mod4.
Qed.

Section Buffer.
Variables toBase64 fromBase64 : string → string.

(** X22.  Decoding the url form gives back what was encoded: for an input
    whose base64 text is standard and is read back by the base64
    decoder, replacing [-] and [_] and restoring the padding rebuild that
    very text.  The text handed to the decoder always has a length that
    is a multiple of four. *)
Theorem base64Url_round_trip (input : string) :
  standard (toBase64 input) →
  fromBase64 (toBase64 input) = input →
  base64UrlDecode fromBase64 (base64UrlEncode toBase64 input) = input
  ∧ ∀ token, Z.of_nat (String.length
                         (pad 3 (replace_all "_" "/" (replace_all "-" "+" token)))) mod 4 = 0.
Proof.
  intros (body & k & Hb & Hplain & Hk & Hlen) Hround.
  split; [|intros token; apply pad_multiple_of_four].
  unfold base64UrlDecode, base64UrlEncode. rewrite <- Hround at 2. f_equal.
  rewrite Hb in *. rewrite !replace_all_append, !replace_all_padding by done.
  destruct (url_form_plain body Hplain) as [Hfree Hback].
  by rewrite strip_padding_append, Hback, (pad_restores body k).
Qed.

End Buffer.

(** A codec that knows one text, whose base64 form has a [+] and two
    [=] signs. *)
Definition one_text_toBase64 (input : string) : string :=
  if String.eqb input "hi>?" then "aGk+Pw==" else "".

Definition one_text_fromBase64 (base64 : string) : string :=
  if String.eqb base64 "aGk+Pw==" then "hi>?" else "".

Example base64UrlEncode_one_text : base64UrlEncode one_text_toBase64 "hi>?" = "aGk-Pw".
Proof. reflexivity. Qed.

Lemma base64Url_round_trip_witness :
  base64UrlDecode one_text_fromBase64 (base64UrlEncode one_text_toBase64 "hi>?") = "hi>?"
  ∧ ∀ token, Z.of_nat (String.length
                         (pad 3 (replace_all "_" "/" (replace_all "-" "+" token)))) mod 4 = 0.
Proof.
  apply (base64Url_round_trip one_text_toBase64 one_text_fromBase64 "hi>?").
  - exists "aGk+Pw", 2%nat. split; [reflexivity|]. split.
    + simpl. repeat split; discriminate.
    + split; [lia|reflexivity].
  - reflexivity.
Defined.

End Base64UrlFacts.

(** ** The rate limiter of the study endpoints *)

Module StudyFacts.
Import ProcessEnv Study.

(** *** Configured values *)

Lemma positive_or_pos (raw : option Z) (fallback : Z) :
  0 < fallback → 0 < positive_or raw fallback.
Proof.
  intros H. unfold positive_or. destruct raw as [n|]; [|done].
  destruct (Z.ltb_spec 0 n); lia.
Qed.

(** X23.  The limiter is off exactly when the maximum is set to 0; otherwise
    at least one call per window is allowed and a window lasts at least
    a second, whatever the environment holds.  The lifetime of a token is
    at least a second too. *)
Theorem rate_limit_config_positive (env : ProcessEnv.t) :
  (getComplianceSummaryRateLimitConfig env = None
   ↔ parseIntOrUndefined (get env "STUDY_COMPLIANCE_RATE_LIMIT_MAX") = Some 0)
  ∧ (∀ config, getComplianceSummaryRateLimitConfig env = Some config →
               1 ≤ max config ∧ 1000 ≤ windowMs config)
  ∧ 1 ≤ parseTtlSeconds env.
Proof.
  unfold getComplianceSummaryRateLimitConfig, parseTtlSeconds. split; [|split].
  - case_bool_decide; naive_solver.
  - intros config. case_bool_decide; [done|]. intros [= <-]. cbn [max windowMs].
    pose proof (positive_or_pos
                  (parseIntOrUndefined (get env "STUDY_COMPLIANCE_RATE_LIMIT_MAX")) 60).
    pose proof (positive_or_pos
                  (parseIntOrUndefined (get env "STUDY_COMPLIANCE_RATE_LIMIT_WINDOW_SECONDS"))
                  60).
    lia.
  - pose proof (positive_or_pos (parseIntOrUndefined (get env "STUDY_JWT_TTL_SECONDS"))
                  (60 * 60 * 24 * 4)). lia.
Qed.

(** *** A burst of calls *)

Definition is_ok (r : RateLimitResult) : bool :=
  match r with RateOk => true | RateLimited _ => false end.

Lemma prune_lookup (nowMs w : Z) (st : Limiter) (key : string) (s : RateLimitState) :
  complianceSummaryRateLimit st !! key = Some s →
  nowMs ≤ resetAt s + w →
  complianceSummaryRateLimit (pruneComplianceSummaryRateLimit nowMs w st) !! key = Some s.
Proof.
  intros Hs Hlive. unfold pruneComplianceSummaryRateLimit. case_bool_decide; [done|].
  cbn [complianceSummaryRateLimit]. apply map_lookup_filter_Some. split; [done|].
  simpl. lia.
Qed.

Lemma prune_lookup_None (nowMs w : Z) (st : Limiter) (key : string) :
  complianceSummaryRateLimit st !! key = None →
  complianceSummaryRateLimit (pruneComplianceSummaryRateLimit nowMs w st) !! key = None.
Proof.
  intros Hs. unfold pruneComplianceSummaryRateLimit. case_bool_decide; [done|].
  cbn [complianceSummaryRateLimit]. apply map_lookup_filter_None. by left.
Qed.

(** Inside a window that has let [c] calls through, the next calls are
    let through until [max] is reached and refused from then on. *)
Lemma answers_in_window (key : string) (config : RateLimitConfig) (times : list Z)
    (st : Limiter) (c r : Z) :
  complianceSummaryRateLimit st !! key = Some {| count := c; resetAt := r |} →
  0 ≤ windowMs config → c ≤ max config →
  Forall (λ t, t < r) times →
  is_ok <$> answers key config times st
  = replicate (length times `min` Z.to_nat (max config - c)) true
    ++ replicate (length times - Z.to_nat (max config - c)) false.
Proof.
  intros Hs Hw. revert st c Hs.
  induction times as [|t times IH]; intros st c Hs Hc Ht; [done|].
  apply Forall_cons in Ht as [Ht Hts]. cbn [answers].
  unfold checkComplianceSummaryRateLimit.
  rewrite (prune_lookup t (windowMs config) st key _ Hs) by (simpl; lia).
  cbn [resetAt count]. rewrite bool_decide_eq_false_2 by lia.
  case_bool_decide as Hfull.
  - (* the window is full *)
    cbn [fmap list_fmap is_ok]. fold (fmap (M:=list) is_ok).
    rewrite (IH _ c) by
      (done || by apply (prune_lookup t (windowMs config) st key); [|simpl; lia]).
    replace (Z.to_nat (max config - c)) with 0%nat by lia.
    by rewrite !Nat.min_0_r, !Nat.sub_0_r.
  - cbn [fmap list_fmap is_ok]. fold (fmap (M:=list) is_ok).
    rewrite (IH _ (c + 1)) by (done || lia || by cbn; rewrite lookup_insert_eq).
    replace (Z.to_nat (max config - c)) with (S (Z.to_nat (max config - (c + 1)))) by lia.
    cbn [length]. by rewrite <- Nat.succ_min_distr.
Qed.

(** X24.  Calls of one key that all fall inside the window its first call
    opens: exactly the first [max] of them are let through. *)
Theorem burst_within_window (key : string) (config : RateLimitConfig) (st : Limiter)
    (t0 : Z) (times : list Z) :
  complianceSummaryRateLimit st !! key = None →
  1 ≤ max config → 0 ≤ windowMs config →
  Forall (λ t, t < t0 + windowMs config) times →
  is_ok <$> answers key config (t0 :: times) st
  = replicate (S (length times) `min` Z.to_nat (max config)) true
    ++ replicate (S (length times) - Z.to_nat (max config)) false.
Proof.
  intros Hs Hmax Hw Ht. cbn [answers]. unfold checkComplianceSummaryRateLimit.
  rewrite (prune_lookup_None t0 (windowMs config) st key Hs).
  cbn [fmap list_fmap is_ok]. fold (fmap (M:=list) is_ok).
  rewrite (answers_in_window key config times _ 1 (t0 + windowMs config))
    by (done || lia || by cbn; rewrite lookup_insert_eq).
  replace (Z.to_nat (max config)) with (S (Z.to_nat (max config - 1))) by lia.
  by rewrite <- Nat.succ_min_distr.
Qed.

Definition two_a_minute : RateLimitConfig := {| max := 2; windowMs := 60000 |}.

(** Three calls within three seconds: the third is refused. *)
Lemma burst_within_window_witness :
  is_ok <$> answers "did:plc:reader" two_a_minute [1000; 2000; 3000] initial
  = [true; true; false].
Proof.
  apply (burst_within_window "did:plc:reader" two_a_minute initial 1000 [2000; 3000]).
  - reflexivity.
  - simpl. lia.
  - simpl. lia.
  - repeat constructor; simpl; lia.
Defined.

(** *** Retry-After *)

Lemma ceil_seconds_ge (ms : Z) : ms ≤ 1000 * ceil_seconds ms.
Proof.
  unfold ceil_seconds. pose proof (Z.mul_div_le (- ms) 1000). lia.
Qed.

(** X25.  A refused call names a wait of at least one second, and a call
    made once that wait is over is let through. *)
Theorem retry_after_suffices (key : string) (config : RateLimitConfig) (st st' : Limiter)
    (nowMs retryAfterSeconds later : Z) :
  checkComplianceSummaryRateLimit key config nowMs st = (RateLimited retryAfterSeconds, st') →
  1 ≤ retryAfterSeconds
  ∧ (nowMs + 1000 * retryAfterSeconds ≤ later →
     (checkComplianceSummaryRateLimit key config later st').1 = RateOk).
Proof.
  unfold checkComplianceSummaryRateLimit at 1.
  destruct (complianceSummaryRateLimit
              (pruneComplianceSummaryRateLimit nowMs (windowMs config) st) !! key)
    as [[c r]|] eqn:Hs; [|done].
  cbn [resetAt count]. case_bool_decide as Hlive; [done|].
  case_bool_decide as Hfull; [|done]. intros [= <- <-]. split; [lia|].
  intros Hlater. pose proof (ceil_seconds_ge (r - nowMs)).
  unfold checkComplianceSummaryRateLimit.
  destruct (complianceSummaryRateLimit (pruneComplianceSummaryRateLimit later _ _) !! key)
    as [[c' r']|] eqn:Hs'; [|done].
  assert (r' = r) as ->.
  { unfold pruneComplianceSummaryRateLimit in Hs' at 1.
    case_bool_decide; [by rewrite Hs in Hs'; injection Hs'|].
    cbn [complianceSummaryRateLimit] in Hs'.
    apply map_lookup_filter_Some in Hs' as [Hs' _]. rewrite Hs in Hs'. by injection Hs'. }
  cbn [resetAt]. rewrite bool_decide_eq_true_2 by lia. done.
Qed.

(** The limiter after two calls in the window that ends at 61 seconds. *)
Definition window_full : Limiter :=
  {| complianceSummaryRateLimit :=
       {[ "did:plc:reader" := {| count := 2; resetAt := 61000 |} ]};
     lastComplianceSummaryRateLimitPruneMs := 0 |}.

(** A call at 3 seconds is told to wait 58 seconds; the call at 61
    seconds is let through. *)
Lemma retry_after_suffices_witness :
  1 ≤ 58
  ∧ (checkComplianceSummaryRateLimit "did:plc:reader" two_a_minute 61000 window_full).1
    = RateOk.
Proof.
  split.
  - apply (proj1 (retry_after_suffices "did:plc:reader" two_a_minute window_full window_full
                    3000 58 61000 eq_refl)).
  - apply (proj2 (retry_after_suffices "did:plc:reader" two_a_minute window_full window_full
                    3000 58 61000 eq_refl)).
    lia.
Defined.

End StudyFacts.

(** ** Retention from the environment, and running it again *)

Module RetentionConfigFacts.
Import ProcessEnv Retention RetentionConfig RetentionFacts.

(** X26.  Retention is opt-in: unless [FEEDGEN_RETENTION_ENABLED] reads
    [true], a run leaves the store as it is.  When it is on, a configured
    batch size of 0 makes the run go on for ever, every batch deleting
    nothing, and a negative one makes the store refuse the first
    statement. *)
Theorem retention_from_environment
    (env : ProcessEnv.t) (isoDaysAgo : Z → string) (db : Database) (fuel : nat) :
  (getBoolEnv env "FEEDGEN_RETENTION_ENABLED" false = false →
   runRetentionOnce (getRetentionConfig env) isoDaysAgo fuel db = Returned db)
  ∧ (getBoolEnv env "FEEDGEN_RETENTION_ENABLED" false = true →
     getIntEnv env "FEEDGEN_RETENTION_DELETE_BATCH_SIZE" 50000 = 0 →
     runRetentionOnce (getRetentionConfig env) isoDaysAgo fuel db = OutOfFuel)
  ∧ (getBoolEnv env "FEEDGEN_RETENTION_ENABLED" false = true →
     getIntEnv env "FEEDGEN_RETENTION_DELETE_BATCH_SIZE" 50000 < 0 →
     runRetentionOnce (getRetentionConfig env) isoDaysAgo (S fuel) db
     = Rejected "LIMIT must not be negative").
Proof.
  unfold runRetentionOnce, getRetentionConfig. cbn [enabled deleteBatchSize].
  split; [|split].
  - by intros ->.
  - intros -> ->. cbn [negb]. by rewrite delete_loop_zero.
  - intros -> Hneg. cbn [negb delete_loop].
    by destruct (Z.ltb_spec (getIntEnv env "FEEDGEN_RETENTION_DELETE_BATCH_SIZE" 50000) 0);
      [|lia].
Qed.

Section Again.
Variables (cfg : Retention.RetentionConfig) (isoDaysAgo : Z → string).

Lemma stale_fresh {A} (older : A → bool) (tbl : list A) :
  stale older (fresh older tbl) = 0%nat.
Proof.
  unfold stale, fresh. induction tbl as [|r tbl IH]; [done|].
  rewrite filter_cons. destruct (older r) eqn:E.
  - rewrite decide_False by done. apply IH.
  - rewrite decide_True by done. rewrite filter_cons, decide_False by congruence. apply IH.
Qed.

(** X27.  A run that has completed leaves nothing for a second run with the
    same cutoffs: the second run ends after one batch per table and
    returns the store unchanged. *)
Theorem runRetentionOnce_again (fuel : nat) (db db' : Database) :
  enabled cfg = true →
  0 < deleteBatchSize cfg →
  runRetentionOnce cfg isoDaysAgo fuel db = Returned db' →
  db' = trimmed cfg isoDaysAgo db
  ∧ runRetentionOnce cfg isoDaysAgo 1 db' = Returned db'.
Proof.
  intros Hon Hb. unfold runRetentionOnce. rewrite Hon. cbn [negb].
  fold (engagementOlder cfg isoDaysAgo). fold (postOlder cfg isoDaysAgo).
  rewrite !delete_loop_spec by done.
  case_bool_decide; [done|]. case_bool_decide; [done|].
  intros [= <-]. split; [done|]. cbn [post engagement follows subscriber].
  rewrite !stale_fresh, !Nat.Div0.div_0_l.
  rewrite !bool_decide_eq_false_2 by lia.
  rewrite !fresh_all by apply stale_fresh.
  by rewrite (fresh_all _ (fresh _ (engagement db))) by apply stale_fresh.
Qed.

End Again.

Example retention_batch_size_zero :
  runRetentionOnce
    (getRetentionConfig [ ("FEEDGEN_RETENTION_ENABLED", "TRUE");
                          ("FEEDGEN_RETENTION_DELETE_BATCH_SIZE", "0") ])
    fortnight_ago 1000 aged_store
  = OutOfFuel.
Proof. vm_compute. reflexivity. Qed.

(** The store the run of the three stale rows leaves is left as it is
    by the next run, after one batch per table. *)
Lemma runRetentionOnce_again_witness :
  {| post := [];
     engagement := [ like_at "2" "2026-02-03T00:00:00.000Z";
                     like_at "5" "2026-02-01T00:00:00.000Z" ];
     follows := []; subscriber := [] |}
  = trimmed two_per_batch fortnight_ago aged_store
  ∧ runRetentionOnce two_per_batch fortnight_ago 1
      {| post := [];
         engagement := [ like_at "2" "2026-02-03T00:00:00.000Z";
                         like_at "5" "2026-02-01T00:00:00.000Z" ];
         follows := []; subscriber := [] |}
    = Returned
        {| post := [];
           engagement := [ like_at "2" "2026-02-03T00:00:00.000Z";
                           like_at "5" "2026-02-01T00:00:00.000Z" ];
           follows := []; subscriber := [] |}.
Proof.
  apply (runRetentionOnce_again two_per_batch fortnight_ago 2 aged_store).
  - reflexivity.
  - simpl. lia.
  - vm_compute. reflexivity.
Defined.

End RetentionConfigFacts.

(** ** Priority updates by uri *)

Module PrioritizeFacts.
Import Prioritize.

#[local] Instance Priority_eq_dec : EqDecision Priority.
Proof. solve_decision. Defined.

#[local] Instance Entry_eq_dec : EqDecision Entry.
Proof. solve_decision. Defined.






Lemma transaction_None (updates : list PriorityUpdate) (tbl : list Post.t) :
  Exists (λ update, storable (pu_priority update) = None) updates →
  transaction updates tbl = None.
Proof.
  revert tbl. induction updates as [|update updates IH]; intros tbl Hex; simpl.
  - by apply Exists_nil in Hex.
  - destruct (storable (pu_priority update)) as [z|] eqn:E; [|done].
    apply IH. apply Exists_cons in Hex as [Hex|Hex]; [congruence|done].
Qed.

Lemma validate_app (updates : list Entry) (valid : list PriorityUpdate) (invalid : list Entry) :
  validate updates valid invalid
  = '(v, i) ← validate updates [] []; Some (valid ++ v, invalid ++ i).
Proof.
  revert valid invalid. induction updates as [|update updates IH]; intros valid invalid.
  - simpl. by rewrite !app_nil_r.
  - set (base := validate updates [] []) in *.
    destruct update as [|[[|c uri]|] [z| |]]; simpl; try done;
      fold base; rewrite ?IH; destruct base as [[v i]|]; simpl; try done;
      by rewrite <- ?app_assoc.
Qed.

(** A valid entry: a non-empty string as [uri] and a number as
    [priority]. *)
Definition valid_entry (update : Entry) : option PriorityUpdate :=
  match update with
  | EValue (Some (String _ _ as uri)) (PInt _ as priority)
  | EValue (Some (String _ _ as uri)) (PFraction as priority) => Some (mkUpdate uri priority)
  | _ => None
  end.

Lemma validate_spec (updates : list Entry) :
  validate updates [] []
  = if bool_decide (ENull ∈ updates) then None
    else Some (omap valid_entry updates,
               filter (λ update, valid_entry update = None) updates).
Proof.
  induction updates as [|update updates IH]; [done|].
  destruct update as [|uri priority].
  - cbn [validate]. by rewrite bool_decide_eq_true_2 by set_solver.
  - assert (bool_decide (ENull ∈ EValue uri priority :: updates)
            = bool_decide (ENull ∈ updates)) as ->.
    { apply bool_decide_ext. set_solver. }
    destruct uri as [[|c uri]|], priority as [z| |]; cbn [validate];
      rewrite validate_app, IH; case_bool_decide; simpl; try done;
      rewrite filter_cons; simpl; by case_decide.
Qed.



Section Endpoint.

Variable PRIORITIZE_API_KEY : option string.


(** X28.  A request in test mode leaves the store as it was, and test
    mode is what a request without a [test] parameter, or with one that
    reads [true] in any letter case, gets; so does a request without the
    configured key, which is answered 401, and every request that is not
    answered with an update report. *)
Theorem dry_run_by_default (apiKey test : option string) (body : list Entry)
    (db : Database) :
  (test_mode test = true → (handleJsonPriorityUpdates PRIORITIZE_API_KEY apiKey test body db).2 = db)
  ∧ (apiKey = None ∨ apiKey = Some "" ∨ apiKey ≠ PRIORITIZE_API_KEY →
     handleJsonPriorityUpdates PRIORITIZE_API_KEY apiKey test body db = (Unauthorized, db))
  ∧ ((∀ a b c d e f, (handleJsonPriorityUpdates PRIORITIZE_API_KEY apiKey test body db).1 ≠ UpdateMode a b c d e f) →
     (handleJsonPriorityUpdates PRIORITIZE_API_KEY apiKey test body db).2 = db)
  ∧ (test = None ∨ (∃ t, test = Some t ∧ ComplianceExport.toLowerCase t = "true") →
     test_mode test = true).
Proof.
  split; [|split; [|split]].
  - intros Ht. unfold handleJsonPriorityUpdates. rewrite Ht.
    destruct apiKey as [[|c key]|]; try done.
    repeat (case_match; simpl; try done).
  - intros H. unfold handleJsonPriorityUpdates.
    destruct apiKey as [[|c key]|]; try done.
    rewrite bool_decide_eq_false_2; [done|].
    destruct H as [H|[H|H]]; done.
  - intros H. unfold handleJsonPriorityUpdates in *.
    destruct apiKey as [[|c key]|]; try done.
    repeat (case_match; simpl in *; try done).
    by specialize (H _ _ _ _ _ _ eq_refl).
  - intros [->|(t & -> & Ht)]; [done|]. simpl. by rewrite Ht.
Qed.


(** X30.  One value the integer column does not take (a fraction, or an
    integer beyond 32 bits) for a post that exists fails the whole
    request: it is answered 500 and no priority is changed, not even
    those of the entries before it.  A [null] element in the body does
    the same. *)
Theorem refused_value_changes_nothing (key : string) (test : option string)
    (body : list Entry) (db : Database) :
  PRIORITIZE_API_KEY = Some key → key ≠ EmptyString →
  (ENull ∈ body
   ∨ test_mode test = false
     ∧ ∃ update, update ∈ omap valid_entry body
         ∧ storable (pu_priority update) = None
         ∧ pu_uri update ∈ Post.uri <$> post db) →
  handleJsonPriorityUpdates PRIORITIZE_API_KEY (Some key) test body db
  = (InternalServerError, db).
Proof.
  intros Hkey Hne H. unfold handleJsonPriorityUpdates.
  destruct key as [|c key]; [done|].
  rewrite bool_decide_eq_true_2 by done; cbn [negb].
  rewrite validate_spec. destruct H as [H|(Htest & u & Hu & Hst & Hp)].
  { by rewrite bool_decide_eq_true_2. }
  case_bool_decide; [done|].
  rewrite bool_decide_eq_false_2 by (intros E; by destruct (omap valid_entry body); [set_solver|]).
  destruct (existsb has_nul _); [done|]. rewrite Htest.
  set (existing := list_to_set _ : gset string).
  assert (pu_uri u ∈ existing) as Hin.
  { unfold existing. rewrite elem_of_list_to_set.
    apply list_elem_of_fmap in Hp as (p & Hp1 & Hp2).
    apply list_elem_of_fmap. exists p. split; [done|].
    apply list_elem_of_filter. split; [|done]. rewrite <- Hp1.
    apply list_elem_of_fmap. eauto. }
  assert (u ∈ filter (λ update, pu_uri update ∈ existing) (omap valid_entry body)) as Hf
    by (by apply list_elem_of_filter).
  rewrite bool_decide_eq_false_2.
  2: { intros E. destruct (filter _ (omap valid_entry body)); [set_solver|done]. }
  rewrite transaction_None; [done|]. apply Exists_exists. eauto.
Qed.

End Endpoint.

(** *** Three posts and five entries *)

Definition post_a : string := "at://did:plc:news/app.bsky.feed.post/a".
Definition post_b : string := "at://did:plc:news/app.bsky.feed.post/b".

(** Two entries for post [a], one for post [b], one without a uri and
    one for a post that is not stored. *)
Definition five_entries : list Entry :=
  [ EValue (Some post_a) (PInt 3);
    EValue (Some post_b) (PInt 1);
    EValue (Some post_a) (PInt 7);
    EValue None (PInt 1);
    EValue (Some "at://did:plc:news/app.bsky.feed.post/z") (PInt 2) ].

Example five_entries_dry_run :
  ∃ found,
    handleJsonPriorityUpdates (Some "secret") (Some "secret") None five_entries
      AlgosFacts.uk_store
    = (TestMode 4 3 1 1 found ["at://did:plc:news/app.bsky.feed.post/z"]
         [EValue None (PInt 1)],
       AlgosFacts.uk_store).
Proof. eexists. vm_compute. reflexivity. Qed.

Example five_entries_update :
  Post.priority <$>
    post (handleJsonPriorityUpdates (Some "secret") (Some "secret") (Some "false")
            five_entries AlgosFacts.uk_store).2
  = [Some 7; Some 1; Some 5].
Proof. vm_compute. reflexivity. Qed.


(** A fraction for post [b] after a good entry for post [a]: nothing is
    changed. *)
Lemma refused_value_changes_nothing_witness :
  handleJsonPriorityUpdates (Some "secret") (Some "secret") (Some "false")
    [EValue (Some post_a) (PInt 3); EValue (Some post_b) PFraction] AlgosFacts.uk_store
  = (InternalServerError, AlgosFacts.uk_store).
Proof.
  apply (refused_value_changes_nothing (Some "secret") "secret" (Some "false")
           [EValue (Some post_a) (PInt 3); EValue (Some post_b) PFraction]
           AlgosFacts.uk_store).
  - reflexivity.
  - discriminate.
  - right. split; [reflexivity|]. exists (mkUpdate post_b PFraction).
    split; [|split].
    + simpl. set_solver.
    + reflexivity.
    + vm_compute. set_solver.
Defined.

End PrioritizeFacts.
